(** * ML_Percy: the cross-view correspondence pipeline

    A shallow embedding of the manifest builder
    ([BDAG/Scripts/image-manifest.py], [image_correspondinator.py]) and of
    the dataset preparation scripts ([MK/Scripts/prepare-transgeo.py],
    [BDAG/Scripts/prepare-transgeo.py]), with the properties of the
    correspondence graph, of the curation passes and of the train/test
    split; and of the scripts around them: the waypoint groups
    ([BDAG/Scripts/waypoint_grouper.py]), the tiles cut around the
    waypoints ([BDAG/Scripts/aerial_image_extractor.py]) and the time
    stamps put in file names ([rename_images.py]).

    Conventions of the embedding:
    - a Python [dict] is an association list in insertion order
      ([dict V]); [d[k]] on a missing key raises [KeyError], which is
      [None] here, like every other exception;
    - file names and keys are ASCII strings;
    - the manifest is the one mutable object of the scripts; it is passed
      explicitly, together with the state of the random generator;
    - Python floats are [pyfloat]: a rational, an infinity or a NaN.
      Comparisons are exact on them; products and quotients of finite
      floats are taken in [Q], without rounding. A count such as
      [int(n * p)] is therefore the count of the script where the float
      operations are exact, as they are for [p] 0 or 1 and for a dyadic
      [p] with [n] small enough; a theorem that states a count is stated
      there, and the others do not depend on it. *)

From Stdlib Require Import ZArith QArith Qround String Ascii Lia Lqa.
From stdpp Require Import base option list strings gmap sets pretty sorting.

Local Open Scope string_scope.
Local Open Scope list_scope.
Local Open Scope stdpp_scope.
Local Open Scope Z_scope.

(** * Part I. The scripts *)

(** ** Python dictionaries *)

Abbreviation key := string (only parsing).

Abbreviation dict V := (list (key * V)) (only parsing).

Fixpoint dict_get {V} (k : key) (d : dict V) : option V :=
  match d with
  | [] => None
  | (k', v) :: d' => if decide (k = k') then Some v else dict_get k d'
  end.

Definition dict_keys {V} (d : dict V) : list key := d.*1.

Definition dict_values {V} (d : dict V) : list V := d.*2.

(** [k in d] *)
Definition dict_mem {V} (k : key) (d : dict V) : bool :=
  bool_decide (k ∈ dict_keys d).

(** [del d[k]] once the key is known to be there. *)
Definition dict_del {V} (k : key) (d : dict V) : dict V :=
  filter (λ p, p.1 ≠ k) d.

(** Every value of the dictionary mutated in place by [f]. *)
Definition dict_map {V} (f : V → V) (d : dict V) : dict V :=
  prod_map id f <$> d.

(** [d[k] = f(d[k])] for a key that is present. *)
Fixpoint dict_alter {V} (f : V → V) (k : key) (d : dict V) : dict V :=
  match d with
  | [] => []
  | (k', v) :: d' =>
      if decide (k = k') then (k', f v) :: d' else (k', v) :: dict_alter f k d'
  end.

(** [d[k] = v]: overwrite in place, or append a new key. *)
Fixpoint dict_set {V} (k : key) (v : V) (d : dict V) : dict V :=
  match d with
  | [] => [(k, v)]
  | (k', v') :: d' =>
      if decide (k = k') then (k', v) :: d' else (k', v') :: dict_set k v d'
  end.

(** A loop whose body may raise. *)
Fixpoint foldM {A S} (f : S → A → option S) (s : S) (l : list A) : option S :=
  match l with
  | [] => Some s
  | x :: l' => s' ← f s x; foldM f s' l'
  end.

(** [l.remove(x)]: the first occurrence only. *)
Fixpoint list_remove_first (x : key) (l : list key) : list key :=
  match l with
  | [] => []
  | y :: l' => if decide (x = y) then l' else y :: list_remove_first x l'
  end.

(** [if x in l: l.remove(x)] *)
Definition scrub (x : key) (l : list key) : list key :=
  if decide (x ∈ l) then list_remove_first x l else l.

(** ** Python values *)

Inductive pyfloat := Fin (q : Q) | PInf | NInf | NaN.

(** [a < b] on floats: false as soon as one side is a NaN. *)
Definition float_lt (a b : pyfloat) : bool :=
  match a, b with
  | NaN, _ | _, NaN => false
  | Fin x, Fin y => negb (Qle_bool y x)
  | NInf, NInf => false
  | NInf, _ => true
  | _, NInf => false
  | PInf, _ => false
  | Fin _, PInf => true
  end.

(** [min(a, b)] and [max(a, b)] keep the first argument unless the second
    one is strictly smaller (resp. larger). *)
Definition py_min (a b : pyfloat) : pyfloat := if float_lt b a then b else a.
Definition py_max (a b : pyfloat) : pyfloat := if float_lt a b then b else a.

(** [int(x)]: truncation towards zero; [ValueError] on a NaN and
    [OverflowError] on an infinity. *)
Definition py_int (x : pyfloat) : option Z :=
  match x with
  | Fin q => Some (if Qle_bool 0%Q q then Qfloor q else Qceiling q)
  | _ => None
  end.

Definition float_of_Z (z : Z) : pyfloat := Fin (inject_Z z).

(** [a * b] and [1 - a]; only the finite case is a number. *)
Definition float_mul (a b : pyfloat) : pyfloat :=
  match a, b with
  | NaN, _ | _, NaN => NaN
  | Fin x, Fin y => Fin (x * y)%Q
  | Fin x, PInf | PInf, Fin x =>
      if Qeq_bool x 0%Q then NaN else if Qle_bool 0%Q x then PInf else NInf
  | Fin x, NInf | NInf, Fin x =>
      if Qeq_bool x 0%Q then NaN else if Qle_bool 0%Q x then NInf else PInf
  | PInf, PInf | NInf, NInf => PInf
  | PInf, NInf | NInf, PInf => NInf
  end.

Definition float_one_minus (a : pyfloat) : pyfloat :=
  match a with
  | Fin x => Fin (1 - x)%Q
  | PInf => NInf
  | NInf => PInf
  | NaN => NaN
  end.

(** [a <= b] on floats. *)
Definition float_le (a b : pyfloat) : bool :=
  match a, b with
  | NaN, _ | _, NaN => false
  | _, _ => negb (float_lt b a)
  end.

(** The values a label or a JSON manifest holds in a field. *)
Inductive pyval :=
| PyStr (s : string)
| PyInt (z : Z)
| PyFloat (x : pyfloat).

(** [a <= b]: strings compare with strings, character by character;
    numbers with numbers; anything else is a [TypeError]. *)
Definition py_le (a b : pyval) : option bool :=
  match a, b with
  | PyStr s, PyStr t => Some (String.leb s t)
  | PyInt x, PyInt y => Some (x <=? y)
  | PyInt x, PyFloat y => Some (float_le (float_of_Z x) y)
  | PyFloat x, PyInt y => Some (float_le x (float_of_Z y))
  | PyFloat x, PyFloat y => Some (float_le x y)
  | _, _ => None
  end.

(** The chained comparison [a <= x <= b]. *)
Definition py_between (a x b : pyval) : option bool :=
  c ← py_le a x; if c : bool then py_le x b else Some false.

(** ** The manifest *)

Record Size := mkSize { w : Z; h : Z }.

(** A geodetic point, with the values the manifest holds for it. *)
Record LonLat := mkLonLat { lon : pyval; lat : pyval }.

Record AerialItem := mkAerial {
  a_id : pyval;
  a_size : Size;
  center : LonLat;
  positive_boundary : LonLat * LonLat;
  semi_positive_boundary : LonLat * LonLat;
  a_positive : list key;
  a_semi_positive : list key
}.

Record GroundItem := mkGround {
  g_size : Size;
  location : LonLat;
  g_positive : list key;
  g_semi_positive : list key
}.

Record Manifest := mkManifest {
  aerial : dict AerialItem;
  ground : dict GroundItem
}.

Definition set_a_positive (l : list key) (ai : AerialItem) : AerialItem :=
  mkAerial (a_id ai) (a_size ai) (center ai) (positive_boundary ai)
    (semi_positive_boundary ai) l (a_semi_positive ai).

Definition set_a_semi_positive (l : list key) (ai : AerialItem) : AerialItem :=
  mkAerial (a_id ai) (a_size ai) (center ai) (positive_boundary ai)
    (semi_positive_boundary ai) (a_positive ai) l.

Definition set_g_positive (l : list key) (gi : GroundItem) : GroundItem :=
  mkGround (g_size gi) (location gi) l (g_semi_positive gi).

Definition set_g_semi_positive (l : list key) (gi : GroundItem) : GroundItem :=
  mkGround (g_size gi) (location gi) (g_positive gi) l.

(** The body of the loop of [remove_ground_image] over the aerial items. *)
Definition scrub_aerial (ground_key : key) (ai : AerialItem) : AerialItem :=
  set_a_semi_positive (scrub ground_key (a_semi_positive ai))
    (set_a_positive (scrub ground_key (a_positive ai)) ai).

(** The body of the loop of [remove_aerial_image] over the ground items. *)
Definition scrub_ground (aerial_key : key) (gi : GroundItem) : GroundItem :=
  set_g_semi_positive (scrub aerial_key (g_semi_positive gi))
    (set_g_positive (scrub aerial_key (g_positive gi)) gi).

Definition remove_ground_image (ground_key : key) (m : Manifest) : option Manifest :=
  if dict_mem ground_key (ground m) then
    Some (mkManifest (dict_map (scrub_aerial ground_key) (aerial m))
                     (dict_del ground_key (ground m)))
  else None.

Definition remove_aerial_image (aerial_key : key) (m : Manifest) : option Manifest :=
  if dict_mem aerial_key (aerial m) then
    Some (mkManifest (dict_del aerial_key (aerial m))
                     (dict_map (scrub_ground aerial_key) (ground m)))
  else None.

(** The guarded removal of the deduplication and name passes:
    [if k in manifest["aerial"]: ... elif k in manifest["ground"]: ...]. *)
Definition remove_image (k : key) (m : Manifest) : option Manifest :=
  if dict_mem k (aerial m) then remove_aerial_image k m
  else if dict_mem k (ground m) then remove_ground_image k m
  else Some m.

(** ** Program arguments, the random generator *)

(** The options of [prepare-transgeo.py] that the curation and the split
    read. There is no seed among them. *)
Record Args := mkArgs {
  panorama_aspect_ratio : pyfloat;
  max_positive_panoramas : Z;
  distraction_proportion : pyfloat;
  train_proportion : pyfloat
}.

(** [max(min(p, 1.0), 0)] *)
Definition clamp (p : pyfloat) : pyfloat := py_max (py_min p (Fin 1%Q)) (Fin 0%Q).

(** Lines 36-37 of [main]: what the script does with the two proportions
    before it loads the manifest. Nothing is raised there. *)
Definition startup (args : Args) : option Args :=
  Some (mkArgs (panorama_aspect_ratio args) (max_positive_panoramas args)
          (clamp (distraction_proportion args)) (clamp (train_proportion args))).

(** Python's module-level generator, seen through the two functions the
    scripts call. [R] is its hidden state; the scripts never set it. The
    laws are the documented contract of [random.sample] (k elements taken
    at k distinct positions) and of [random.shuffle]. *)
Class RandomSource (R : Type) := {
  sample : R → list key → nat → list key * R;
  shuffle : R → list Z → list Z * R;
  sample_sub r l k : (k ≤ length l)%nat → (sample r l k).1 ⊆+ l;
  sample_length r l k : (k ≤ length l)%nat → length (sample r l k).1 = k;
  shuffle_perm r l : (shuffle r l).1 ≡ₚ l
}.

(** [sample(population, k)] with its [ValueError]. *)
Definition py_sample `{RandomSource R} (r : R) (population : list key) (k : Z)
  : option (list key * R) :=
  if bool_decide (0 ≤ k ≤ Z.of_nat (length population))
  then Some (sample r population (Z.to_nat k))
  else None.

(** ** The curation passes of [MK/Scripts/prepare-transgeo.py] *)

(** [list(manifest["aerial"].keys()) + list(manifest["ground"].keys())] *)
Definition all_keys (m : Manifest) : list key :=
  dict_keys (aerial m) ++ dict_keys (ground m).

(** [Path(k).name] for a relative path that ends in a file name: what
    follows the last slash. *)
Fixpoint path_name_from (acc : string) (s : string) : string :=
  match s with
  | EmptyString => acc
  | String c s' =>
      if Ascii.eqb c "/"%char then path_name_from EmptyString s'
      else path_name_from (acc ++ String c EmptyString) s'
  end.

Definition path_name (k : key) : string := path_name_from EmptyString k.

Fixpoint has_space (s : string) : bool :=
  match s with
  | EmptyString => false
  | String c s' => Ascii.eqb c " "%char || has_space s'
  end.

(** [image_names[name].append(k)] on a [defaultdict(list)]. *)
Fixpoint names_append (name : string) (k : key) (d : dict (list key)) : dict (list key) :=
  match d with
  | [] => [(name, [k])]
  | (n, v) :: d' =>
      if decide (name = n) then (n, v ++ [k]) :: d'
      else (n, v) :: names_append name k d'
  end.

Definition image_names (ks : list key) : dict (list key) :=
  foldl (λ d k, names_append (path_name k) k d) [] ks.

(** The keys the deduplication visits: [v[1:]] for every name with more
    than one key. *)
Definition duplicates (d : dict (list key)) : list key :=
  p ← d; if bool_decide (1 < length p.2)%nat then tail p.2 else [].

(** "Remove duplicate images": the keys are grouped by file name before
    the loop starts. *)
Definition remove_duplicates (m : Manifest) : option Manifest :=
  foldM (λ m k, remove_image k m) m (duplicates (image_names (all_keys m))).

(** "Remove images with spaces in their names". *)
Definition remove_spaces (m : Manifest) : option Manifest :=
  foldM (λ m k, if has_space (path_name k) then remove_image k m else Some m)
        m (all_keys m).

(** [w / h < ratio], with the [ZeroDivisionError] of the quotient. *)
Definition non_panorama (ratio : pyfloat) (gi : GroundItem) : option bool :=
  if decide (h (g_size gi) = 0) then None
  else Some (float_lt (Fin (inject_Z (w (g_size gi)) / inject_Z (h (g_size gi)))%Q) ratio).

(** [list(filter(f, d.items()))], keys only, for an [f] that may raise. *)
Fixpoint filter_keys {V} (f : V → option bool) (d : dict V) : option (list key) :=
  match d with
  | [] => Some []
  | (k, v) :: d' =>
      b ← f v; ks ← filter_keys f d'; Some (if b : bool then k :: ks else ks)
  end.

(** "Remove non-panoramas": the list of keys is complete before the first
    removal. *)
Definition remove_non_panoramas (ratio : pyfloat) (m : Manifest) : option Manifest :=
  ks ← filter_keys (non_panorama ratio) (ground m);
  foldM (λ m k, remove_ground_image k m) m ks.

Section Curator.
Context {R : Type} `{RandomSource R}.

Definition St : Type := Manifest * R.

(** One iteration of the loop "Enforce maximum panoramas per aerial". *)
Definition cap_tile (max : Z) (s : St) (aerial_key : key) : option St :=
  ai ← dict_get aerial_key (aerial s.1);
  if bool_decide (max ≠ 0) && bool_decide (max < Z.of_nat (length (a_positive ai))) then
    '(panorama_sample, r') ← py_sample s.2 (a_positive ai) max;
    m' ← foldM (λ m leftover, remove_ground_image leftover m) s.1
               (filter (λ x, x ∉ panorama_sample) (a_positive ai));
    Some (mkManifest
            (dict_alter (set_a_positive panorama_sample) aerial_key (aerial m'))
            (ground m'), r')
  else Some s.

(** "Enforce maximum panoramas per aerial": the loop visits the aerial
    keys in order; an iteration sees what the earlier ones removed. *)
Definition cap_positives (max : Z) (s : St) : option St :=
  foldM (cap_tile max) s (dict_keys (aerial s.1)).

(** A tile that covers no panorama. *)
Definition is_distraction (ai : AerialItem) : bool :=
  bool_decide (a_positive ai = []) && bool_decide (a_semi_positive ai = []).

Definition distractions (m : Manifest) : list key :=
  dict_keys (filter (λ p, is_distraction p.2 = true) (aerial m)).

(** "Remove distractions": [int((1 - p) * len(distractions))] of them,
    drawn by [sample]. *)
Definition remove_distractions (p : pyfloat) (s : St) : option St :=
  let ds := distractions s.1 in
  remove_count ← py_int (float_mul (float_one_minus p) (float_of_Z (Z.of_nat (length ds))));
  '(xs, r') ← py_sample s.2 ds remove_count;
  m' ← foldM (λ m x, remove_aerial_image x m) s.1 xs;
  Some (m', r').

(** "Remove ground images with less than 3 semi-positive aerial images". *)
Definition remove_few_semi_positives (m : Manifest) : option Manifest :=
  foldM (λ m k, remove_ground_image k m) m
    (dict_keys (filter (λ p, (length (g_semi_positive p.2) < 3)%nat) (ground m))).

(** The six passes, in the order of the script. *)
Inductive curation_pass :=
| RemoveDuplicates
| RemoveSpaces
| RemoveNonPanoramas
| CapPositives
| RemoveDistractions
| RemoveFewSemiPositives.

Definition lift (f : Manifest → option Manifest) (s : St) : option St :=
  m' ← f s.1; Some (m', s.2).

Definition run_pass (args : Args) (p : curation_pass) (s : St) : option St :=
  match p with
  | RemoveDuplicates => lift remove_duplicates s
  | RemoveSpaces => lift remove_spaces s
  | RemoveNonPanoramas => lift (remove_non_panoramas (panorama_aspect_ratio args)) s
  | CapPositives => cap_positives (max_positive_panoramas args) s
  | RemoveDistractions => remove_distractions (distraction_proportion args) s
  | RemoveFewSemiPositives => lift remove_few_semi_positives s
  end.

Definition curation_passes : list curation_pass :=
  [RemoveDuplicates; RemoveSpaces; RemoveNonPanoramas; CapPositives;
   RemoveDistractions; RemoveFewSemiPositives].

Definition curate (args : Args) (s : St) : option St :=
  foldM (λ s p, run_pass args p s) s curation_passes.

End Curator.

(** ** Episode identifiers *)

Definition is_digit (c : ascii) : bool :=
  (48 <=? nat_of_ascii c)%nat && (nat_of_ascii c <=? 57)%nat.

(** The pattern [_\d{4}_] matched at the head of [s]; the result is the
    match without its two underscores. *)
Definition sol_at (s : string) : option string :=
  match s with
  | String u1 (String d1 (String d2 (String d3 (String d4 (String u2 _))))) =>
      if Ascii.eqb u1 "_" && is_digit d1 && is_digit d2 && is_digit d3 && is_digit d4
         && Ascii.eqb u2 "_"
      then Some (String d1 (String d2 (String d3 (String d4 EmptyString))))
      else None
  | _ => None
  end.

(** [re.findall('_\d{4}_', s)[0][1:][:-1]]: the leftmost match, or the
    [IndexError] of the empty list. *)
Fixpoint first_sol (s : string) : option string :=
  match sol_at s with
  | Some d => Some d
  | None =>
      match s with
      | EmptyString => None
      | String _ s' => first_sol s'
      end
  end.

Definition digit_value (c : ascii) : Z := Z.of_nat (nat_of_ascii c) - 48.

(** [int(d)] on a string of digits. *)
Definition int_of_digits (d : string) : Z :=
  foldl (λ acc c, 10 * acc + digit_value c) 0 (list_ascii_of_string d).

Definition sol_num (ground_image : key) : option Z :=
  int_of_digits <$> first_sol ground_image.

(** [l[:n]], also for a negative [n]. *)
Definition slice_to {A} (n : Z) (l : list A) : list A :=
  if bool_decide (0 ≤ n) then take (Z.to_nat n) l
  else take (length l - Z.to_nat (- n)) l.

(** The second loop over the ground keys: each key goes to the train or
    to the test list, by its episode. *)
Fixpoint assign_by_sol (sols : list Z) (ks : list key) : option (list key * list key) :=
  match ks with
  | [] => Some ([], [])
  | k :: ks' =>
      n ← sol_num k;
      sets ← assign_by_sol sols ks';
      Some (if bool_decide (n ∈ sols) then (k :: sets.1, sets.2) else (sets.1, k :: sets.2))
  end.

Section Split.
Context {R : Type} `{RandomSource R}.

(** The episode-grouped split of [MK/Scripts/prepare-transgeo.py]. *)
Definition episode_split (train_proportion : pyfloat) (m : Manifest) (r : R)
  : option (list key * list key * R) :=
  sols ← mapM sol_num (dict_keys (ground m));
  let sols := elements (list_to_set sols : gset Z) in
  sols_in_training ←
    py_int (float_mul (float_of_Z (Z.of_nat (length sols))) train_proportion);
  let shuffled := shuffle r sols in
  let sols := slice_to sols_in_training shuffled.1 in
  sets ← assign_by_sol sols (dict_keys (ground m));
  Some (sets.1, sets.2, shuffled.2).

(** The image-level split of [BDAG/Scripts/prepare-transgeo.py];
    [on_disk] tells which ground images were found under the ground
    root. *)
Definition random_split (on_disk : key → bool) (train_proportion : pyfloat)
    (m : Manifest) (r : R) : option (gset key * gset key * R) :=
  let ground_images := filter (λ k, on_disk k = true) (dict_keys (ground m)) in
  n ← py_int (float_mul (float_of_Z (Z.of_nat (length ground_images))) train_proportion);
  drawn ← py_sample r ground_images n;
  let train_set : gset key := list_to_set drawn.1 in
  let test_set : gset key := list_to_set ground_images ∖ train_set in
  Some (train_set, test_set, drawn.2).

End Split.

(** ** Split files *)

Definition newline : string := String (ascii_of_nat 10) EmptyString.

(** A [StringIO]: the chunks written so far; [getvalue] joins them. *)
Definition getvalue (buf : list string) : string := foldr String.append "" buf.

Section SplitFiles.
(** [t_px lon lat]: the pixel [(col, row)] of a geodetic point in the
    raster, computed by the projection and raster libraries. *)
Variable t_px : pyval → pyval → Z * Z.

Definition ground_aerial_offset_px (lon_ground lat_ground lon_aerial lat_aerial : pyval)
  : Z * Z :=
  let px_ground := t_px lon_ground lat_ground in
  let px_aerial := t_px lon_aerial lat_aerial in
  (px_ground.1 - px_aerial.1, px_ground.2 - px_aerial.2).

Definition offset_to (gi : GroundItem) (ai : AerialItem) : Z * Z :=
  ground_aerial_offset_px (lon (location gi)) (lat (location gi))
                          (lon (center ai)) (lat (center ai)).

(** The inner loop: one semi-positive tile appended to the current line. *)
Definition write_semi_positive (m : Manifest) (gi : GroundItem)
    (buf : list string) (semi_positive_aerial : key) : option (list string) :=
  semi_positive_item ← dict_get semi_positive_aerial (aerial m);
  let offset_px := offset_to gi semi_positive_item in
  Some (buf ++ [" " +:+ path_name semi_positive_aerial +:+ " " +:+
                pretty offset_px.2 +:+ " " +:+ pretty offset_px.1]).

(** The body of the loop over the positive tiles, as in the test file of
    both scripts and in the train file of the BDAG script. *)
Definition write_positive (m : Manifest) (ground_name : string) (gi : GroundItem)
    (buf : list string) (positive_aerial : key) : option (list string) :=
  positive_item ← dict_get positive_aerial (aerial m);
  let offset_px := offset_to gi positive_item in
  let buf := buf ++ [ground_name +:+ " " +:+ path_name positive_aerial +:+ " " +:+
                     pretty offset_px.2 +:+ " " +:+ pretty offset_px.1] in
  buf ← foldM (write_semi_positive m gi) buf (take 3 (g_semi_positive gi));
  Some (buf ++ [newline]).

(** The same body in the train file of the MK script: with fewer than
    three semi-positives the iteration stops after the first write. *)
Definition write_positive_train (m : Manifest) (ground_name : string) (gi : GroundItem)
    (buf : list string) (positive_aerial : key) : option (list string) :=
  positive_item ← dict_get positive_aerial (aerial m);
  let offset_px := offset_to gi positive_item in
  let buf := buf ++ [ground_name +:+ " " +:+ path_name positive_aerial +:+ " " +:+
                     pretty offset_px.2 +:+ " " +:+ pretty offset_px.1] in
  if bool_decide (length (g_semi_positive gi) < 3)%nat then Some buf
  else
    buf ← foldM (write_semi_positive m gi) buf (take 3 (g_semi_positive gi));
    Some (buf ++ [newline]).

Definition write_ground
    (body : Manifest → string → GroundItem → list string → key → option (list string))
    (m : Manifest) (buf : list string) (ground_image : key) : option (list string) :=
  ground_item ← dict_get ground_image (ground m);
  foldM (body m (path_name ground_image) ground_item) buf (g_positive ground_item).

(** The text of a split file for the ground images of [set], in order. *)
Definition split_file (m : Manifest) (set : list key) : option string :=
  getvalue <$> foldM (write_ground write_positive m) [] set.

Definition split_file_train (m : Manifest) (set : list key) : option string :=
  getvalue <$> foldM (write_ground write_positive_train m) [] set.

(** *** The record format, piece by piece *)

(** [<name> <offset_row> <offset_col>] for one aerial tile. *)
Definition tile_with_offset (m : Manifest) (gi : GroundItem) (a : key) : option string :=
  ai ← dict_get a (aerial m);
  let pixel_ground := t_px (lon (location gi)) (lat (location gi)) in
  let pixel_center := t_px (lon (center ai)) (lat (center ai)) in
  let offset_row := pixel_ground.2 - pixel_center.2 in
  let offset_col := pixel_ground.1 - pixel_center.1 in
  Some (path_name a +:+ " " +:+ pretty offset_row +:+ " " +:+ pretty offset_col).

(** One correspondence line: the ground name, a positive tile, then the
    first three semi-positive tiles at most. *)
Definition correspondence_line (m : Manifest) (g : key) (gi : GroundItem) (a : key)
  : option string :=
  positive ← tile_with_offset m gi a;
  semis ← mapM (tile_with_offset m gi) (take 3 (g_semi_positive gi));
  Some (path_name g +:+ " " +:+ positive +:+
        getvalue ((λ s, " " +:+ s) <$> semis) +:+ newline).

(** The lines of one ground image: one for each of its positive tiles. *)
Definition correspondence_lines (m : Manifest) (g : key) : option (list string) :=
  gi ← dict_get g (ground m);
  mapM (correspondence_line m g gi) (g_positive gi).

End SplitFiles.

(** ** The MK script, end to end *)

Section Script.
Context {R : Type} `{RandomSource R}.
Variable t_px : pyval → pyval → Z * Z.

(** The MK script after startup: curation, the episode split, the two
    split files. The archive itself is left out. *)
Definition prepare_transgeo_mk (args : Args) (m : Manifest) (r : R)
  : option (string * string * Manifest) :=
  args ← startup args;
  s ← curate args (m, r);
  sets ← episode_split (train_proportion args) s.1 s.2;
  train_text ← split_file_train t_px s.1 sets.1.1;
  test_text ← split_file t_px s.1 sets.1.2;
  Some (train_text, test_text, s.1).

End Script.

(** ** Labels: the file-name grammars of [image-manifest.py] *)

(** The greedy [\d*] at the head of [s], and what follows. *)
Fixpoint span_digits (s : string) : string * string :=
  match s with
  | EmptyString => (EmptyString, EmptyString)
  | String c s' =>
      if is_digit c then (String c (span_digits s').1, (span_digits s').2)
      else (EmptyString, s)
  end.

(** [\d+] *)
Definition match_digits (s : string) : option (string * string) :=
  let ds := span_digits s in
  if decide (ds.1 = EmptyString) then None else Some ds.

(** A literal prefix. *)
Fixpoint match_prefix (lit s : string) : option string :=
  match lit, s with
  | EmptyString, _ => Some s
  | String c lit', String c' s' => if Ascii.eqb c c' then match_prefix lit' s' else None
  | String _ _, EmptyString => None
  end.

Arguments match_prefix : simpl never.

(** [-?\d+\.\d+]: the text matched and what follows. The classes of two
    neighbouring pieces are disjoint, so the greedy match is the only
    one. *)
Definition match_float (s : string) : option (string * string) :=
  let signed :=
    match match_prefix "-" s with
    | Some s' => ("-", s')
    | None => (EmptyString, s)
    end in
  int_part ← match_digits signed.2;
  s ← match_prefix "." int_part.2;
  frac_part ← match_digits s;
  Some (signed.1 +:+ int_part.1 +:+ "." +:+ frac_part.1, frac_part.2).

(** A run of groups [_(?P<name>-?\d+\.\d+)]; the groups are strings. *)
Fixpoint match_groups (names : list string) (s : string)
  : option (dict pyval * string) :=
  match names with
  | [] => Some ([], s)
  | name :: names' =>
      s ← match_prefix "_" s;
      field ← match_float s;
      more ← match_groups names' field.2;
      Some ((name, PyStr field.1) :: more.1, more.2)
  end.

Definition aerial_groups : list string :=
  ["center_lon"; "center_lat"; "min_pos_lon"; "max_pos_lat"; "max_pos_lon";
   "min_pos_lat"; "min_semi_lon"; "max_semi_lat"; "max_semi_lon"; "min_semi_lat"].

(** [re.match] of a tile grammar, [(?P<id>\d+)] followed by the groups
    and [\.png], and [match.groupdict()]. The match is anchored at the
    start of the name only. *)
Definition label_match (id_group : string) (groups : list string) (name : string)
  : option (dict pyval) :=
  tile_id ← match_digits name;
  fields ← match_groups groups tile_id.2;
  _ ← match_prefix ".png" fields.2;
  Some ((id_group, PyStr tile_id.1) :: fields.1).

(** [aerial_label_re] of [image-manifest.py]. *)
Definition aerial_label_match : string → option (dict pyval) :=
  label_match "id" aerial_groups.

(** [aerial_label_re] of [image_correspondinator.py]. *)
Definition tile_label_match : string → option (dict pyval) :=
  label_match "tile_id" ["min_lat"; "max_lat"; "min_lon"; "max_lon"].

(** [.*\.png]: the text [.png] somewhere before the end of the line. *)
Fixpoint match_any_then_png (s : string) : bool :=
  match match_prefix ".png" s with
  | Some _ => true
  | None =>
      match s with
      | EmptyString => false
      | String c s' => if Ascii.eqb c (ascii_of_nat 10) then false else match_any_then_png s'
      end
  end.

(** [ground_label_re.match(name)] and [match.groupdict()]. *)
Definition ground_label_match (name : string) : option (dict pyval) :=
  s ← match_prefix "LAT_" name;
  lat_part ← match_float s;
  s ← match_prefix "LONG_" lat_part.2;
  lon_part ← match_float s;
  if match_any_then_png lon_part.2
  then Some [("lat", PyStr lat_part.1); ("lon", PyStr lon_part.1)]
  else None.

(** [groups[name]] *)
Definition group (groups : dict pyval) (name : string) : pyval :=
  default (PyStr EmptyString) (dict_get name groups).

(** ** The manifest builder *)

(** An image found by a [glob]: its path relative to the root and the
    size read from the file. *)
Record ImageFile := mkImageFile { rel_path : key; image_size : Size }.

(** One iteration of the loop over the aerial images; a name that does
    not match is reported and skipped. *)
Definition add_aerial_image (m : Manifest) (f : ImageFile) : Manifest :=
  match aerial_label_match (path_name (rel_path f)) with
  | None => m
  | Some groups =>
      let aerial_item :=
        mkAerial (group groups "id") (image_size f)
          (mkLonLat (group groups "center_lon") (group groups "center_lat"))
          (mkLonLat (group groups "min_pos_lon") (group groups "max_pos_lat"),
           mkLonLat (group groups "max_pos_lon") (group groups "min_pos_lat"))
          (mkLonLat (group groups "min_semi_lon") (group groups "max_semi_lat"),
           mkLonLat (group groups "max_semi_lon") (group groups "min_semi_lat"))
          [] [] in
      mkManifest (dict_set (rel_path f) aerial_item (aerial m)) (ground m)
  end.

(** [is_positive] and [is_semi_positive]: each boundary is the pair of
    its (min lon, max lat) and (max lon, min lat) corners. *)
Definition within (boundary : LonLat * LonLat) (p : LonLat) : option bool :=
  c ← py_between (lon boundary.1) (lon p) (lon boundary.2);
  if c : bool then py_between (lat boundary.2) (lat p) (lat boundary.1) else Some false.

Definition is_positive (ground_item : GroundItem) (aerial_item : AerialItem) : option bool :=
  within (positive_boundary aerial_item) (location ground_item).

Definition is_semi_positive (ground_item : GroundItem) (aerial_item : AerialItem)
  : option bool :=
  within (semi_positive_boundary aerial_item) (location ground_item).

Inductive Relation := Positive | SemiPositive | Unrelated.

(** The [if ... elif ...] of the matching loop. *)
Definition classify (ground_item : GroundItem) (aerial_item : AerialItem) : option Relation :=
  p ← is_positive ground_item aerial_item;
  if p : bool then Some Positive
  else
    s ← is_semi_positive ground_item aerial_item;
    Some (if s : bool then SemiPositive else Unrelated).

(** The loop "Find positive and semi-positive images" for one ground
    image: both ends of every edge are appended in the same iteration. *)
Fixpoint link (ground_key : key) (gi : GroundItem) (aerials : dict AerialItem)
  : option (dict AerialItem * GroundItem) :=
  match aerials with
  | [] => Some ([], gi)
  | (k, ai) :: rest =>
      c ← classify gi ai;
      let linked :=
        match c with
        | Positive =>
            (set_a_positive (a_positive ai ++ [ground_key]) ai,
             set_g_positive (g_positive gi ++ [k]) gi)
        | SemiPositive =>
            (set_a_semi_positive (a_semi_positive ai ++ [ground_key]) ai,
             set_g_semi_positive (g_semi_positive gi ++ [k]) gi)
        | Unrelated => (ai, gi)
        end in
      more ← link ground_key linked.2 rest;
      Some ((k, linked.1) :: more.1, more.2)
  end.

(** One iteration of the loop over the ground images. *)
Definition add_ground_image (m : Manifest) (f : ImageFile) : option Manifest :=
  match ground_label_match (path_name (rel_path f)) with
  | None => Some m
  | Some groups =>
      let ground_item :=
        mkGround (image_size f) (mkLonLat (group groups "lon") (group groups "lat")) [] [] in
      linked ← link (rel_path f) ground_item (aerial m);
      Some (mkManifest linked.1 (dict_set (rel_path f) linked.2 (ground m)))
  end.

(** [image-manifest.py]: the aerial images first, then the ground images. *)
Definition build (aerial_images ground_images : list ImageFile) : option Manifest :=
  foldM add_ground_image (foldl add_aerial_image (mkManifest [] []) aerial_images)
        ground_images.

(** ** The builder with its reports: [BDAG/Scripts/image-manifest.py] *)

(** The ground loop reports a name that does not match through
    [aerial_image_path], the variable of the aerial loop. After that loop
    the variable holds the last image of the aerial directory; it is
    unbound, and reading it raises a [NameError], when the directory
    holds no image. *)
Definition add_ground_image_reported (aerial_image_path : option ImageFile)
    (m : Manifest) (f : ImageFile) : option Manifest :=
  match ground_label_match (path_name (rel_path f)) with
  | None => _ ← aerial_image_path; Some m
  | Some _ => add_ground_image m f
  end.

(** The script, from the two listings to the manifest it dumps. *)
Definition image_manifest (aerial_images ground_images : list ImageFile) : option Manifest :=
  let aerial_image_path := last aerial_images in
  foldM (add_ground_image_reported aerial_image_path)
        (foldl add_aerial_image (mkManifest [] []) aerial_images)
        ground_images.

(** ** The curation of [BDAG/Scripts/prepare-transgeo.py] *)

Section CuratorBDAG.
Context {R : Type} `{RandomSource R}.

(** One iteration of "Enforce maximum panoramas per aerial" as the BDAG
    script has it: the test is [len(aerial_item["positive"]) >
    args.max_positive_panoramas] alone. *)
Definition cap_tile_bdag (max : Z) (s : St) (aerial_key : key) : option St :=
  ai ← dict_get aerial_key (aerial s.1);
  if bool_decide (max < Z.of_nat (length (a_positive ai))) then
    '(panorama_sample, r') ← py_sample s.2 (a_positive ai) max;
    m' ← foldM (λ m leftover, remove_ground_image leftover m) s.1
               (filter (λ x, x ∉ panorama_sample) (a_positive ai));
    Some (mkManifest
            (dict_alter (set_a_positive panorama_sample) aerial_key (aerial m'))
            (ground m'), r')
  else Some s.

Definition cap_positives_bdag (max : Z) (s : St) : option St :=
  foldM (cap_tile_bdag max) s (dict_keys (aerial s.1)).


End CuratorBDAG.

(** ** Waypoint groups: [BDAG/Scripts/waypoint_grouper.py] *)

(** A feature of the waypoints file, through its ["properties"] object. *)
Record Waypoint := mkWaypoint { properties : dict pyval }.

Section WaypointGrouper.
(** [float(s)] on a string: the parser of the interpreter. *)
Variable float_of_str : string → option pyfloat.

(** [float(v)] *)
Definition py_float (v : pyval) : option pyfloat :=
  match v with
  | PyStr s => float_of_str s
  | PyInt z => Some (float_of_Z z)
  | PyFloat x => Some x
  end.

(** [dist_m = lambda w: float(w['properties']['dist_m'])] *)
Definition dist_m (w : Waypoint) : option pyfloat :=
  v ← dict_get "dist_m" (properties w); py_float v.

(** The body of the grouping loop, on [(groups, current_group)]. The
    distance of a waypoint is read only when the current group is not
    empty. *)
Definition group_waypoint (threshold : pyfloat)
    (s : list (list Waypoint) * list Waypoint) (waypoint : Waypoint)
  : option (list (list Waypoint) * list Waypoint) :=
  match s.2 with
  | [] => Some (s.1, [waypoint])
  | _ :: _ =>
      d ← dist_m waypoint;
      if float_le d threshold then Some (s.1, s.2 ++ [waypoint])
      else Some (s.1 ++ [s.2], [waypoint])
  end.

(** The loop; after it the script reads [groups] only. *)
Definition collect_groups (threshold : pyfloat) (waypoints : list Waypoint)
  : option (list (list Waypoint) * list Waypoint) :=
  foldM (group_waypoint threshold) ([], []) waypoints.

End WaypointGrouper.

(** [sorted(l, key=len)]: ascending, and stable as Python's sort is. *)
Fixpoint insert_by_len {A} (x : list A) (l : list (list A)) : list (list A) :=
  match l with
  | [] => [x]
  | y :: l' => if (length x <=? length y)%nat then x :: l else y :: insert_by_len x l'
  end.

Definition sorted_by_len {A} (l : list (list A)) : list (list A) :=
  foldr insert_by_len [] l.

(** One entry of the summary: [len(x)] and the sols of [x[0]] and
    [x[-1]]. *)
Record GroupSummary := mkGroupSummary { count : nat; sol_range : pyval * pyval }.

Definition summarize (x : list Waypoint) : option GroupSummary :=
  first ← head x;
  sol_first ← dict_get "sol" (properties first);
  final ← last x;
  sol_final ← dict_get "sol" (properties final);
  Some (mkGroupSummary (length x) (sol_first, sol_final)).

Section WaypointGroups.
Variable float_of_str : string → option pyfloat.

(** "Sort groups by size in descending order (largest group first)":
    [list(reversed(sorted(groups, key=len)))]. *)
Definition waypoint_groups (threshold : pyfloat) (waypoints : list Waypoint)
  : option (list (list Waypoint)) :=
  s ← collect_groups float_of_str threshold waypoints;
  Some (reverse (sorted_by_len s.1)).

(** What the script prints with [--summary]. *)
Definition groups_summary (threshold : pyfloat) (waypoints : list Waypoint)
  : option (list GroupSummary) :=
  groups ← waypoint_groups threshold waypoints;
  mapM summarize groups.

End WaypointGroups.

(** ** Correspondences: [BDAG/Scripts/image_correspondinator.py] *)

(** [ground_label_re]: [(?P<lat>-?\d+\.\d+)_(?P<lon>-?\d+\.\d+)_.*\.png]. *)
Definition located_label_match (name : string) : option (dict pyval) :=
  lat_part ← match_float name;
  s ← match_prefix "_" lat_part.2;
  lon_part ← match_float s;
  s ← match_prefix "_" lon_part.2;
  if match_any_then_png s
  then Some [("lat", PyStr lat_part.1); ("lon", PyStr lon_part.1)]
  else None.

(** [size_re.match(size)], for [\d+x\d+]. *)
Definition size_match (size : string) : bool :=
  match match_digits size with
  | Some width =>
      match match_prefix "x" width.2 with
      | Some s => bool_decide (is_Some (match_digits s))
      | None => false
      end
  | None => false
  end.

(** [Path(k).parts] for a relative path. *)
Fixpoint path_parts_from (acc : string) (s : string) : list string :=
  match s with
  | EmptyString => [acc]
  | String c s' =>
      if Ascii.eqb c "/"%char then acc :: path_parts_from EmptyString s'
      else path_parts_from (acc ++ String c EmptyString) s'
  end.

Definition path_parts (k : key) : list string := path_parts_from EmptyString k.

(** [parts[-2]], with its [IndexError]. *)
Definition parent_part (k : key) : option string :=
  let parts := path_parts k in
  if bool_decide (2 ≤ length parts)%nat then parts !! (length parts - 2)%nat else None.

(** What the script keeps of a ground image: the groups of its label and
    the name of the directory it lies in. *)
Record GroundLabel := mkGroundLabel {
  label_lat : pyval;
  label_lon : pyval;
  label_size : string
}.

(** The loop "Get labelled aerial images". *)
Definition collect_aerial_labels (paths : list key) : dict (dict pyval) :=
  foldl (λ aerial_images aerial_image_path,
           match tile_label_match (path_name aerial_image_path) with
           | Some groups => dict_set aerial_image_path groups aerial_images
           | None => aerial_images
           end) [] paths.

(** One iteration of the loop "Get labelled ground images". *)
Definition collect_ground_label (ground_images : dict GroundLabel) (ground_image_path : key)
  : option (dict GroundLabel) :=
  size ← parent_part ground_image_path;
  if size_match size then
    match located_label_match (path_name ground_image_path) with
    | Some groups =>
        Some (dict_set ground_image_path
                (mkGroundLabel (group groups "lat") (group groups "lon") size)
                ground_images)
    | None => Some ground_images
    end
  else Some ground_images.

Definition collect_ground_labels (paths : list key) : option (dict GroundLabel) :=
  foldM collect_ground_label [] paths.

(** "Images correspond if ground lon, lat coordinates are within aerial
    coordinates". *)
Definition check_image_correspondence (ground : GroundLabel) (aerial : dict pyval)
  : option bool :=
  c ← py_between (group aerial "min_lon") (label_lon ground) (group aerial "max_lon");
  if c : bool
  then py_between (group aerial "min_lat") (label_lat ground) (group aerial "max_lat")
  else Some false.

(** The entry of one tile in the output. *)
Record TileCorrespondence := mkTileCorrespondence {
  c_tile_id : pyval;
  c_size : string;
  c_min_lon : pyval;
  c_max_lon : pyval;
  c_min_lat : pyval;
  c_max_lat : pyval;
  c_ground_images : dict (dict LonLat)
}.

(** [d[k]] on a [defaultdict], followed by an update of the value. *)
Definition dict_update {V} (k : key) (fresh : V) (f : V → V) (d : dict V) : dict V :=
  dict_set k (f (default fresh (dict_get k d))) d.

(** The body of the loop over the ground images: the two assignments
    under [ground-images][size][path]; the second one stores the
    longitude again. *)
Definition record_ground_image (aerial_image_values : dict pyval)
    (by_size : dict (dict LonLat)) (ground : key * GroundLabel)
  : option (dict (dict LonLat)) :=
  c ← check_image_correspondence ground.2 aerial_image_values;
  if c : bool then
    let entry := mkLonLat (label_lon ground.2) (label_lon ground.2) in
    Some (dict_update (label_size ground.2) [] (dict_set ground.1 entry) by_size)
  else Some by_size.

(** The body of the loop over the aerial images. *)
Definition correlate_tile (ground_images : dict GroundLabel)
    (image_correspondences : dict TileCorrespondence) (aerial : key * dict pyval)
  : option (dict TileCorrespondence) :=
  by_size ← foldM (record_ground_image aerial.2) [] ground_images;
  Some (dict_set aerial.1
          (mkTileCorrespondence (group aerial.2 "tile_id") "640x640"
             (group aerial.2 "min_lon") (group aerial.2 "max_lon")
             (group aerial.2 "min_lat") (group aerial.2 "max_lat") by_size)
          image_correspondences).

(** The script, from the two listings to the object it dumps. *)
Definition image_correspondences (aerial_paths ground_paths : list key)
  : option (dict TileCorrespondence) :=
  let aerial_images := collect_aerial_labels aerial_paths in
  ground_images ← collect_ground_labels ground_paths;
  foldM (correlate_tile ground_images) [] aerial_images.

(** ** Time stamps in file names: [rename_images.py] *)

(** [s[:-n]] and [s[-n:]] for a positive [n]. *)
Definition drop_last (n : nat) (s : string) : string :=
  let l := list_ascii_of_string s in
  string_of_list_ascii (take (length l - n) l).

Definition take_last (n : nat) (s : string) : string :=
  let l := list_ascii_of_string s in
  string_of_list_ascii (drop (length l - n) l).

(** [\d{n}] matched at the head of [s]. *)
Fixpoint digits_at (n : nat) (s : string) : option string :=
  match n with
  | O => Some EmptyString
  | S n' =>
      match s with
      | String c s' => if is_digit c then String c <$> digits_at n' s' else None
      | EmptyString => None
      end
  end.

(** The first element of [re.findall('(\d{n})', s)], if there is one. *)
Fixpoint first_digits (n : nat) (s : string) : option string :=
  match digits_at n s with
  | Some d => Some d
  | None =>
      match s with
      | EmptyString => None
      | String _ s' => first_digits n s'
      end
  end.

Definition directory : string := "M2020_Street_View_Images_May14/".

Section RenameImages.
(** The [DATE2] field of the answer of the time conversion service for a
    spacecraft clock string; [None] when the request or the
    concatenation that follows raises. *)
Variable utc_of : string → option string.

(** One iteration of the loop: the new name of the file, if the file is
    renamed. *)
Definition rename_image (filename : string) : option (option string) :=
  let img_name := filename in
  let img_name := drop_last 4 img_name in
  if decide (take_last 3 img_name = "UTC") then Some None
  else
    match first_digits 10 filename with
    | Some sclk_time =>
        utc ← utc_of sclk_time;
        Some (Some (img_name +:+ "_" +:+ utc +:+ ".png"))
    | None => Some None
    end.

(** The body of the loop, on the calls of [os.rename] made so far. *)
Definition rename_step (renames : list (string * string)) (filename : string)
  : option (list (string * string)) :=
  new_name ← rename_image filename;
  Some (match new_name with
        | Some name => renames ++ [(directory +:+ filename, directory +:+ name)]
        | None => renames
        end).

(** The loop over the listing: the calls of [os.rename], in order. *)
Definition rename_images (listing : list string) : option (list (string * string)) :=
  foldM rename_step [] listing.

(** The names in the directory after a run, collisions left aside. *)
Definition after_renames (listing : list string) : list string :=
  (λ filename, default filename (mjoin (rename_image filename))) <$> listing.

End RenameImages.

(** ** Tiles around the waypoints: [BDAG/Scripts/aerial_image_extractor.py] *)

(** A value of a numpy [int64] array: the result of an operation is
    reduced into the 64-bit range. *)
Definition int64 (z : Z) : Z := (z + 2 ^ 63) `mod` 2 ^ 64 - 2 ^ 63.

(** [a / b] for a numpy integer [a]: a float, infinite or a NaN when [b]
    is 0. *)
Definition np_true_divide (a b : Z) : pyfloat :=
  if decide (b = 0) then
    if decide (0 < a) then PInf else if decide (a < 0) then NInf else NaN
  else Fin (inject_Z a / inject_Z b)%Q.

(** [math.ceil(x)], with its errors on an infinity and on a NaN. *)
Definition py_ceil (x : pyfloat) : option Z :=
  match x with
  | Fin q => Some (Qceiling q)
  | _ => None
  end.

(** "Round pixel coordinate ranges to even multiple of window spacing and
    re-center": [x] is the row [[x[0, 0], x[0, 1]]] of the array. *)
Definition round_and_center (tile_spacing : Z) (x : Z * Z) : option (Z * Z) :=
  steps ← py_ceil (np_true_divide (int64 (x.2 - x.1)) tile_spacing);
  let size := steps * tile_spacing in
  let difference := int64 (size - int64 (x.2 - x.1)) in
  let x := (x.1, int64 (x.1 + size)) in
  let shift := int64 (difference `div` 2) in
  Some (int64 (x.1 - shift), int64 (x.2 - shift)).

(** [np.arange(start, stop, step)] on integers. *)
Definition np_arange (start stop step : Z) : option (list Z) :=
  if decide (step = 0) then None
  else
    let count :=
      if decide (0 < step) then (stop - start + step - 1) `div` step
      else (start - stop - step - 1) `div` (- step) in
    Some ((λ i : nat, int64 (start + Z.of_nat i * step)) <$> seq 0 (Z.to_nat count)).

(** The test of the saving loop for the tile at [(x, y)] and a waypoint
    pixel [(col, row)]. *)
Definition in_tile (tile_size : Z) (x y : Z) (w : Z * Z) : bool :=
  ((x <=? w.1) && (w.1 <? int64 (x + tile_size))) &&
  ((y <=? w.2) && (w.2 <? int64 (y + tile_size))).

(** The tiles the script saves, each with its index in the flattened
    grid, from the two pixel ranges of the waypoints and the pixels of
    the waypoints. *)
Definition saved_tiles (tile_size : Z) (col_range row_range : Z * Z)
    (waypoints_px : list (Z * Z)) : option (list (nat * (Z * Z))) :=
  let tile_spacing := tile_size `div` 2 in
  col_range ← round_and_center tile_spacing col_range;
  row_range ← round_and_center tile_spacing row_range;
  tile_cols ← np_arange col_range.1 col_range.2 tile_spacing;
  tile_rows ← np_arange row_range.1 row_range.2 tile_spacing;
  let grid := y ← tile_rows; x ← tile_cols; [(x, y)] in
  Some (filter (λ v : nat * (Z * Z),
                  existsb (in_tile tile_size v.2.1 v.2.2) waypoints_px = true)
               (imap pair grid)).

(** * Part II. The properties *)

(** ** The invariant of the correspondence graph *)

(** Bidirectional consistency: an edge is recorded at both of its ends, in
    the list of the same kind, and never in both kinds. *)
Definition consistent (m : Manifest) : Prop :=
  ∀ g gi a ai,
    dict_get g (ground m) = Some gi →
    dict_get a (aerial m) = Some ai →
    (g ∈ a_positive ai ↔ a ∈ g_positive gi) ∧
    (g ∈ a_semi_positive ai ↔ a ∈ g_semi_positive gi) ∧
    ¬ (g ∈ a_positive ai ∧ g ∈ a_semi_positive ai).

(** The keys of a dictionary are distinct. *)
Definition keys_nodup (m : Manifest) : Prop :=
  NoDup (dict_keys (aerial m)) ∧ NoDup (dict_keys (ground m)).

(** No edge list holds a key twice. *)
Definition edges_nodup (m : Manifest) : Prop :=
  (∀ a ai, (a, ai) ∈ aerial m → NoDup (a_positive ai) ∧ NoDup (a_semi_positive ai)) ∧
  (∀ g gi, (g, gi) ∈ ground m → NoDup (g_positive gi) ∧ NoDup (g_semi_positive gi)).

(** Every key of an edge list is a key of the manifest. *)
Definition closed (m : Manifest) : Prop :=
  (∀ a ai g, (a, ai) ∈ aerial m → g ∈ a_positive ai ∨ g ∈ a_semi_positive ai →
             g ∈ dict_keys (ground m)) ∧
  (∀ g gi a, (g, gi) ∈ ground m → a ∈ g_positive gi ∨ a ∈ g_semi_positive gi →
             a ∈ dict_keys (aerial m)).

(** A well-formed manifest: what the manifest builder writes. *)
Definition wf (m : Manifest) : Prop :=
  keys_nodup m ∧ consistent m ∧ edges_nodup m ∧ closed m.

(** ** Checking a concrete manifest *)

Definition pair_consistent (p : key * GroundItem) (q : key * AerialItem) : Prop :=
  (p.1 ∈ a_positive q.2 ↔ q.1 ∈ g_positive p.2) ∧
  (p.1 ∈ a_semi_positive q.2 ↔ q.1 ∈ g_semi_positive p.2) ∧
  ¬ (p.1 ∈ a_positive q.2 ∧ p.1 ∈ a_semi_positive q.2).

Definition wf_check (m : Manifest) : Prop :=
  (NoDup (dict_keys (aerial m)) ∧ NoDup (dict_keys (ground m))) ∧
  Forall (λ p, Forall (pair_consistent p) (aerial m)) (ground m) ∧
  (Forall (λ q, NoDup (a_positive q.2) ∧ NoDup (a_semi_positive q.2)) (aerial m) ∧
   Forall (λ p, NoDup (g_positive p.2) ∧ NoDup (g_semi_positive p.2)) (ground m)) ∧
  (Forall (λ q, Forall (λ g, g ∈ dict_keys (ground m))
                  (a_positive q.2 ++ a_semi_positive q.2)) (aerial m) ∧
   Forall (λ p, Forall (λ a, a ∈ dict_keys (aerial m))
                  (g_positive p.2 ++ g_semi_positive p.2)) (ground m)).

Global Instance pair_consistent_dec p q : Decision (pair_consistent p q).
Proof. unfold pair_consistent. apply _. Defined.

Global Instance wf_check_dec m : Decision (wf_check m).
Proof. unfold wf_check. apply _. Defined.

(** ** Pruning a node *)

(** The ground key [g] is gone: no entry, and no aerial list names it. *)
Definition ground_scrubbed (g : key) (m : Manifest) : Prop :=
  dict_get g (ground m) = None ∧
  ∀ a ai, dict_get a (aerial m) = Some ai →
          (g ∉ a_positive ai) ∧ (g ∉ a_semi_positive ai).

(** The aerial key [a] is gone: no entry, and no ground list names it. *)
Definition aerial_scrubbed (a : key) (m : Manifest) : Prop :=
  dict_get a (aerial m) = None ∧
  ∀ g gi, dict_get g (ground m) = Some gi →
          (a ∉ g_positive gi) ∧ (a ∉ g_semi_positive gi).

(** ** Startup: the two proportions *)

Definition out_of_range (p : pyfloat) : Prop :=
  float_lt p (Fin 0%Q) = true ∨ float_lt (Fin 1%Q) p = true.

(** What [max(min(p, 1.0), 0)] makes of a float. *)
Inductive clamped : pyfloat → pyfloat → Prop :=
| clamped_inside q : (0 <= q)%Q → (q <= 1)%Q → clamped (Fin q) (Fin q)
| clamped_above q : (1 < q)%Q → clamped (Fin q) (Fin 1%Q)
| clamped_below q : (q < 0)%Q → clamped (Fin q) (Fin 0%Q)
| clamped_pinf : clamped PInf (Fin 1%Q)
| clamped_ninf : clamped NInf (Fin 0%Q)
| clamped_nan : clamped NaN NaN.

(** ** Runs and the state of the generator *)

(** No tile has more positives than the maximum. *)
Definition within_cap (max : Z) (m : Manifest) : Prop :=
  ∀ a ai, (a, ai) ∈ aerial m → Z.of_nat (length (a_positive ai)) ≤ max.

(** ** Split files and episodes *)

(** Every ground image of [set] has three semi-positive tiles at least,
    as the last curation pass of the MK script leaves them. *)
Definition enough_semi_positives (m : Manifest) (set : list key) : Prop :=
  ∀ g gi, g ∈ set → dict_get g (ground m) = Some gi →
          (3 ≤ length (g_semi_positive gi))%nat.

(** The key holds four digits between two underscores. *)
Definition has_sol_segment (s : string) : Prop :=
  ∃ pre d1 d2 d3 d4 post,
    s = pre +:+ String "_" (String d1 (String d2 (String d3 (String d4 (String "_" post)))))
    ∧ is_digit d1 = true ∧ is_digit d2 = true ∧ is_digit d3 = true ∧ is_digit d4 = true.

Fixpoint line_count (s : string) : nat :=
  match s with
  | EmptyString => 0
  | String c s' => (if Ascii.eqb c (ascii_of_nat 10) then 1 else 0) + line_count s'
  end.

(** ** Containment: the reference and the code *)

(** The number a field stands for: the decimal a label string spells, or
    the number itself. *)
Definition number_of (v : pyval) : option Q :=
  match v with
  | PyStr s =>
      let signed :=
        match match_prefix "-" s with
        | Some s' => (true, s')
        | None => (false, s)
        end in
      int_part ← match_digits signed.2;
      s ← match_prefix "." int_part.2;
      frac_part ← match_digits s;
      if decide (frac_part.2 = EmptyString) then
        let magnitude :=
          Qmake (int_of_digits (int_part.1 +:+ frac_part.1))
                (Z.to_pos (10 ^ Z.of_nat (String.length frac_part.1))) in
        Some (if signed.1 : bool then - magnitude else magnitude)%Q
      else None
  | PyInt z => Some (inject_Z z)
  | PyFloat (Fin q) => Some q
  | PyFloat _ => None
  end.

(** The point lies in the rectangle, borders included. *)
Definition in_rectangle (boundary : LonLat * LonLat) (p : LonLat) : option bool :=
  min_lon ← number_of (lon boundary.1);
  max_lon ← number_of (lon boundary.2);
  min_lat ← number_of (lat boundary.2);
  max_lat ← number_of (lat boundary.1);
  x ← number_of (lon p);
  y ← number_of (lat p);
  Some (Qle_bool min_lon x && Qle_bool x max_lon && Qle_bool min_lat y && Qle_bool y max_lat).

(** The classification in the words of the specification: positive
    inside the positive boundary, else semi-positive inside the
    semi-positive boundary, else unrelated. *)
Definition reference_classify (gi : GroundItem) (ai : AerialItem) : option Relation :=
  p ← in_rectangle (positive_boundary ai) (location gi);
  s ← in_rectangle (semi_positive_boundary ai) (location gi);
  Some (if p : bool then Positive else if s : bool then SemiPositive else Unrelated).

(** ** The builder, link by link *)

Global Instance Relation_eq_dec : EqDecision Relation.
Proof. solve_decision. Defined.

(** What the matching loop does to a tile of relation [c]. *)
Definition linked_tile (g : key) (c : Relation) (ai : AerialItem) : AerialItem :=
  match c with
  | Positive => set_a_positive (a_positive ai ++ [g]) ai
  | SemiPositive => set_a_semi_positive (a_semi_positive ai ++ [g]) ai
  | Unrelated => ai
  end.

Definition relation_of (gi : GroundItem) (p : key * AerialItem) : Relation :=
  default Unrelated (classify gi p.2).

Definition is_str (v : pyval) : Prop := ∃ s, v = PyStr s.

Definition str_point (p : LonLat) : Prop := is_str (lon p) ∧ is_str (lat p).

(** The boundaries of a tile are label strings. *)
Definition str_tile (ai : AerialItem) : Prop :=
  (str_point (positive_boundary ai).1 ∧ str_point (positive_boundary ai).2) ∧
  (str_point (semi_positive_boundary ai).1 ∧ str_point (semi_positive_boundary ai).2).

(** ** Manifests the curation runs on *)

(** No ground image has height 0. *)
Definition heights_ok (m : Manifest) : Prop :=
  ∀ g gi, (g, gi) ∈ ground m → h (g_size gi) ≠ 0.

Definition curable (m : Manifest) : Prop := wf m ∧ heights_ok m.

(** ** What a curation leaves of a manifest *)

(** The item is the old one with edges taken away. The positives of a
    tile may come back from [sample] in another order. *)
Definition aerial_item_shrinks (ai ai' : AerialItem) : Prop :=
  a_id ai' = a_id ai ∧ a_size ai' = a_size ai ∧ center ai' = center ai ∧
  positive_boundary ai' = positive_boundary ai ∧
  semi_positive_boundary ai' = semi_positive_boundary ai ∧
  a_positive ai' ⊆+ a_positive ai ∧
  a_semi_positive ai' `sublist_of` a_semi_positive ai.

Definition ground_item_shrinks (gi gi' : GroundItem) : Prop :=
  g_size gi' = g_size gi ∧ location gi' = location gi ∧
  g_positive gi' `sublist_of` g_positive gi ∧
  g_semi_positive gi' `sublist_of` g_semi_positive gi.

(** [m'] is [m] with images and edges taken away, and nothing else
    changed. *)
Definition shrinks (m m' : Manifest) : Prop :=
  dict_keys (aerial m') `sublist_of` dict_keys (aerial m) ∧
  dict_keys (ground m') `sublist_of` dict_keys (ground m) ∧
  (∀ a ai', dict_get a (aerial m') = Some ai' →
            ∃ ai, dict_get a (aerial m) = Some ai ∧ aerial_item_shrinks ai ai') ∧
  (∀ g gi', dict_get g (ground m') = Some gi' →
            ∃ gi, dict_get g (ground m) = Some gi ∧ ground_item_shrinks gi gi').

(** The tiles of [done] have no more positives than the maximum. *)
Definition capped (max : Z) (done : list key) (m : Manifest) : Prop :=
  ∀ a ai, a ∈ done → dict_get a (aerial m) = Some ai →
          Z.of_nat (length (a_positive ai)) ≤ max.



(** ** Runs of waypoints *)

(** The waypoint lies within the threshold of its predecessor, or beyond
    it. *)
Definition close_to_previous (float_of_str : string → option pyfloat)
    (threshold : pyfloat) (w : Waypoint) : Prop :=
  ∃ d, dist_m float_of_str w = Some d ∧ float_le d threshold = true.

Definition far_from_previous (float_of_str : string → option pyfloat)
    (threshold : pyfloat) (w : Waypoint) : Prop :=
  ∃ d, dist_m float_of_str w = Some d ∧ float_le d threshold = false.

(** A run of waypoints: a first one, then waypoints close to their
    predecessor. *)
Definition waypoint_run (float_of_str : string → option pyfloat)
    (threshold : pyfloat) (g : list Waypoint) : Prop :=
  ∃ w rest, g = w :: rest ∧ Forall (close_to_previous float_of_str threshold) rest.

(** A run that starts beyond the threshold. *)
Definition opens_far (float_of_str : string → option pyfloat)
    (threshold : pyfloat) (g : list Waypoint) : Prop :=
  ∃ w rest, g = w :: rest ∧ far_from_previous float_of_str threshold w.

(** ** The label of a ground path *)

(** What the ground loop stores for a path, by the path alone. *)
Definition ground_label_of (ground_image_path : key) : option GroundLabel :=
  size ← parent_part ground_image_path;
  if size_match size then
    groups ← located_label_match (path_name ground_image_path);
    Some (mkGroundLabel (group groups "lat") (group groups "lon") size)
  else None.

(** ** What the builder writes *)

(** The edges of the manifest are the answers of the containment test. *)
Definition edges_classified (m : Manifest) : Prop :=
  ∀ g gi a ai,
    dict_get g (ground m) = Some gi → dict_get a (aerial m) = Some ai →
    (a ∈ g_positive gi ↔ classify gi ai = Some Positive) ∧
    (a ∈ g_semi_positive gi ↔ classify gi ai = Some SemiPositive).

(** The fields that the aerial loop reads off a file and its label. *)
Definition aerial_labelled (f : ImageFile) (groups : dict pyval) (ai : AerialItem) : Prop :=
  a_id ai = group groups "id" ∧
  a_size ai = image_size f ∧
  center ai = mkLonLat (group groups "center_lon") (group groups "center_lat") ∧
  positive_boundary ai
  = (mkLonLat (group groups "min_pos_lon") (group groups "max_pos_lat"),
     mkLonLat (group groups "max_pos_lon") (group groups "min_pos_lat")) ∧
  semi_positive_boundary ai
  = (mkLonLat (group groups "min_semi_lon") (group groups "max_semi_lat"),
     mkLonLat (group groups "max_semi_lon") (group groups "min_semi_lat")).

(** The fields that the ground loop reads off a file and its label. *)
Definition ground_labelled (f : ImageFile) (groups : dict pyval) (gi : GroundItem) : Prop :=
  g_size gi = image_size f ∧
  location gi = mkLonLat (group groups "lon") (group groups "lat").

(** The aerial item of [a] comes from a file of that path with a tile
    label. *)
Definition aerial_from (fs : list ImageFile) (a : key) (ai : AerialItem) : Prop :=
  ∃ f groups,
    f ∈ fs ∧ rel_path f = a ∧ aerial_label_match (path_name a) = Some groups ∧
    aerial_labelled f groups ai.

Definition ground_from (fs : list ImageFile) (g : key) (gi : GroundItem) : Prop :=
  ∃ f groups,
    f ∈ fs ∧ rel_path f = g ∧ ground_label_match (path_name g) = Some groups ∧
    ground_labelled f groups gi.

(** ** Pixels *)

(** A pixel coordinate of a raster: far inside the 64-bit range. *)
Definition pixel (z : Z) : Prop := - 2 ^ 40 ≤ z ≤ 2 ^ 40.

(** ** The train file of the MK script, and the episode of a file name *)

(** What the train loop of the MK script writes for one positive tile:
    the correspondence line, or only its head, with no semi-positive
    entry and no newline, when the image has fewer than three
    semi-positive tiles. *)
Definition train_line (t_px : pyval → pyval → Z * Z)
    (m : Manifest) (g : key) (gi : GroundItem) (a : key) : option string :=
  if bool_decide (length (g_semi_positive gi) < 3)%nat then
    positive ← tile_with_offset t_px m gi a;
    Some (path_name g +:+ " " +:+ positive)
  else correspondence_line t_px m g gi a.

Definition train_lines (t_px : pyval → pyval → Z * Z)
    (m : Manifest) (g : key) : option (list string) :=
  gi ← dict_get g (ground m);
  mapM (train_line t_px m g gi) (g_positive gi).

(** The episode of a ground image as the specification reads it: the
    segment of its file name. *)
Definition file_episode (k : key) : option Z := sol_num (path_name k).

(** * Part III. Example data *)

(** ** A generator for the examples

    The state is a counter; a sample is a prefix of the population rotated
    by the counter, a shuffle is that rotation. *)

Definition rotate_by {A} (n : nat) (l : list A) : list A := drop n l ++ take n l.

Program Instance counter_source : RandomSource nat := {|
  sample r l k := (take k (rotate_by r l), S r);
  shuffle r l := (rotate_by r l, S r)
|}.
Next Obligation.
  intros r l k _. simpl. etrans; [apply sublist_submseteq, sublist_take|].
  unfold rotate_by. by rewrite Permutation_app_comm, take_drop.
Qed.
Next Obligation.
  intros r l k Hk. simpl. unfold rotate_by.
  rewrite length_take, length_app, length_drop, length_take. lia.
Qed.
Next Obligation.
  intros r l. simpl. unfold rotate_by. by rewrite Permutation_app_comm, take_drop.
Qed.

Definition no_size : Size := mkSize 640 640.
Definition origin : LonLat := mkLonLat (PyStr "0.0") (PyStr "0.0").

Definition tile (pos semi : list key) : AerialItem :=
  mkAerial (PyStr "0") no_size origin (origin, origin) (origin, origin) pos semi.

Definition pano (pos semi : list key) : GroundItem :=
  mkGround (mkSize 2048 512) origin pos semi.

(** The capping scenario: five panoramas on [T1], three of them also
    semi-positive for [T2]. *)
Definition five_on_T1 : Manifest :=
  mkManifest
    [("T1.png", tile ["a/G_0001_1.png"; "a/G_0001_2.png"; "a/G_0002_3.png";
                      "a/G_0003_4.png"; "a/G_0003_5.png"] []);
     ("T2.png", tile [] ["a/G_0002_3.png"; "a/G_0003_4.png"; "a/G_0003_5.png"])]
    [("a/G_0001_1.png", pano ["T1.png"] []);
     ("a/G_0001_2.png", pano ["T1.png"] []);
     ("a/G_0002_3.png", pano ["T1.png"] ["T2.png"]);
     ("a/G_0003_4.png", pano ["T1.png"] ["T2.png"]);
     ("a/G_0003_5.png", pano ["T1.png"] ["T2.png"])].

Definition default_args : Args := mkArgs (Fin 2%Q) 2 (Fin 1%Q) (Fin (1 # 2)%Q).

(** Three panoramas on [T1], each with the three semi-positive tiles that
    the last pass asks for. *)
Definition three_on_T1 : Manifest :=
  mkManifest
    [("T1.png", tile ["a/N_0001_1.png"; "a/N_0002_2.png"; "a/N_0003_3.png"] []);
     ("S1.png", tile [] ["a/N_0001_1.png"; "a/N_0002_2.png"; "a/N_0003_3.png"]);
     ("S2.png", tile [] ["a/N_0001_1.png"; "a/N_0002_2.png"; "a/N_0003_3.png"]);
     ("S3.png", tile [] ["a/N_0001_1.png"; "a/N_0002_2.png"; "a/N_0003_3.png"])]
    [("a/N_0001_1.png", pano ["T1.png"] ["S1.png"; "S2.png"; "S3.png"]);
     ("a/N_0002_2.png", pano ["T1.png"] ["S1.png"; "S2.png"; "S3.png"]);
     ("a/N_0003_3.png", pano ["T1.png"] ["S1.png"; "S2.png"; "S3.png"])].

Definition three_allowed : Args := mkArgs (Fin 2%Q) 3 (Fin 1%Q) (Fin (1 # 2)%Q).

(** A pixel grid for the examples: the lengths of the two coordinates. *)
Definition text_length (v : pyval) : Z :=
  match v with
  | PyStr s => Z.of_nat (String.length s)
  | _ => 0
  end.

Definition length_px (lon lat : pyval) : Z * Z := (text_length lon, text_length lat).

(** A panorama inside the positive boundary of two tiles, and one inside
    none. *)
Definition shared_pano : Manifest :=
  mkManifest
    [("T1.png", tile ["a/P_0001_1.png"] []);
     ("T2.png", tile ["a/P_0001_1.png"] [])]
    [("a/P_0001_1.png", pano ["T1.png"; "T2.png"] []);
     ("a/P_0002_2.png", pano [] [])].

(** [three_on_T1] with a panorama whose name carries no episode number. *)
Definition unnumbered_pano : Manifest :=
  mkManifest
    [("T1.png", tile ["a/N_0001_1.png"; "a/N_0002_2.png"; "a/pano_3.png"] []);
     ("S1.png", tile [] ["a/N_0001_1.png"; "a/N_0002_2.png"; "a/pano_3.png"]);
     ("S2.png", tile [] ["a/N_0001_1.png"; "a/N_0002_2.png"; "a/pano_3.png"]);
     ("S3.png", tile [] ["a/N_0001_1.png"; "a/N_0002_2.png"; "a/pano_3.png"])]
    [("a/N_0001_1.png", pano ["T1.png"] ["S1.png"; "S2.png"; "S3.png"]);
     ("a/N_0002_2.png", pano ["T1.png"] ["S1.png"; "S2.png"; "S3.png"]);
     ("a/pano_3.png", pano ["T1.png"] ["S1.png"; "S2.png"; "S3.png"])].

(** A tile whose positive boundary is lon [9.5, 11.0], lat [49.0, 51.0],
    and a panorama taken at lon 10.2, lat 50.4. *)
Definition tile_9_11 : ImageFile :=
  mkImageFile "7_10.25_50.0_9.5_51.0_11.0_49.0_9.0_52.0_12.0_48.0.png" (mkSize 640 640).

Definition pano_10_50 : ImageFile :=
  mkImageFile "d/x/LAT_50.4LONG_10.2_a.png" (mkSize 2048 512).

(** ** Waypoints *)

(** A parser that reads no text as a number: the examples hold numbers. *)
Definition no_float_text : string → option pyfloat := λ _, None.

Definition waypoint (sol : Z) (dist : Q) : Waypoint :=
  mkWaypoint [("sol", PyInt sol); ("dist_m", PyFloat (Fin dist))].

(** Seven waypoints; with a threshold of 5 the third and the sixth open a
    new run. *)
Definition drive : list Waypoint :=
  [waypoint 1 0; waypoint 2 3; waypoint 3 40; waypoint 4 2; waypoint 5 1;
   waypoint 6 25; waypoint 7 4].

Definition drive_start : list Waypoint := [waypoint 1 0; waypoint 2 3].
Definition drive_middle : list Waypoint := [waypoint 3 40; waypoint 4 2; waypoint 5 1].
Definition drive_end : list Waypoint := [waypoint 6 25; waypoint 7 4].

(** Three waypoints that stay within the threshold. *)
Definition short_drive : list Waypoint := [waypoint 1 0; waypoint 2 3; waypoint 3 4].

(** ** Listings for the correspondences *)

Definition tile_listing : list key := ["3_49.0_51.0_10.0_11.0.png"; "notes.png"].

Definition pano_listing : list key :=
  ["run1/labelled/640x480/50.4_10.2_a.png"; "run1/labelled/raw/50.4_10.2_b.png"].

(** ** Manifests for the curation *)

(** Two panoramas of one file name in two directories. *)
Definition twin_names : Manifest :=
  mkManifest
    [("T1.png", tile ["a/P_0001_1.png"; "b/P_0001_1.png"] [])]
    [("a/P_0001_1.png", pano ["T1.png"] []);
     ("b/P_0001_1.png", pano ["T1.png"] [])].

(** A ground image whose recorded height is 0. *)
Definition flat_pano : Manifest :=
  mkManifest
    [("T1.png", tile ["a/P_0001_1.png"] [])]
    [("a/P_0001_1.png", mkGround (mkSize 2048 0) origin ["T1.png"] [])].

(** A panorama on [T1], and two tiles that cover nothing. *)
Definition idle_tiles : Manifest :=
  mkManifest
    [("T1.png", tile ["a/P_0001_1.png"] []);
     ("D1.png", tile [] []);
     ("D2.png", tile [] [])]
    [("a/P_0001_1.png", pano ["T1.png"] [])].

Definition nan_distraction : Args := mkArgs (Fin 2%Q) 3 NaN (Fin (1 # 2)%Q).

(** ** Files for the builder *)

(** A tile whose positive boundary is lon [10.0, 11.0], lat [49.0, 51.0];
    [pano_10_50] lies inside it for the comparison of the texts. *)
Definition tile_10_11 : ImageFile :=
  mkImageFile "8_10.5_50.0_10.0_51.0_11.0_49.0_09.0_52.0_12.0_48.0.png" (mkSize 640 640).

Definition unlabelled_file : ImageFile := mkImageFile "notes.png" (mkSize 10 10).

(** ** A directory for [rename_images.py] *)

Definition fixed_utc : string → option string := λ _, Some "2021-02-18 20:55:00 UTC".

Definition image_directory : list string :=
  ["NLF_0001_0667022756_123.png"; "readme.txt"; "NLF_0002_0667111111_2021 UTC.png"].

(** ** Keys for the two splits *)

(** Three panoramas under the keys that [image-manifest.py] gives them:
    no key carries an episode segment. *)
Definition located_panos : Manifest :=
  mkManifest
    [("T1.png", tile ["d/x/LAT_50.4LONG_10.2_a.png"; "d/x/LAT_50.5LONG_10.3_b.png";
                      "d/y/LAT_50.6LONG_10.4_c.png"] [])]
    [("d/x/LAT_50.4LONG_10.2_a.png", pano ["T1.png"] []);
     ("d/x/LAT_50.5LONG_10.3_b.png", pano ["T1.png"] []);
     ("d/y/LAT_50.6LONG_10.4_c.png", pano ["T1.png"] [])].

(** Two panoramas of episode 42 by their file names, in two directories
    whose names carry a segment of the same shape. *)
Definition two_runs : Manifest :=
  mkManifest
    [("T1.png", tile ["run_0001_x/H_0042_8.png"; "run_0002_x/H_0042_9.png"] [])]
    [("run_0001_x/H_0042_8.png", pano ["T1.png"] []);
     ("run_0002_x/H_0042_9.png", pano ["T1.png"] [])].

(** * Part IV. Lemmas and theorems *)

(** ** Dictionaries: lookups after an update *)

Section DictFacts.
Context {V : Type}.
Implicit Types (d : dict V) (k : key) (v : V).

Lemma dict_get_Some_elem d k v : dict_get k d = Some v → (k, v) ∈ d.
Proof.
  induction d as [|[k' v'] d IH]; simpl; [done|].
  case_decide; intros Hg.
  - simplify_eq. left.
  - right. auto.
Qed.

Lemma dict_get_None d k : dict_get k d = None ↔ k ∉ dict_keys d.
Proof.
  unfold dict_keys. induction d as [|[k' v'] d IH]; simpl.
  - split; [intros _; apply not_elem_of_nil | done].
  - rewrite not_elem_of_cons. case_decide as Hk.
    + split; [done | by intros [? _]].
    + rewrite IH. split; [by intros ? | by intros [_ ?]].
Qed.

Lemma dict_get_is_Some d k : is_Some (dict_get k d) ↔ k ∈ dict_keys d.
Proof.
  rewrite <- not_eq_None_Some, dict_get_None.
  destruct (decide (k ∈ dict_keys d)); naive_solver.
Qed.

Lemma elem_dict_keys d k v : (k, v) ∈ d → k ∈ dict_keys d.
Proof. intros Hin. unfold dict_keys. apply list_elem_of_fmap. by exists (k, v). Qed.

Lemma elem_dict_get d k v : NoDup (dict_keys d) → (k, v) ∈ d → dict_get k d = Some v.
Proof.
  unfold dict_keys. induction d as [|[k' v'] d IH]; simpl; intros Hnd Hin.
  - by apply elem_of_nil in Hin.
  - apply NoDup_cons in Hnd as [Hk Hnd].
    apply elem_of_cons in Hin as [Heq|Hin].
    + simplify_eq. by rewrite decide_True.
    + rewrite decide_False; [auto|].
      intros ->. apply Hk. by apply (elem_dict_keys d k' v).
Qed.

Lemma dict_get_del d k k' :
  dict_get k' (dict_del k d) = if decide (k' = k) then None else dict_get k' d.
Proof.
  unfold dict_del. induction d as [|[k0 v0] d IH].
  - simpl. by case_decide.
  - rewrite filter_cons. simpl. destruct (decide (k0 ≠ k)) as [Hne|Heq]; simpl.
    + rewrite IH. repeat case_decide; congruence.
    + apply dec_stable in Heq. subst k0. rewrite IH.
      repeat case_decide; congruence.
Qed.

Lemma dict_get_map (f : V → V) d k : dict_get k (dict_map f d) = f <$> dict_get k d.
Proof.
  unfold dict_map. induction d as [|[k0 v0] d IH]; simpl; [done|].
  case_decide; [done | apply IH].
Qed.

Lemma dict_get_alter (f : V → V) d k k' :
  dict_get k' (dict_alter f k d)
  = if decide (k' = k) then f <$> dict_get k d else dict_get k' d.
Proof.
  induction d as [|[k0 v0] d IH]; simpl.
  - by case_decide.
  - destruct (decide (k = k0)) as [->|Hne]; simpl.
    + repeat case_decide; congruence.
    + rewrite IH. repeat case_decide; congruence.
Qed.

Lemma dict_keys_map (f : V → V) d : dict_keys (dict_map f d) = dict_keys d.
Proof.
  unfold dict_keys, dict_map. rewrite <- list_fmap_compose.
  apply list_fmap_ext. by intros i [??].
Qed.

Lemma dict_keys_alter (f : V → V) d k : dict_keys (dict_alter f k d) = dict_keys d.
Proof.
  unfold dict_keys. induction d as [|[k0 v0] d IH]; simpl; [done|].
  case_decide; simpl; [done | by f_equal].
Qed.

Lemma dict_keys_del d k : dict_keys (dict_del k d) = filter (λ x, x ≠ k) (dict_keys d).
Proof.
  unfold dict_keys, dict_del. induction d as [|[k0 v0] d IH]; [done|].
  rewrite fmap_cons, !filter_cons. simpl. case_decide; simpl; by f_equal.
Qed.

Lemma elem_dict_del d k k' v : (k', v) ∈ dict_del k d ↔ k' ≠ k ∧ (k', v) ∈ d.
Proof. unfold dict_del. by rewrite list_elem_of_filter. Qed.

Lemma elem_dict_map (f : V → V) d k v' :
  (k, v') ∈ dict_map f d ↔ ∃ v, v' = f v ∧ (k, v) ∈ d.
Proof.
  unfold dict_map. rewrite list_elem_of_fmap. split.
  - intros [[k0 v0] [Heq Hin]]. simpl in Heq. simplify_eq. eauto.
  - intros (v & -> & Hin). by exists (k, v).
Qed.

Lemma elem_dict_alter (f : V → V) d k k' v' :
  (k', v') ∈ dict_alter f k d →
  (k', v') ∈ d ∨ (k' = k ∧ ∃ v, v' = f v ∧ (k, v) ∈ d).
Proof.
  induction d as [|[k0 v0] d IH]; simpl; [by left|].
  case_decide as Hk.
  - subst k0. rewrite !elem_of_cons. intros [Heq|Hin]; [|by left; right].
    simplify_eq. right. split; [done|]. exists v0. split; [done|]. by left.
  - rewrite !elem_of_cons. intros [Heq|Hin]; [by left; left|].
    destruct (IH Hin) as [?|(-> & v & -> & ?)]; [by left; right|].
    right. split; [done|]. exists v. split; [done|]. by right.
Qed.

End DictFacts.

(** ** [list.remove] and the scrub of one edge list *)

Lemma elem_remove_first_ne x k l : x ≠ k → x ∈ list_remove_first k l ↔ x ∈ l.
Proof.
  intros Hne. induction l as [|y l IH]; simpl; [done|].
  case_decide as Hk.
  - subst y. rewrite elem_of_cons. split; [by right | by intros [?|?]].
  - rewrite !elem_of_cons, IH. done.
Qed.

Lemma elem_remove_first x k l : x ∈ list_remove_first k l → x ∈ l.
Proof.
  induction l as [|y l IH]; simpl; [done|].
  case_decide; rewrite ?elem_of_cons; [by right|].
  intros [?|?]; [by left | right; auto].
Qed.

Lemma remove_first_NoDup k l : NoDup l → NoDup (list_remove_first k l).
Proof.
  induction 1 as [|y l Hy Hnd IH]; simpl; [constructor|].
  case_decide; [done|]. constructor; [|done].
  intros Hin. by apply Hy, (elem_remove_first _ k).
Qed.

Lemma remove_first_not_elem k l : NoDup l → k ∉ list_remove_first k l.
Proof.
  induction 1 as [|y l Hy Hnd IH]; simpl; [apply not_elem_of_nil|].
  case_decide as Hk; [by subst y|].
  rewrite not_elem_of_cons. done.
Qed.

Lemma elem_scrub_ne x k l : x ≠ k → x ∈ scrub k l ↔ x ∈ l.
Proof. intros. unfold scrub. case_decide; [by apply elem_remove_first_ne | done]. Qed.

Lemma elem_scrub x k l : x ∈ scrub k l → x ∈ l.
Proof. unfold scrub. case_decide; [apply elem_remove_first | done]. Qed.

Lemma scrub_NoDup k l : NoDup l → NoDup (scrub k l).
Proof. intros. unfold scrub. case_decide; [by apply remove_first_NoDup | done]. Qed.

Lemma scrub_not_elem k l : NoDup l → k ∉ scrub k l.
Proof. intros. unfold scrub. case_decide; [by apply remove_first_not_elem | done]. Qed.

Lemma scrub_length k l : (length (scrub k l) ≤ length l)%nat.
Proof.
  unfold scrub. case_decide; [|done].
  clear. induction l as [|y l IH]; simpl; [done|]. case_decide; simpl; lia.
Qed.

(** ** Loops that may raise *)

Lemma foldM_invariant {A S} (P : S → Prop) (f : S → A → option S) l :
  (∀ s x s', P s → f s x = Some s' → P s') →
  ∀ s s', P s → foldM f s l = Some s' → P s'.
Proof.
  intros Hf. induction l as [|x l IH]; simpl; intros s s' Hs Hrun.
  - by simplify_eq.
  - destruct (f s x) as [s1|] eqn:Hx; simpl in Hrun; [|done].
    eapply IH; [|done]. by eapply Hf.
Qed.

Lemma foldM_app {A S} (f : S → A → option S) l1 l2 s :
  foldM f s (l1 ++ l2) = s' ← foldM f s l1; foldM f s' l2.
Proof.
  revert s. induction l1 as [|x l1 IH]; intros s; simpl; [done|].
  destruct (f s x); simpl; [apply IH | done].
Qed.

(** ** Removing a node *)

Lemma remove_ground_image_Some k m m' :
  remove_ground_image k m = Some m' ↔
  k ∈ dict_keys (ground m) ∧
  m' = mkManifest (dict_map (scrub_aerial k) (aerial m)) (dict_del k (ground m)).
Proof.
  unfold remove_ground_image, dict_mem. case_bool_decide.
  - split; [by intros [= <-] | by intros [_ ->]].
  - split; [done | by intros [? _]].
Qed.

Lemma remove_aerial_image_Some k m m' :
  remove_aerial_image k m = Some m' ↔
  k ∈ dict_keys (aerial m) ∧
  m' = mkManifest (dict_del k (aerial m)) (dict_map (scrub_ground k) (ground m)).
Proof.
  unfold remove_aerial_image, dict_mem. case_bool_decide.
  - split; [by intros [= <-] | by intros [_ ->]].
  - split; [done | by intros [? _]].
Qed.

Lemma remove_ground_image_consistent k m m' :
  consistent m → remove_ground_image k m = Some m' → consistent m'.
Proof.
  intros Hc [Hk ->]%remove_ground_image_Some g gi a ai'. simpl.
  rewrite dict_get_del, dict_get_map. case_decide as Hg; [done|].
  intros Hgi Hai. apply fmap_Some in Hai as (ai & Hai & ->).
  destruct (Hc g gi a ai Hgi Hai) as (Hp & Hs & Hx). simpl.
  rewrite !elem_scrub_ne by done. done.
Qed.

Lemma remove_aerial_image_consistent k m m' :
  consistent m → remove_aerial_image k m = Some m' → consistent m'.
Proof.
  intros Hc [Hk ->]%remove_aerial_image_Some g gi' a ai. simpl.
  rewrite dict_get_del, dict_get_map. case_decide as Ha; [done|].
  intros Hgi Hai. apply fmap_Some in Hgi as (gi & Hgi & ->).
  destruct (Hc g gi a ai Hgi Hai) as (Hp & Hs & Hx). simpl.
  rewrite !elem_scrub_ne by done. done.
Qed.

Lemma remove_ground_image_edges_nodup k m m' :
  edges_nodup m → remove_ground_image k m = Some m' → edges_nodup m'.
Proof.
  intros [Ha Hg] [_ ->]%remove_ground_image_Some. split; simpl.
  - intros a ai' (ai & -> & Hin)%elem_dict_map. simpl.
    destruct (Ha a ai Hin). split; by apply scrub_NoDup.
  - intros g gi [_ Hin]%elem_dict_del. by apply (Hg g).
Qed.

Lemma remove_aerial_image_edges_nodup k m m' :
  edges_nodup m → remove_aerial_image k m = Some m' → edges_nodup m'.
Proof.
  intros [Ha Hg] [_ ->]%remove_aerial_image_Some. split; simpl.
  - intros a ai [_ Hin]%elem_dict_del. by apply (Ha a).
  - intros g gi' (gi & -> & Hin)%elem_dict_map. simpl.
    destruct (Hg g gi Hin). split; by apply scrub_NoDup.
Qed.

Lemma remove_ground_image_wf k m m' :
  wf m → remove_ground_image k m = Some m' → wf m'.
Proof.
  intros (Hkeys & Hc & Hnd & Hcl) Hrm.
  split_and!; [| by eapply remove_ground_image_consistent | |];
    apply remove_ground_image_Some in Hrm as [Hk ->].
  - destruct Hkeys as [Ha Hg]. split; simpl.
    + by rewrite dict_keys_map.
    + rewrite dict_keys_del. by apply NoDup_filter.
  - destruct Hnd as [Ha Hg]. split; simpl.
    + intros a ai' (ai & -> & Hin)%elem_dict_map. simpl.
      destruct (Ha a ai Hin). split; by apply scrub_NoDup.
    + intros g gi [_ Hin]%elem_dict_del. by apply (Hg g).
  - destruct Hnd as [Hnda _]. destruct Hcl as [Ha Hg]. split; simpl.
    + intros a ai' g (ai & -> & Hin)%elem_dict_map. simpl. intros Hel.
      destruct (Hnda a ai Hin) as [Hn1 Hn2].
      rewrite dict_keys_del. apply list_elem_of_filter. split.
      * intros ->. destruct Hel as [Hel|Hel];
          [by apply (scrub_not_elem k _ Hn1) | by apply (scrub_not_elem k _ Hn2)].
      * apply (Ha a ai g Hin). destruct Hel as [Hel|Hel]; [left|right]; by eapply elem_scrub.
    + intros g gi a [_ Hin]%elem_dict_del Hel. rewrite dict_keys_map. by apply (Hg g gi).
Qed.

Lemma remove_aerial_image_wf k m m' :
  wf m → remove_aerial_image k m = Some m' → wf m'.
Proof.
  intros (Hkeys & Hc & Hnd & Hcl) Hrm.
  split_and!; [| by eapply remove_aerial_image_consistent | |];
    apply remove_aerial_image_Some in Hrm as [Hk ->].
  - destruct Hkeys as [Ha Hg]. split; simpl.
    + rewrite dict_keys_del. by apply NoDup_filter.
    + by rewrite dict_keys_map.
  - destruct Hnd as [Ha Hg]. split; simpl.
    + intros a ai [_ Hin]%elem_dict_del. by apply (Ha a).
    + intros g gi' (gi & -> & Hin)%elem_dict_map. simpl.
      destruct (Hg g gi Hin). split; by apply scrub_NoDup.
  - destruct Hnd as [_ Hndg]. destruct Hcl as [Ha Hg]. split; simpl.
    + intros a ai g [_ Hin]%elem_dict_del Hel. rewrite dict_keys_map. by apply (Ha a ai).
    + intros g gi' a (gi & -> & Hin)%elem_dict_map. simpl. intros Hel.
      destruct (Hndg g gi Hin) as [Hn1 Hn2].
      rewrite dict_keys_del. apply list_elem_of_filter. split.
      * intros ->. destruct Hel as [Hel|Hel];
          [by apply (scrub_not_elem k _ Hn1) | by apply (scrub_not_elem k _ Hn2)].
      * apply (Hg g gi a Hin). destruct Hel as [Hel|Hel]; [left|right]; by eapply elem_scrub.
Qed.

Lemma remove_image_consistent k m m' :
  consistent m → remove_image k m = Some m' → consistent m'.
Proof.
  unfold remove_image. intros Hc.
  destruct (dict_mem k (aerial m)); [by apply remove_aerial_image_consistent|].
  destruct (dict_mem k (ground m)); [by apply remove_ground_image_consistent|].
  by intros [= <-].
Qed.

Lemma remove_image_wf k m m' : wf m → remove_image k m = Some m' → wf m'.
Proof.
  unfold remove_image. intros Hc.
  destruct (dict_mem k (aerial m)); [by apply remove_aerial_image_wf|].
  destruct (dict_mem k (ground m)); [by apply remove_ground_image_wf|].
  by intros [= <-].
Qed.

Lemma remove_image_edges_nodup k m m' :
  edges_nodup m → remove_image k m = Some m' → edges_nodup m'.
Proof.
  unfold remove_image. intros Hc.
  destruct (dict_mem k (aerial m)); [by apply remove_aerial_image_edges_nodup|].
  destruct (dict_mem k (ground m)); [by apply remove_ground_image_edges_nodup|].
  by intros [= <-].
Qed.

Lemma remove_ground_images_get ks : ∀ m m' g,
  foldM (λ m k, remove_ground_image k m) m ks = Some m' →
  dict_get g (ground m') = if decide (g ∈ ks) then None else dict_get g (ground m).
Proof.
  induction ks as [|k ks IH]; simpl; intros m m' g Hrun.
  - by simplify_eq.
  - destruct (remove_ground_image k m) as [m1|] eqn:Hrm; simpl in Hrun; [|done].
    rewrite (IH _ _ g Hrun).
    apply remove_ground_image_Some in Hrm as [_ ->]. simpl.
    rewrite dict_get_del.
    destruct (decide (g ∈ ks)) as [Hin|Hin].
    + by rewrite decide_True by (by right).
    + destruct (decide (g = k)) as [->|Hne].
      * by rewrite decide_True by left.
      * rewrite decide_False; [done|]. rewrite elem_of_cons. by intros [?|?].
Qed.

Lemma remove_ground_images_consistent ks m m' :
  consistent m → foldM (λ m k, remove_ground_image k m) m ks = Some m' → consistent m'.
Proof.
  apply (foldM_invariant consistent). intros s x s' ?. by apply remove_ground_image_consistent.
Qed.

Lemma remove_ground_images_wf ks m m' :
  wf m → foldM (λ m k, remove_ground_image k m) m ks = Some m' → wf m'.
Proof.
  apply (foldM_invariant wf). intros s x s' ?. by apply remove_ground_image_wf.
Qed.

Lemma remove_duplicates_preserves (P : Manifest → Prop) m m' :
  (∀ k m m', P m → remove_image k m = Some m' → P m') →
  P m → remove_duplicates m = Some m' → P m'.
Proof.
  intros HP. unfold remove_duplicates. apply (foldM_invariant P). intros s x s'. apply HP.
Qed.

Lemma remove_spaces_preserves (P : Manifest → Prop) m m' :
  (∀ k m m', P m → remove_image k m = Some m' → P m') →
  P m → remove_spaces m = Some m' → P m'.
Proof.
  intros HP. unfold remove_spaces. apply (foldM_invariant P). intros s x s' Hs.
  destruct (has_space _); [by apply HP | by intros [= <-]].
Qed.

Lemma remove_non_panoramas_preserves (P : Manifest → Prop) ratio m m' :
  (∀ k m m', P m → remove_ground_image k m = Some m' → P m') →
  P m → remove_non_panoramas ratio m = Some m' → P m'.
Proof.
  intros HP Hm. unfold remove_non_panoramas.
  destruct (filter_keys _ _) as [ks|]; simpl; [|done].
  revert Hm. apply (foldM_invariant P). intros s x s'. apply HP.
Qed.

Section CuratorFacts.
Context {R : Type} `{RandomSource R}.

Lemma remove_few_semi_positives_preserves (P : Manifest → Prop) m m' :
  (∀ k m m', P m → remove_ground_image k m = Some m' → P m') →
  P m → remove_few_semi_positives m = Some m' → P m'.
Proof.
  intros HP. unfold remove_few_semi_positives. apply (foldM_invariant P).
  intros s x s'. apply HP.
Qed.

Lemma py_sample_Some (r : R) l k smp r' :
  py_sample r l k = Some (smp, r') →
  0 ≤ k ≤ Z.of_nat (length l) ∧ smp ⊆+ l ∧ length smp = Z.to_nat k.
Proof.
  unfold py_sample. case_bool_decide as Hk; [|done]. intros [= Hs].
  assert (Z.to_nat k ≤ length l)%nat as Hle by lia.
  split; [done|]. split.
  - pose proof (sample_sub r l _ Hle) as Hsub. by rewrite Hs in Hsub.
  - pose proof (sample_length r l _ Hle) as Hlen. by rewrite Hs in Hlen.
Qed.

(** What one capping step does, when it samples. *)
Lemma cap_tile_sampled max (m : Manifest) (r : R) a ai m' r' :
  dict_get a (aerial m) = Some ai →
  max ≠ 0 → max < Z.of_nat (length (a_positive ai)) →
  cap_tile max (m, r) a = Some (m', r') →
  ∃ smp m1,
    py_sample r (a_positive ai) max = Some (smp, r') ∧
    foldM (λ m k, remove_ground_image k m) m
      (filter (λ x, x ∉ smp) (a_positive ai)) = Some m1 ∧
    m' = mkManifest (dict_alter (set_a_positive smp) a (aerial m1)) (ground m1).
Proof.
  intros Ha Hmax Hlen. unfold cap_tile. simpl. rewrite Ha. simpl.
  rewrite !bool_decide_eq_true_2 by done. simpl.
  destruct (py_sample r (a_positive ai) max) as [[smp r1]|] eqn:Hs; simpl; [|done].
  destruct (foldM _ m _) as [m1|] eqn:Hrm; simpl; [|done].
  intros [= <- <-]. by exists smp, m1.
Qed.

Lemma cap_tile_skipped max (m : Manifest) (r : R) a ai s' :
  dict_get a (aerial m) = Some ai →
  ¬ (max ≠ 0 ∧ max < Z.of_nat (length (a_positive ai))) →
  cap_tile max (m, r) a = Some s' → s' = (m, r).
Proof.
  intros Ha Hno. unfold cap_tile. simpl. rewrite Ha. simpl.
  destruct (bool_decide (max ≠ 0)) eqn:E1; simpl; [|by intros [= <-]].
  destruct (bool_decide (max < _)) eqn:E2; simpl; [|by intros [= <-]].
  apply bool_decide_eq_true in E1, E2. by destruct Hno.
Qed.

Lemma cap_tile_cases max (m : Manifest) (r : R) a m' r' :
  cap_tile max (m, r) a = Some (m', r') →
  (m', r') = (m, r) ∨
  ∃ ai smp m1,
    dict_get a (aerial m) = Some ai ∧
    py_sample r (a_positive ai) max = Some (smp, r') ∧
    foldM (λ m k, remove_ground_image k m) m
      (filter (λ x, x ∉ smp) (a_positive ai)) = Some m1 ∧
    m' = mkManifest (dict_alter (set_a_positive smp) a (aerial m1)) (ground m1).
Proof.
  intros Hrun. destruct (dict_get a (aerial m)) as [ai|] eqn:Ha.
  - destruct (decide (max ≠ 0 ∧ max < Z.of_nat (length (a_positive ai)))) as [[??]|Hno].
    + right. destruct (cap_tile_sampled max m r a ai m' r') as (smp & m1 & ?); [done..|].
      by exists ai, smp, m1.
    + left. by apply (cap_tile_skipped max m r a ai).
  - unfold cap_tile in Hrun. simpl in Hrun. by rewrite Ha in Hrun.
Qed.

Lemma cap_tile_consistent max (m : Manifest) (r : R) a m' r' :
  consistent m → cap_tile max (m, r) a = Some (m', r') → consistent m'.
Proof.
  intros Hc Hrun.
  apply cap_tile_cases in Hrun as [[= -> ->]|(ai & smp & m1 & Ha & Hs & Hrm & ->)]; [done|].
  apply py_sample_Some in Hs as (_ & Hsub & _).
  pose proof (remove_ground_images_consistent _ _ _ Hc Hrm) as Hc1.
  intros g gi a' ai'. simpl. rewrite dict_get_alter.
  intros Hg. rewrite (remove_ground_images_get _ _ _ g Hrm) in Hg.
  case_decide as Hleft; [done|].
  case_decide as Haa; [subst a'|by apply Hc1; rewrite ?(remove_ground_images_get _ _ _ g Hrm), ?decide_False].
  intros (ai1 & Ha1 & ->)%fmap_Some. simpl.
  assert (dict_get g (ground m1) = Some gi) as Hg1.
  { by rewrite (remove_ground_images_get _ _ _ g Hrm), decide_False. }
  destruct (Hc g gi a ai Hg Ha) as (Hp & Hsemi & Hx).
  destruct (Hc1 g gi a ai1 Hg1 Ha1) as (Hp1 & Hsemi1 & Hx1).
  assert (g ∈ smp → g ∈ a_positive ai) as Hin.
  { intros ?. by eapply elem_of_submseteq. }
  split_and!; [|done|].
  - split; [by intros ?%Hin%Hp|]. intros Hag%Hp.
    destruct (decide (g ∈ smp)) as [|Hns]; [done|].
    destruct Hleft. by apply list_elem_of_filter.
  - intros [Hsmp Hsm]. apply Hx. split; [by apply Hin|]. by apply Hsemi, Hsemi1.
Qed.

Lemma submseteq_NoDup (l k : list key) : l ⊆+ k → NoDup k → NoDup l.
Proof.
  intros (k' & Hk)%submseteq_Permutation Hnd. rewrite Hk in Hnd.
  by apply NoDup_app in Hnd as (? & _).
Qed.

Lemma cap_tile_wf max (m : Manifest) (r : R) a m' r' :
  wf m → cap_tile max (m, r) a = Some (m', r') → wf m'.
Proof.
  intros Hwf Hrun.
  assert (consistent m') as Hc'.
  { destruct Hwf as (_ & Hc & _). by eapply cap_tile_consistent. }
  apply cap_tile_cases in Hrun as [[= -> ->]|(ai & smp & m1 & Ha & Hs & Hrm & ->)]; [done|].
  apply py_sample_Some in Hs as (_ & Hsub & _).
  pose proof (remove_ground_images_wf _ _ _ Hwf Hrm) as (Hk1 & _ & Hnd1 & Hcl1).
  destruct Hwf as (Hk & Hc & Hnd & Hcl).
  apply dict_get_Some_elem in Ha as Hain.
  split_and!; [|done| |].
  - destruct Hk1. split; simpl; [by rewrite dict_keys_alter | done].
  - destruct Hnd1 as [Hnda Hndg]. split; simpl; [|done].
    intros a' ai' [Hin|(-> & v & -> & Hin)]%elem_dict_alter; [by apply (Hnda a')|].
    simpl. split; [|by apply (Hnda a v)].
    eapply submseteq_NoDup; [done|]. by apply (proj1 Hnd a ai).
  - destruct Hcl1 as [Hcla Hclg]. split; simpl.
    + intros a' ai' g [Hin|(-> & v & -> & Hin)]%elem_dict_alter; [by apply (Hcla a')|].
      simpl. intros [Hg|Hg]; [|apply (Hcla a v g Hin); by right].
      assert (g ∈ a_positive ai) as Hgp by by eapply elem_of_submseteq.
      apply dict_get_is_Some. rewrite (remove_ground_images_get _ _ _ g Hrm).
      rewrite decide_False.
      * apply dict_get_is_Some. apply (proj1 Hcl a ai g Hain). by left.
      * rewrite list_elem_of_filter. by intros [? _].
    + intros g gi a' Hin Hel. rewrite dict_keys_alter. by apply (Hclg g gi).
Qed.

Lemma cap_tile_edges_nodup max (m : Manifest) (r : R) a m' r' :
  edges_nodup m → cap_tile max (m, r) a = Some (m', r') → edges_nodup m'.
Proof.
  intros Hnd Hrun.
  apply cap_tile_cases in Hrun as [[= -> ->]|(ai & smp & m1 & Ha & Hs & Hrm & ->)]; [done|].
  apply py_sample_Some in Hs as (_ & Hsub & _).
  assert (edges_nodup m1) as [Hnda Hndg].
  { revert Hnd Hrm. apply (foldM_invariant edges_nodup). intros s x s' ?.
    by apply remove_ground_image_edges_nodup. }
  apply dict_get_Some_elem in Ha. split; simpl; [|done].
  intros a' ai' [Hin|(-> & v & -> & Hin)]%elem_dict_alter; [by apply (Hnda a')|].
  simpl. split; [|by apply (Hnda a v)].
  eapply submseteq_NoDup; [done|]. by apply (proj1 Hnd a ai).
Qed.

Lemma cap_positives_edges_nodup max (m : Manifest) (r : R) m' r' :
  edges_nodup m → cap_positives max (m, r) = Some (m', r') → edges_nodup m'.
Proof.
  unfold cap_positives. intros Hc Hrun.
  apply (foldM_invariant (λ s : St, edges_nodup s.1) (cap_tile max) _) in Hrun; [done| |done].
  intros [m0 r0] a [m1 r1]. apply cap_tile_edges_nodup.
Qed.

Lemma cap_positives_consistent max (m : Manifest) (r : R) m' r' :
  consistent m → cap_positives max (m, r) = Some (m', r') → consistent m'.
Proof.
  unfold cap_positives. intros Hc Hrun.
  apply (foldM_invariant (λ s : St, consistent s.1) (cap_tile max) _) in Hrun; [done| |done].
  intros [m0 r0] a [m1 r1]. apply cap_tile_consistent.
Qed.

Lemma cap_positives_wf max (m : Manifest) (r : R) m' r' :
  wf m → cap_positives max (m, r) = Some (m', r') → wf m'.
Proof.
  unfold cap_positives. intros Hc Hrun.
  apply (foldM_invariant (λ s : St, wf s.1) (cap_tile max) _) in Hrun; [done| |done].
  intros [m0 r0] a [m1 r1]. apply cap_tile_wf.
Qed.

Lemma remove_distractions_preserves (P : Manifest → Prop) p (m : Manifest) (r : R) m' r' :
  (∀ k m m', P m → remove_aerial_image k m = Some m' → P m') →
  P m → remove_distractions p (m, r) = Some (m', r') → P m'.
Proof.
  intros HP Hm. unfold remove_distractions. simpl.
  destruct (py_int _) as [n|]; simpl; [|done].
  destruct (py_sample _ _ _) as [[xs r1]|]; simpl; [|done].
  destruct (foldM _ m xs) as [m1|] eqn:Hrm; simpl; [|done].
  intros [= <- <-]. revert Hm Hrm. apply (foldM_invariant P). intros s x s'. apply HP.
Qed.

Lemma lift_preserves (P : Manifest → Prop) f (m : Manifest) (r : R) m' r' :
  (∀ m m', P m → f m = Some m' → P m') →
  P m → lift f (m, r) = Some (m', r') → P m'.
Proof.
  intros HP Hm. unfold lift. simpl. destruct (f m) as [m1|] eqn:Hf; simpl; [|done].
  intros [= <- <-]. by apply (HP m).
Qed.

Lemma run_pass_consistent args p (m : Manifest) (r : R) m' r' :
  consistent m → run_pass args p (m, r) = Some (m', r') → consistent m'.
Proof.
  intros Hc. destruct p; simpl.
  - apply lift_preserves; [|done]. intros ??. apply remove_duplicates_preserves.
    apply remove_image_consistent.
  - apply lift_preserves; [|done]. intros ??. apply remove_spaces_preserves.
    apply remove_image_consistent.
  - apply lift_preserves; [|done]. intros ??. apply remove_non_panoramas_preserves.
    apply remove_ground_image_consistent.
  - by apply cap_positives_consistent.
  - apply remove_distractions_preserves; [|done]. apply remove_aerial_image_consistent.
  - apply lift_preserves; [|done]. intros ??. apply remove_few_semi_positives_preserves.
    apply remove_ground_image_consistent.
Qed.


Lemma run_pass_edges_nodup args p (m : Manifest) (r : R) m' r' :
  edges_nodup m → run_pass args p (m, r) = Some (m', r') → edges_nodup m'.
Proof.
  intros Hc. destruct p; simpl.
  - apply lift_preserves; [|done]. intros ??. apply remove_duplicates_preserves.
    apply remove_image_edges_nodup.
  - apply lift_preserves; [|done]. intros ??. apply remove_spaces_preserves.
    apply remove_image_edges_nodup.
  - apply lift_preserves; [|done]. intros ??. apply remove_non_panoramas_preserves.
    apply remove_ground_image_edges_nodup.
  - by apply cap_positives_edges_nodup.
  - apply remove_distractions_preserves; [|done]. apply remove_aerial_image_edges_nodup.
  - apply lift_preserves; [|done]. intros ??. apply remove_few_semi_positives_preserves.
    apply remove_ground_image_edges_nodup.
Qed.

End CuratorFacts.

(** ** Checking a concrete manifest *)

Lemma wf_check_sound m : wf_check m → wf m.
Proof.
  intros (Hk & Hc & [Hna Hng] & [Hca Hcg]). split_and!; [done| | |].
  - intros g gi a ai Hg%dict_get_Some_elem Ha%dict_get_Some_elem.
    rewrite Forall_forall in Hc. specialize (Hc _ Hg).
    rewrite Forall_forall in Hc. apply (Hc _ Ha).
  - rewrite Forall_forall in Hna. rewrite Forall_forall in Hng. split.
    + intros a ai Hin. apply (Hna _ Hin).
    + intros g gi Hin. apply (Hng _ Hin).
  - rewrite Forall_forall in Hca. rewrite Forall_forall in Hcg. split.
    + intros a ai g Hin Hel. specialize (Hca _ Hin). rewrite Forall_forall in Hca.
      apply Hca. simpl. rewrite elem_of_app. done.
    + intros g gi a Hin Hel. specialize (Hcg _ Hin). rewrite Forall_forall in Hcg.
      apply Hcg. simpl. rewrite elem_of_app. done.
Qed.

Lemma five_on_T1_wf : wf five_on_T1.
Proof. apply wf_check_sound. by apply (bool_decide_unpack _). Qed.

(** ** Pruning a node *)

Lemma remove_ground_image_scrubs g m :
  edges_nodup m → g ∈ dict_keys (ground m) →
  ∃ m', remove_ground_image g m = Some m' ∧ ground_scrubbed g m'.
Proof.
  intros [Hnd _] Hg. eexists. split; [by apply remove_ground_image_Some|].
  split; simpl.
  - rewrite dict_get_del. by rewrite decide_True.
  - intros a ai'. rewrite dict_get_map. intros (ai & Hai & ->)%fmap_Some.
    apply dict_get_Some_elem in Hai. destruct (Hnd a ai Hai). simpl.
    split; by apply scrub_not_elem.
Qed.

Lemma remove_aerial_image_scrubs a m :
  edges_nodup m → a ∈ dict_keys (aerial m) →
  ∃ m', remove_aerial_image a m = Some m' ∧ aerial_scrubbed a m'.
Proof.
  intros [_ Hnd] Ha. eexists. split; [by apply remove_aerial_image_Some|].
  split; simpl.
  - rewrite dict_get_del. by rewrite decide_True.
  - intros g gi'. rewrite dict_get_map. intros (gi & Hgi & ->)%fmap_Some.
    apply dict_get_Some_elem in Hgi. destruct (Hnd g gi Hgi). simpl.
    split; by apply scrub_not_elem.
Qed.

Section Consistency.
Context {R : Type} `{RandomSource R}.

(** C1. Every curation pass keeps the graph bidirectionally consistent.
    Take a manifest whose positive and semi-positive edges are recorded
    at both ends and exclude each other, and whose edge lists hold no key
    twice (as the builder writes them). Whatever the pass and the state of
    the generator, the manifest the pass leaves has the same two
    properties. Removing a ground image that is in the manifest succeeds,
    keeps consistency, deletes its entry and leaves its key in no positive
    or semi-positive list of any aerial tile; removing an aerial tile does
    the same on the ground images. *)
Theorem curation_pass_keeps_consistency
    (args : Args) (p : curation_pass) (m : Manifest) (r : R) (m' : Manifest) (r' : R)
    (g a : key) :
  consistent m →
  edges_nodup m →
  run_pass args p (m, r) = Some (m', r') →
  g ∈ dict_keys (ground m) →
  a ∈ dict_keys (aerial m) →
  (consistent m' ∧ edges_nodup m') ∧
  (∃ mg, remove_ground_image g m = Some mg ∧ consistent mg ∧ ground_scrubbed g mg) ∧
  (∃ ma, remove_aerial_image a m = Some ma ∧ consistent ma ∧ aerial_scrubbed a ma).
Proof.
  intros Hc Hnd Hrun Hg Ha. split; [|split].
  - split; [by eapply run_pass_consistent | by eapply run_pass_edges_nodup].
  - destruct (remove_ground_image_scrubs g m Hnd Hg) as (mg & Hrm & Hs).
    exists mg. split_and!; [done| |done]. by eapply remove_ground_image_consistent.
  - destruct (remove_aerial_image_scrubs a m Hnd Ha) as (ma & Hrm & Hs).
    exists ma. split_and!; [done| |done]. by eapply remove_aerial_image_consistent.
Qed.

End Consistency.

Lemma curation_pass_keeps_consistency_witness :
  ∃ m' r',
    run_pass default_args CapPositives (five_on_T1, 0%nat) = Some (m', r') ∧
    (consistent m' ∧ edges_nodup m') ∧
    (∃ mg, remove_ground_image "a/G_0002_3.png" five_on_T1 = Some mg ∧
           consistent mg ∧ ground_scrubbed "a/G_0002_3.png" mg) ∧
    (∃ ma, remove_aerial_image "T2.png" five_on_T1 = Some ma ∧
           consistent ma ∧ aerial_scrubbed "T2.png" ma).
Proof.
  eexists _, _. split; [vm_compute; reflexivity|].
  eapply (curation_pass_keeps_consistency default_args CapPositives five_on_T1 0%nat).
  - apply five_on_T1_wf.
  - apply five_on_T1_wf.
  - vm_compute; reflexivity.
  - by apply (bool_decide_unpack _).
  - by apply (bool_decide_unpack _).
Defined.

(** ** Positive-count capping *)

Lemma remove_ground_images_total ks : ∀ m,
  NoDup ks → (∀ k, k ∈ ks → k ∈ dict_keys (ground m)) →
  is_Some (foldM (λ m k, remove_ground_image k m) m ks).
Proof.
  induction ks as [|k ks IH]; intros m Hnd Hin; simpl; [done|].
  apply NoDup_cons in Hnd as [Hk Hnd].
  assert (k ∈ dict_keys (ground m)) as Hkm by (apply Hin; left).
  rewrite (proj2 (remove_ground_image_Some k m _) (conj Hkm eq_refl)). simpl.
  apply IH; [done|]. intros k' Hk'. simpl.
  rewrite dict_keys_del. apply list_elem_of_filter. split.
  - by intros ->.
  - apply Hin. by right.
Qed.

Lemma remove_ground_image_keeps_scrubbed g k m m' :
  ground_scrubbed g m → remove_ground_image k m = Some m' → ground_scrubbed g m'.
Proof.
  intros [Hg Ha] [_ ->]%remove_ground_image_Some. split; simpl.
  - rewrite dict_get_del. by case_decide.
  - intros a ai'. rewrite dict_get_map. intros (ai & Hai & ->)%fmap_Some. simpl.
    destruct (Ha a ai Hai) as [Hp Hs].
    split; intros Hin%elem_scrub; auto.
Qed.

Lemma remove_ground_images_keep_scrubbed g ks m m' :
  ground_scrubbed g m →
  foldM (λ m k, remove_ground_image k m) m ks = Some m' → ground_scrubbed g m'.
Proof.
  apply (foldM_invariant (ground_scrubbed g)). intros s x s'.
  apply remove_ground_image_keeps_scrubbed.
Qed.

Lemma remove_ground_images_scrub ks : ∀ m m' g,
  edges_nodup m → g ∈ ks →
  foldM (λ m k, remove_ground_image k m) m ks = Some m' → ground_scrubbed g m'.
Proof.
  induction ks as [|k ks IH]; intros m m' g Hnd Hg Hrun; [by apply elem_of_nil in Hg|].
  simpl in Hrun.
  destruct (remove_ground_image k m) as [m1|] eqn:Hrm; simpl in Hrun; [|done].
  assert (edges_nodup m1) as Hnd1.
  { apply remove_ground_image_Some in Hrm as [_ ->]. destruct Hnd as [Ha Hgr]. split; simpl.
    - intros a ai' (ai & -> & Hin)%elem_dict_map. simpl.
      destruct (Ha a ai Hin). split; by apply scrub_NoDup.
    - intros g0 gi [_ Hin]%elem_dict_del. by apply (Hgr g0). }
  apply elem_of_cons in Hg as [->|Hg]; [|by apply (IH m1)].
  eapply remove_ground_images_keep_scrubbed; [|done].
  apply remove_ground_image_Some in Hrm as Hk. destruct Hk as [Hk _].
  destruct (remove_ground_image_scrubs k m Hnd Hk) as (m2 & Hrm2 & Hs). congruence.
Qed.

Lemma remove_ground_image_edges k m m' a ai :
  remove_ground_image k m = Some m' → dict_get a (aerial m) = Some ai →
  ∃ ai', dict_get a (aerial m') = Some ai' ∧
    ∀ g, g ≠ k →
      (g ∈ a_positive ai' ↔ g ∈ a_positive ai) ∧
      (g ∈ a_semi_positive ai' ↔ g ∈ a_semi_positive ai).
Proof.
  intros [_ ->]%remove_ground_image_Some Ha. simpl.
  exists (scrub_aerial k ai). split; [by rewrite dict_get_map, Ha|].
  intros g Hg. simpl. split; by apply elem_scrub_ne.
Qed.

Lemma remove_ground_images_edges ks : ∀ m m' a ai,
  foldM (λ m k, remove_ground_image k m) m ks = Some m' →
  dict_get a (aerial m) = Some ai →
  ∃ ai', dict_get a (aerial m') = Some ai' ∧
    ∀ g, g ∉ ks →
      (g ∈ a_positive ai' ↔ g ∈ a_positive ai) ∧
      (g ∈ a_semi_positive ai' ↔ g ∈ a_semi_positive ai).
Proof.
  induction ks as [|k ks IH]; intros m m' a ai Hrun Ha; simpl in Hrun.
  - simplify_eq. by exists ai.
  - apply bind_Some in Hrun as (m1 & Hrm & Hrun).
    destruct (remove_ground_image_edges k m m1 a ai Hrm Ha) as (ai1 & Ha1 & H1).
    destruct (IH m1 m' a ai1 Hrun Ha1) as (ai' & Ha' & H').
    exists ai'. split; [done|]. intros g [Hk Hks]%not_elem_of_cons.
    destruct (H1 g Hk) as [Hp1 Hs1]. destruct (H' g Hks) as [Hp' Hs'].
    split; [by rewrite Hp', Hp1 | by rewrite Hs', Hs1].
Qed.

Section Capping.
Context {R : Type} `{RandomSource R}.

Lemma cap_tile_keeps_scrubbed max g (m : Manifest) (r : R) a m' r' :
  ground_scrubbed g m → cap_tile max (m, r) a = Some (m', r') → ground_scrubbed g m'.
Proof.
  intros Hs Hrun.
  apply cap_tile_cases in Hrun as [[= -> ->]|(ai & smp & m1 & Ha & Hsmp & Hrm & ->)]; [done|].
  apply py_sample_Some in Hsmp as (_ & Hsub & _).
  pose proof (remove_ground_images_keep_scrubbed g _ _ _ Hs Hrm) as [Hg1 Ha1].
  split; simpl; [done|].
  intros a' ai'. rewrite dict_get_alter. case_decide as Haa; [subst a'|by apply Ha1].
  intros (ai1 & Hai1 & ->)%fmap_Some. simpl. split; [|by apply (Ha1 a ai1)].
  intros Hin. destruct (proj2 Hs a ai Ha) as [Hp _]. apply Hp.
  by eapply elem_of_submseteq.
Qed.

Lemma cap_tiles_keep_scrubbed max g ks : ∀ (m : Manifest) (r : R) mf rf,
  ground_scrubbed g m → foldM (cap_tile max) (m, r) ks = Some (mf, rf) →
  ground_scrubbed g mf.
Proof.
  intros m r mf rf Hs Hrun.
  apply (foldM_invariant (λ s : St, ground_scrubbed g s.1) (cap_tile max) _) in Hrun;
    [done| |done].
  intros [m0 r0] x [m1 r1]. apply cap_tile_keeps_scrubbed.
Qed.

(** The iteration on a tile above the maximum returns, on a well-formed
    manifest: the draw is legal and every leftover is a distinct key of
    the ground dictionary. *)
Lemma cap_tile_sampled_returns
    (max : Z) (m : Manifest) (r : R) (a : key) (ai : AerialItem) :
  wf m → 0 < max → dict_get a (aerial m) = Some ai →
  max < Z.of_nat (length (a_positive ai)) →
  ∃ smp r1 m1,
    py_sample r (a_positive ai) max = Some (smp, r1) ∧
    foldM (λ m k, remove_ground_image k m) m
      (filter (λ x, x ∉ smp) (a_positive ai)) = Some m1 ∧
    cap_tile max (m, r) a
    = Some (mkManifest (dict_alter (set_a_positive smp) a (aerial m1)) (ground m1), r1).
Proof.
  intros (Hk & Hc & Hnd & Hcl) Hmax Ha Hlen.
  apply dict_get_Some_elem in Ha as Hain.
  destruct (proj1 Hnd a ai Hain) as [Hndp _].
  set (smp := (sample r (a_positive ai) (Z.to_nat max)).1).
  set (r1 := (sample r (a_positive ai) (Z.to_nat max)).2).
  assert (py_sample r (a_positive ai) max = Some (smp, r1)) as Hsmp.
  { unfold py_sample. rewrite bool_decide_eq_true_2 by lia.
    unfold smp, r1. by destruct (sample _ _ _). }
  destruct (remove_ground_images_total (filter (λ x, x ∉ smp) (a_positive ai)) m)
    as [m1 Hrm].
  { by apply NoDup_filter. }
  { intros k [_ Hin]%list_elem_of_filter. apply (proj1 Hcl a ai k Hain). by left. }
  exists smp, r1, m1. split_and!; [done..|].
  unfold cap_tile. simpl. rewrite Ha. simpl.
  rewrite !bool_decide_eq_true_2 by lia. simpl.
  rewrite Hsmp. simpl. rewrite Hrm. done.
Qed.

(** C5, as the code has it. With a positive maximum, when the loop
    reaches an aerial tile whose positive list is longer than the
    maximum, on a well-formed manifest, the iteration succeeds; the tile
    keeps a sample of exactly the maximum size, drawn from its positive
    list at distinct positions by the generator; and every positive that
    is not in the sample is pruned from the whole manifest: its ground
    entry is deleted and no aerial tile names it any more, in its
    positive or in its semi-positive list, at the end of the iteration
    and after any later iterations of the loop. Nothing else is touched:
    every other ground image, kept or not concerned, has its entry as it
    was, every tile is still there, and its lists name the same ground
    images as before, the pruned ones apart. That the draw is uniform is
    the generator's business. *)
Theorem positive_capping_prunes_excluded
    (max : Z) (m : Manifest) (r : R) (a : key) (ai : AerialItem) :
  wf m →
  0 < max →
  dict_get a (aerial m) = Some ai →
  max < Z.of_nat (length (a_positive ai)) →
  ∃ kept m' r',
    cap_tile max (m, r) a = Some (m', r') ∧
    kept ⊆+ a_positive ai ∧
    length kept = Z.to_nat max ∧
    a_positive <$> dict_get a (aerial m') = Some kept ∧
    (∀ g, g ∈ a_positive ai → g ∉ kept →
       ground_scrubbed g m' ∧
       ∀ ks mf rf, foldM (cap_tile max) (m', r') ks = Some (mf, rf) →
                   ground_scrubbed g mf) ∧
    (∀ g, ¬ (g ∈ a_positive ai ∧ g ∉ kept) →
       dict_get g (ground m') = dict_get g (ground m)) ∧
    dict_keys (aerial m') = dict_keys (aerial m) ∧
    (∀ a' ai0, dict_get a' (aerial m) = Some ai0 →
       ∃ ai', dict_get a' (aerial m') = Some ai' ∧
         ∀ g, ¬ (g ∈ a_positive ai ∧ g ∉ kept) →
           (g ∈ a_positive ai' ↔ g ∈ a_positive ai0) ∧
           (g ∈ a_semi_positive ai' ↔ g ∈ a_semi_positive ai0)).
Proof.
  intros Hwf Hmax Ha Hlen.
  destruct (cap_tile_sampled_returns max m r a ai Hwf Hmax Ha Hlen)
    as (smp & r1 & m1 & Hsmp & Hrm & Hrun).
  destruct Hwf as (Hk & Hc & Hnd & Hcl).
  apply py_sample_Some in Hsmp as Hs. destruct Hs as (_ & Hsub & Hslen).
  assert (dict_keys (aerial m1) = dict_keys (aerial m)) as Hkeys.
  { clear -Hrm. revert m Hrm.
    induction (filter _ _) as [|k ks IH]; intros m Hrm; simpl in Hrm; [by simplify_eq|].
    destruct (remove_ground_image k m) as [m2|] eqn:E; simpl in Hrm; [|done].
    rewrite (IH _ Hrm). apply remove_ground_image_Some in E as [_ ->]. simpl.
    apply dict_keys_map. }
  assert (∀ g, ¬ (g ∈ a_positive ai ∧ g ∉ smp) →
               g ∉ filter (λ x, x ∉ smp) (a_positive ai)) as Hout.
  { intros g Hg [Hn Hin]%list_elem_of_filter. by apply Hg. }
  eexists smp, _, r1. split; [exact Hrun|]. split_and!; [done|done| | | | |].
  - simpl. rewrite dict_get_alter, decide_True by done.
    assert (is_Some (dict_get a (aerial m1))) as [ai1 Hai1].
    { apply dict_get_is_Some. rewrite Hkeys. by apply dict_get_is_Some. }
    by rewrite Hai1.
  - intros g Hg Hng.
    assert (ground_scrubbed g
              (mkManifest (dict_alter (set_a_positive smp) a (aerial m1)) (ground m1)))
      as Hscr.
    { assert (ground_scrubbed g m1) as [Hg1 Ha1].
      { eapply remove_ground_images_scrub; [done| |done]. by apply list_elem_of_filter. }
      split; simpl; [done|].
      intros a' ai'. rewrite dict_get_alter. case_decide as Haa; [subst a'|by apply Ha1].
      intros (ai1 & Hai1 & ->)%fmap_Some. simpl. split; [done|by apply (Ha1 a ai1)]. }
    split; [done|]. intros ks mf rf. by apply cap_tiles_keep_scrubbed.
  - intros g Hg. simpl. rewrite (remove_ground_images_get _ _ _ g Hrm).
    by rewrite decide_False by by apply Hout.
  - simpl. by rewrite dict_keys_alter.
  - intros a' ai0 Ha'. simpl.
    destruct (remove_ground_images_edges _ _ _ a' ai0 Hrm Ha') as (ai1 & Ha1 & Hedges).
    rewrite dict_get_alter. case_decide as Haa.
    + subst a'. assert (ai0 = ai) as -> by congruence. rewrite Ha1. simpl.
      eexists. split; [done|]. intros g Hg. simpl. split.
      * split; [intros Hin; by eapply elem_of_submseteq|]. intros Hin.
        destruct (decide (g ∈ smp)); [done|]. by destruct Hg.
      * by apply Hedges, Hout.
    + exists ai1. split; [done|]. intros g Hg. by apply Hedges, Hout.
Qed.

End Capping.

(** The claim of C5 fails at a maximum of 0: the test of the loop is
    [args.max_positive_panoramas and ...], so the tile with five positives
    is left with its five, and no subset of size 0 is kept. *)
Lemma capping_at_any_maximum_counterexample :
  ¬ (∀ (max : Z) (m : Manifest) (r : nat) (a : key) (ai : AerialItem),
       wf m →
       dict_get a (aerial m) = Some ai →
       max < Z.of_nat (length (a_positive ai)) →
       ∃ kept m' r',
         cap_tile max (m, r) a = Some (m', r') ∧
         length kept = Z.to_nat max ∧
         a_positive <$> dict_get a (aerial m') = Some kept).
Proof.
  intros Hc.
  destruct (Hc 0 five_on_T1 0%nat "T1.png" _ five_on_T1_wf eq_refl)
    as (kept & m' & r' & Hrun & Hlen & Hkept); [simpl; lia|].
  vm_compute in Hrun. injection Hrun as <- <-.
  vm_compute in Hkept. injection Hkept as <-. discriminate Hlen.
Qed.

Lemma positive_capping_prunes_excluded_witness :
  ∃ kept m' r',
    cap_tile 2 (five_on_T1, 1%nat) "T1.png" = Some (m', r') ∧
    kept ⊆+ ["a/G_0001_1.png"; "a/G_0001_2.png"; "a/G_0002_3.png";
              "a/G_0003_4.png"; "a/G_0003_5.png"] ∧
    length kept = 2%nat ∧
    a_positive <$> dict_get "T1.png" (aerial m') = Some kept ∧
    (∀ g, g ∈ ["a/G_0001_1.png"; "a/G_0001_2.png"; "a/G_0002_3.png";
               "a/G_0003_4.png"; "a/G_0003_5.png"] → g ∉ kept →
       ground_scrubbed g m' ∧
       ∀ ks mf rf, foldM (cap_tile 2) (m', r') ks = Some (mf, rf) →
                   ground_scrubbed g mf) ∧
    (∀ g, ¬ (g ∈ ["a/G_0001_1.png"; "a/G_0001_2.png"; "a/G_0002_3.png";
                   "a/G_0003_4.png"; "a/G_0003_5.png"] ∧ g ∉ kept) →
       dict_get g (ground m') = dict_get g (ground five_on_T1)) ∧
    dict_keys (aerial m') = dict_keys (aerial five_on_T1) ∧
    (∀ a' ai0, dict_get a' (aerial five_on_T1) = Some ai0 →
       ∃ ai', dict_get a' (aerial m') = Some ai' ∧
         ∀ g, ¬ (g ∈ ["a/G_0001_1.png"; "a/G_0001_2.png"; "a/G_0002_3.png";
                       "a/G_0003_4.png"; "a/G_0003_5.png"] ∧ g ∉ kept) →
           (g ∈ a_positive ai' ↔ g ∈ a_positive ai0) ∧
           (g ∈ a_semi_positive ai' ↔ g ∈ a_semi_positive ai0)).
Proof.
  apply (positive_capping_prunes_excluded 2 five_on_T1 1%nat "T1.png"
           (tile ["a/G_0001_1.png"; "a/G_0001_2.png"; "a/G_0002_3.png";
                  "a/G_0003_4.png"; "a/G_0003_5.png"] [])).
  - apply wf_check_sound. by apply (bool_decide_unpack _).
  - lia.
  - reflexivity.
  - simpl. lia.
Defined.

(** The scenario of the specification: [T1] goes from five positives to
    two, and the three panoramas left out disappear from the manifest,
    with the semi-positive edges they had to [T2]. *)
Lemma capping_scenario :
  ∃ m' r',
    cap_positives 2 (five_on_T1, 0%nat) = Some (m', r') ∧
    a_positive <$> dict_get "T1.png" (aerial m') = Some ["a/G_0001_1.png"; "a/G_0001_2.png"] ∧
    a_semi_positive <$> dict_get "T2.png" (aerial m') = Some [] ∧
    dict_keys (ground m') = ["a/G_0001_1.png"; "a/G_0001_2.png"].
Proof. eexists _, _. split; [vm_compute; reflexivity|]. by vm_compute. Qed.

(** ** Startup: the two proportions *)

Lemma Qle_bool_false x y : Qle_bool x y = false ↔ (y < x)%Q.
Proof.
  rewrite <- Bool.not_true_iff_false, Qle_bool_iff. split.
  - apply Qnot_le_lt.
  - apply Qlt_not_le.
Qed.

Lemma clamp_clamped p : clamped p (clamp p).
Proof.
  destruct p as [q| | |]; unfold clamp, py_min, py_max; simpl;
    try (vm_compute; constructor).
  destruct (Qle_bool q 1) eqn:Hq1; simpl.
  - apply Qle_bool_iff in Hq1. destruct (Qle_bool 0 q) eqn:Hq0; simpl.
    + apply Qle_bool_iff in Hq0. by constructor.
    + apply Qle_bool_false in Hq0. by constructor.
  - apply Qle_bool_false in Hq1. by constructor.
Qed.

(** The claim of C9 fails: a distraction proportion of 1.5 and a train
    proportion of -0.5 are out of range, and the script starts. *)
Lemma startup_rejects_counterexample :
  ¬ (∀ args : Args,
       out_of_range (distraction_proportion args) ∨ out_of_range (train_proportion args) →
       startup args = None).
Proof.
  intros Hc.
  specialize (Hc (mkArgs (Fin 2%Q) 2 (Fin (3 # 2)%Q) (Fin (-1 # 2)%Q))).
  discriminate Hc. left. by right.
Qed.

(** C9, as the code has it. Startup never fails on a proportion: it
    replaces each of the two by its clamp, before the manifest is loaded.
    A proportion above 1 becomes 1.0, one below 0 becomes 0, one inside
    [0, 1] is kept, and a NaN stays a NaN. The other options are not
    touched. *)
Theorem startup_clamps_proportions (args : Args) :
  ∃ args',
    startup args = Some args' ∧
    clamped (distraction_proportion args) (distraction_proportion args') ∧
    clamped (train_proportion args) (train_proportion args') ∧
    panorama_aspect_ratio args' = panorama_aspect_ratio args ∧
    max_positive_panoramas args' = max_positive_panoramas args.
Proof.
  eexists. split; [reflexivity|]. simpl. split_and!; try done; apply clamp_clamped.
Qed.

(** ** Runs and the state of the generator *)

Lemma within_cap_check max m :
  Forall (λ q, Z.of_nat (length (a_positive q.2)) ≤ max) (aerial m) → within_cap max m.
Proof. intros HF a ai Hin. rewrite Forall_forall in HF. apply (HF _ Hin). Qed.

Lemma remove_ground_image_within_cap max k m m' :
  within_cap max m → remove_ground_image k m = Some m' → within_cap max m'.
Proof.
  intros Hw [_ ->]%remove_ground_image_Some a ai'. simpl.
  intros (ai & -> & Hin)%elem_dict_map. simpl.
  pose proof (scrub_length k (a_positive ai)). specialize (Hw a ai Hin). lia.
Qed.

Lemma remove_aerial_image_within_cap max k m m' :
  within_cap max m → remove_aerial_image k m = Some m' → within_cap max m'.
Proof.
  intros Hw [_ ->]%remove_aerial_image_Some a ai. simpl.
  intros [_ Hin]%elem_dict_del. by apply (Hw a).
Qed.

Lemma remove_image_within_cap max k m m' :
  within_cap max m → remove_image k m = Some m' → within_cap max m'.
Proof.
  unfold remove_image. intros Hc.
  destruct (dict_mem k (aerial m)); [by apply remove_aerial_image_within_cap|].
  destruct (dict_mem k (ground m)); [by apply remove_ground_image_within_cap|].
  by intros [= <-].
Qed.

Section Runs.
Context {R : Type} `{RandomSource R}.

Lemma cap_tiles_noop max (m : Manifest) (r : R) ks :
  within_cap max m → ks ⊆ dict_keys (aerial m) →
  foldM (cap_tile max) (m, r) ks = Some (m, r).
Proof.
  intros Hw. induction ks as [|a ks IH]; intros Hks; simpl; [done|].
  assert (a ∈ dict_keys (aerial m)) as Ha by (apply Hks; left).
  apply dict_get_is_Some in Ha as [ai Hai].
  assert (cap_tile max (m, r) a = Some (m, r)) as ->.
  { unfold cap_tile. simpl. rewrite Hai. simpl.
    apply dict_get_Some_elem, Hw in Hai.
    rewrite (bool_decide_eq_false_2 (max < _)) by lia.
    by rewrite andb_false_r. }
  simpl. apply IH. intros x Hx. apply Hks. by right.
Qed.

Lemma cap_positives_noop max (m : Manifest) (r : R) :
  within_cap max m → cap_positives max (m, r) = Some (m, r).
Proof. intros Hw. by apply cap_tiles_noop. Qed.

Lemma sample_zero (r : R) l : (sample r l 0).1 = [].
Proof. apply nil_length_inv, sample_length. lia. Qed.

Lemma remove_distractions_keep_all (m : Manifest) (r : R) :
  fst <$> remove_distractions (Fin 1%Q) (m, r) = Some m.
Proof.
  unfold remove_distractions. simpl.
  match goal with |- context [py_sample r _ ?c] => change c with 0 end.
  unfold py_sample. rewrite bool_decide_eq_true_2 by lia. simpl.
  change (Z.to_nat 0) with 0%nat.
  pose proof (sample_zero r (distractions m)) as Hz.
  destruct (sample r (distractions m) 0) as [xs r1]. simpl in *. by subst xs.
Qed.

(** C3, as the code has it. The curated manifest does not depend on the
    state of the generator when no sampling step has a choice to make:
    no tile has more positives than the maximum, and the distraction
    proportion is 1.0, so that nothing is removed among the distractions.
    Then two runs on the same manifest and options, from any two states of
    the generator, fail together or leave the same manifest. *)
Theorem curation_independent_of_generator
    (args : Args) (m : Manifest) (r1 r2 : R) :
  within_cap (max_positive_panoramas args) m →
  distraction_proportion args = Fin 1%Q →
  fst <$> curate args (m, r1) = fst <$> curate args (m, r2).
Proof.
  intros Hw Hd. unfold curate. simpl. unfold lift. simpl.
  destruct (remove_duplicates m) as [m1|] eqn:H1; simpl; [|done].
  destruct (remove_spaces m1) as [m2|] eqn:H2; simpl; [|done].
  destruct (remove_non_panoramas _ m2) as [m3|] eqn:H3; simpl; [|done].
  assert (within_cap (max_positive_panoramas args) m3) as Hw3.
  { eapply remove_non_panoramas_preserves; [apply remove_ground_image_within_cap| |done].
    eapply remove_spaces_preserves; [apply remove_image_within_cap| |done].
    eapply remove_duplicates_preserves; [apply remove_image_within_cap| |done]. done. }
  rewrite !cap_positives_noop by done. simpl. rewrite Hd.
  pose proof (remove_distractions_keep_all m3 r1) as E1.
  pose proof (remove_distractions_keep_all m3 r2) as E2.
  destruct (remove_distractions _ (m3, r1)) as [[m4 r1']|]; [|done].
  destruct (remove_distractions _ (m3, r2)) as [[m4' r2']|]; [|done].
  simpl in *. simplify_eq. by destruct (remove_few_semi_positives m3).
Qed.

End Runs.

(** The claim of C3 fails. The options hold no seed and the scripts never
    set the state of the generator, so two runs on the same options and
    manifest start from two states; from states 0 and 1 of the example
    generator, capping [T1] keeps different panoramas and the curated
    manifests differ. *)
Lemma same_inputs_same_manifest_counterexample :
  ¬ (∀ (args : Args) (m : Manifest) (r1 r2 : nat),
       fst <$> curate args (m, r1) = fst <$> curate args (m, r2)).
Proof.
  intros Hc. specialize (Hc default_args three_on_T1 0%nat 1%nat).
  vm_compute in Hc. discriminate Hc.
Qed.

Lemma curation_independent_of_generator_witness :
  fst <$> curate three_allowed (three_on_T1, 0%nat)
  = fst <$> curate three_allowed (three_on_T1, 7%nat).
Proof.
  apply (curation_independent_of_generator three_allowed three_on_T1 0%nat 7%nat).
  - apply within_cap_check. by apply (bool_decide_unpack _).
  - reflexivity.
Defined.

(** ** Split files *)

Lemma string_app_assoc (s1 s2 s3 : string) : (s1 +:+ s2) +:+ s3 = s1 +:+ s2 +:+ s3.
Proof.
  induction s1 as [|c s1 IH]; [reflexivity|].
  change (String c ((s1 +:+ s2) +:+ s3) = String c (s1 +:+ s2 +:+ s3)). by f_equal.
Qed.

Lemma getvalue_app (l1 l2 : list string) : getvalue (l1 ++ l2) = getvalue l1 +:+ getvalue l2.
Proof.
  induction l1 as [|s l1 IH]; [done|].
  change (s +:+ getvalue (l1 ++ l2) = (s +:+ getvalue l1) +:+ getvalue l2).
  by rewrite IH, string_app_assoc.
Qed.

Lemma string_app_empty_r (s : string) : s +:+ "" = s.
Proof.
  induction s as [|c s IH]; [reflexivity|].
  change (String c (s +:+ "") = String c s). by f_equal.
Qed.

Lemma mapM_ext_in {A B} (f g : A → option B) (l : list A) :
  (∀ x, x ∈ l → f x = g x) → mapM f l = mapM g l.
Proof.
  induction l as [|x l IH]; intros Hfg; [done|].
  simpl. rewrite (Hfg x) by left. rewrite IH; [done|].
  intros y Hy. apply Hfg. by right.
Qed.

Section SplitFileFacts.
Variable t_px : pyval → pyval → Z * Z.

Lemma write_semi_positive_entry m gi buf a :
  write_semi_positive t_px m gi buf a
  = (λ s, buf ++ [" " +:+ s]) <$> tile_with_offset t_px m gi a.
Proof.
  unfold write_semi_positive, tile_with_offset. by destruct (dict_get a (aerial m)).
Qed.

Lemma write_semi_positives_entries m gi semis : ∀ buf,
  foldM (write_semi_positive t_px m gi) buf semis
  = (λ ss, buf ++ ((λ s, " " +:+ s) <$> ss)) <$> mapM (tile_with_offset t_px m gi) semis.
Proof.
  induction semis as [|a semis IH]; intros buf; simpl.
  - by rewrite app_nil_r.
  - rewrite write_semi_positive_entry.
    destruct (tile_with_offset t_px m gi a) as [s|]; simpl; [|done].
    rewrite IH. destruct (mapM _ semis) as [ss|]; simpl; [|done].
    by rewrite <- app_assoc.
Qed.

Lemma tile_with_offset_unfold m gi a :
  tile_with_offset t_px m gi a
  = ai ← dict_get a (aerial m);
    Some (path_name a +:+ " " +:+ pretty (offset_to t_px gi ai).2 +:+ " " +:+
          pretty (offset_to t_px gi ai).1).
Proof. reflexivity. Qed.

Lemma write_positive_line m g gi buf a :
  getvalue <$> write_positive t_px m (path_name g) gi buf a
  = (λ line, getvalue buf +:+ line) <$> correspondence_line t_px m g gi a.
Proof.
  unfold write_positive, correspondence_line.
  rewrite (tile_with_offset_unfold m gi a).
  destruct (dict_get a (aerial m)) as [ai|]; simpl; [|done].
  rewrite write_semi_positives_entries.
  destruct (mapM _ _) as [ss|]; simpl; [|done].
  f_equal. rewrite !getvalue_app. simpl.
  rewrite string_app_empty_r, !string_app_assoc. done.
Qed.

Lemma write_positives_lines m g gi ps : ∀ buf,
  getvalue <$> foldM (write_positive t_px m (path_name g) gi) buf ps
  = (λ ls, getvalue buf +:+ getvalue ls) <$> mapM (correspondence_line t_px m g gi) ps.
Proof.
  induction ps as [|a ps IH]; intros buf; simpl.
  - by rewrite string_app_empty_r.
  - pose proof (write_positive_line m g gi buf a) as Hstep.
    destruct (write_positive t_px m (path_name g) gi buf a) as [buf'|];
      destruct (correspondence_line t_px m g gi a) as [line|]; simpl in *; try done.
    rewrite IH. destruct (mapM _ ps) as [ls|]; simpl; [|done].
    simplify_eq. by rewrite Hstep, string_app_assoc.
Qed.

Lemma write_grounds_lines m set : ∀ buf,
  getvalue <$> foldM (write_ground (write_positive t_px) m) buf set
  = (λ lines, getvalue buf +:+ getvalue (concat lines))
      <$> mapM (correspondence_lines t_px m) set.
Proof.
  induction set as [|g set IH]; intros buf; simpl.
  - by rewrite string_app_empty_r.
  - assert (write_ground (write_positive t_px) m buf g
            = gi ← dict_get g (ground m);
              foldM (write_positive t_px m (path_name g) gi) buf (g_positive gi)) as ->
      by reflexivity.
    assert (correspondence_lines t_px m g
            = gi ← dict_get g (ground m);
              mapM (correspondence_line t_px m g gi) (g_positive gi)) as ->
      by reflexivity.
    destruct (dict_get g (ground m)) as [gi|]; simpl; [|done].
    pose proof (write_positives_lines m g gi (g_positive gi) buf) as Hstep.
    destruct (foldM _ buf (g_positive gi)) as [buf'|];
      destruct (mapM _ (g_positive gi)) as [ls|]; simpl in *; try done.
    rewrite IH. destruct (mapM _ set) as [lines|]; simpl; [|done].
    simplify_eq. by rewrite Hstep, getvalue_app, string_app_assoc.
Qed.

Lemma write_positive_train_enough m name gi buf a :
  (3 ≤ length (g_semi_positive gi))%nat →
  write_positive_train t_px m name gi buf a = write_positive t_px m name gi buf a.
Proof.
  intros Hlen. unfold write_positive_train, write_positive.
  destruct (dict_get a (aerial m)); simpl; [|done].
  by rewrite bool_decide_eq_false_2 by lia.
Qed.

Lemma foldM_ext {A S} (f g : S → A → option S) l :
  (∀ s x, x ∈ l → f s x = g s x) → ∀ s, foldM f s l = foldM g s l.
Proof.
  induction l as [|x l IH]; intros Hfg s; simpl; [done|].
  rewrite Hfg by left. destruct (g s x); simpl; [|done].
  apply IH. intros s' y Hy. apply Hfg. by right.
Qed.

Lemma enough_semi_positives_check m set :
  Forall (λ g, (3 ≤ default 3 (length ∘ g_semi_positive <$> dict_get g (ground m)))%nat) set →
  enough_semi_positives m set.
Proof.
  intros HF g gi Hg Hgi. rewrite Forall_forall in HF. specialize (HF g Hg).
  by rewrite Hgi in HF.
Qed.

Lemma tile_with_offset_total m gi a :
  a ∈ dict_keys (aerial m) → is_Some (tile_with_offset t_px m gi a).
Proof.
  intros [ai Hai]%dict_get_is_Some. rewrite tile_with_offset_unfold, Hai. by eexists.
Qed.

Lemma correspondence_lines_total m g :
  wf m → g ∈ dict_keys (ground m) → is_Some (correspondence_lines t_px m g).
Proof.
  intros (_ & _ & _ & [_ Hcl]) [gi Hgi]%dict_get_is_Some.
  unfold correspondence_lines. rewrite Hgi. simpl.
  apply dict_get_Some_elem in Hgi.
  apply mapM_is_Some, Forall_forall. intros a Ha. simpl.
  unfold correspondence_line.
  destruct (tile_with_offset_total m gi a) as [p ->].
  { apply (Hcl g gi a Hgi). by left. }
  simpl.
  assert (is_Some (mapM (tile_with_offset t_px m gi) (take 3 (g_semi_positive gi))))
    as [ss ->]; [|by eexists].
  apply mapM_is_Some, Forall_forall. intros a' Ha'. simpl.
  apply tile_with_offset_total, (Hcl g gi a' Hgi). right.
  by apply (subseteq_take 3 (g_semi_positive gi)).
Qed.

Lemma write_positive_train_line m g gi buf a :
  getvalue <$> write_positive_train t_px m (path_name g) gi buf a
  = (λ line, getvalue buf +:+ line) <$> train_line t_px m g gi a.
Proof.
  unfold train_line. case_bool_decide as Hlen.
  - unfold write_positive_train. rewrite tile_with_offset_unfold.
    destruct (dict_get a (aerial m)) as [ai|]; simpl; [|done].
    rewrite bool_decide_eq_true_2 by done. simpl.
    f_equal. rewrite getvalue_app. simpl. by rewrite string_app_empty_r.
  - rewrite write_positive_train_enough by lia. apply write_positive_line.
Qed.

Lemma write_positives_train_lines m g gi ps : ∀ buf,
  getvalue <$> foldM (write_positive_train t_px m (path_name g) gi) buf ps
  = (λ ls, getvalue buf +:+ getvalue ls) <$> mapM (train_line t_px m g gi) ps.
Proof.
  induction ps as [|a ps IH]; intros buf; simpl.
  - by rewrite string_app_empty_r.
  - pose proof (write_positive_train_line m g gi buf a) as Hstep.
    destruct (write_positive_train t_px m (path_name g) gi buf a) as [buf'|];
      destruct (train_line t_px m g gi a) as [line|]; simpl in *; try done.
    rewrite IH. destruct (mapM _ ps) as [ls|]; simpl; [|done].
    simplify_eq. by rewrite Hstep, string_app_assoc.
Qed.

Lemma write_grounds_train_lines m set : ∀ buf,
  getvalue <$> foldM (write_ground (write_positive_train t_px) m) buf set
  = (λ lines, getvalue buf +:+ getvalue (concat lines))
      <$> mapM (train_lines t_px m) set.
Proof.
  induction set as [|g set IH]; intros buf; simpl.
  - by rewrite string_app_empty_r.
  - assert (write_ground (write_positive_train t_px) m buf g
            = gi ← dict_get g (ground m);
              foldM (write_positive_train t_px m (path_name g) gi) buf (g_positive gi)) as ->
      by reflexivity.
    assert (train_lines t_px m g
            = gi ← dict_get g (ground m);
              mapM (train_line t_px m g gi) (g_positive gi)) as ->
      by reflexivity.
    destruct (dict_get g (ground m)) as [gi|]; simpl; [|done].
    pose proof (write_positives_train_lines m g gi (g_positive gi) buf) as Hstep.
    destruct (foldM _ buf (g_positive gi)) as [buf'|];
      destruct (mapM _ (g_positive gi)) as [ls|]; simpl in *; try done.
    rewrite IH. destruct (mapM _ set) as [lines|]; simpl; [|done].
    simplify_eq. by rewrite Hstep, getvalue_app, string_app_assoc.
Qed.

Lemma train_lines_enough m g gi :
  dict_get g (ground m) = Some gi → (3 ≤ length (g_semi_positive gi))%nat →
  train_lines t_px m g = correspondence_lines t_px m g.
Proof.
  intros Hgi Hlen. unfold train_lines, correspondence_lines. rewrite Hgi. simpl.
  apply mapM_ext. intros a. unfold train_line.
  by rewrite bool_decide_eq_false_2 by lia.
Qed.

Lemma train_lines_total m g :
  wf m → g ∈ dict_keys (ground m) → is_Some (train_lines t_px m g).
Proof.
  intros (_ & _ & _ & [_ Hcl]) [gi Hgi]%dict_get_is_Some.
  unfold train_lines. rewrite Hgi. simpl.
  apply dict_get_Some_elem in Hgi.
  apply mapM_is_Some, Forall_forall. intros a Ha. simpl.
  unfold train_line, correspondence_line.
  assert (is_Some (tile_with_offset t_px m gi a)) as [p ->].
  { apply tile_with_offset_total, (Hcl g gi a Hgi). by left. }
  simpl. case_bool_decide; [by eexists|].
  assert (is_Some (mapM (tile_with_offset t_px m gi) (take 3 (g_semi_positive gi))))
    as [ss ->]; [|by eexists].
  apply mapM_is_Some, Forall_forall. intros a' Ha'. simpl.
  apply tile_with_offset_total, (Hcl g gi a' Hgi). right.
  by apply (subseteq_take 3 (g_semi_positive gi)).
Qed.

(** C6, as the code has it. For the ground images of a set, in order,
    the split file holds one correspondence line for every entry of the
    image's positive list, and so none for an image without a positive
    tile. A line is the ground name, the positive tile's name with its
    offset, then the first three entries at most of the semi-positive
    list, each with its offset, then a newline; an offset is the pixel of
    the ground location minus the pixel of the tile's center, written row
    first. On a well-formed manifest the file is written for any set of
    manifest keys, whatever the number of semi-positive tiles of an
    image. The train file of the MK script differs for an image with
    fewer than three semi-positive tiles: for each positive tile it holds
    the head of the line only, without a newline; it is the same text
    when every image of the set has three semi-positive tiles or
    more. *)
Theorem split_file_is_lines_per_positive (m : Manifest) (set : list key) :
  wf m →
  set ⊆ dict_keys (ground m) →
  ∃ lines train,
    mapM (correspondence_lines t_px m) set = Some lines ∧
    Forall2 (λ g ls, (length <$> (g_positive <$> dict_get g (ground m))) = Some (length ls))
            set lines ∧
    split_file t_px m set = Some (getvalue (concat lines)) ∧
    mapM (train_lines t_px m) set = Some train ∧
    Forall2 (λ g ls, (length <$> (g_positive <$> dict_get g (ground m))) = Some (length ls))
            set train ∧
    split_file_train t_px m set = Some (getvalue (concat train)) ∧
    (enough_semi_positives m set → train = lines).
Proof.
  intros Hwf Hset.
  assert (is_Some (mapM (correspondence_lines t_px m) set)) as [lines Hlines].
  { apply mapM_is_Some, Forall_forall. intros g Hg. simpl.
    by apply correspondence_lines_total, Hset. }
  assert (is_Some (mapM (train_lines t_px m) set)) as [train Htrain].
  { apply mapM_is_Some, Forall_forall. intros g Hg. simpl.
    by apply train_lines_total, Hset. }
  exists lines, train. split_and!; [done| | |done| | |].
  - apply mapM_Some in Hlines. eapply Forall2_impl; [exact Hlines|].
    intros g ls. simpl. unfold correspondence_lines.
    destruct (dict_get g (ground m)) as [gi|]; simpl; [|done].
    intros Hls%mapM_Some%Forall2_length. by rewrite Hls.
  - unfold split_file. rewrite write_grounds_lines, Hlines. done.
  - apply mapM_Some in Htrain. eapply Forall2_impl; [exact Htrain|].
    intros g ls. simpl. unfold train_lines.
    destruct (dict_get g (ground m)) as [gi|]; simpl; [|done].
    intros Hls%mapM_Some%Forall2_length. by rewrite Hls.
  - unfold split_file_train. rewrite write_grounds_train_lines, Htrain. done.
  - intros Hsemi.
    assert (mapM (train_lines t_px m) set = mapM (correspondence_lines t_px m) set) as Heq.
    { apply mapM_ext_in. intros g Hg.
      destruct (proj2 (dict_get_is_Some _ _) (Hset g Hg)) as [gi Hgi].
      apply (train_lines_enough m g gi Hgi). by apply (Hsemi g). }
    congruence.
Qed.

End SplitFileFacts.

(** The claim of C6 fails: the image with two positive tiles gets two
    lines, the image with none gets no line. *)
Lemma one_line_per_ground_image_counterexample :
  ¬ (∀ (t_px : pyval → pyval → Z * Z) (m : Manifest) (set : list key) (out : string),
       split_file t_px m set = Some out → line_count out = length set).
Proof.
  intros Hc.
  pose proof (Hc length_px shared_pano ["a/P_0001_1.png"] _ eq_refl) as H1.
  vm_compute in H1. discriminate H1.
Qed.

Lemma split_file_is_lines_per_positive_witness :
  ∃ lines train,
    mapM (correspondence_lines length_px shared_pano)
         ["a/P_0001_1.png"; "a/P_0002_2.png"] = Some lines ∧
    Forall2 (λ g ls, (length <$> (g_positive <$> dict_get g (ground shared_pano)))
                     = Some (length ls))
            ["a/P_0001_1.png"; "a/P_0002_2.png"] lines ∧
    split_file length_px shared_pano ["a/P_0001_1.png"; "a/P_0002_2.png"]
    = Some (getvalue (concat lines)) ∧
    mapM (train_lines length_px shared_pano)
         ["a/P_0001_1.png"; "a/P_0002_2.png"] = Some train ∧
    Forall2 (λ g ls, (length <$> (g_positive <$> dict_get g (ground shared_pano)))
                     = Some (length ls))
            ["a/P_0001_1.png"; "a/P_0002_2.png"] train ∧
    split_file_train length_px shared_pano ["a/P_0001_1.png"; "a/P_0002_2.png"]
    = Some (getvalue (concat train)) ∧
    (enough_semi_positives shared_pano ["a/P_0001_1.png"; "a/P_0002_2.png"] →
     train = lines).
Proof.
  apply (split_file_is_lines_per_positive length_px shared_pano
           ["a/P_0001_1.png"; "a/P_0002_2.png"]).
  - apply wf_check_sound. by apply (bool_decide_unpack _).
  - apply (bool_decide_unpack _). by vm_compute.
Defined.

(** The two files for the panorama of [shared_pano] that has two positive
    tiles and no semi-positive one: two lines in the test file, two heads
    without a newline in the train file of the MK script. *)
Example split_file_few_semi_positives :
  split_file length_px shared_pano ["a/P_0001_1.png"; "a/P_0002_2.png"]
  = Some ("P_0001_1.png T1.png 0 0" +:+ newline +:+ "P_0001_1.png T2.png 0 0" +:+ newline) ∧
  split_file_train length_px shared_pano ["a/P_0001_1.png"; "a/P_0002_2.png"]
  = Some ("P_0001_1.png T1.png 0 0P_0001_1.png T2.png 0 0").
Proof. split; reflexivity. Qed.

(** The text written for one panorama of [three_on_T1]. *)
Example split_file_example :
  split_file length_px three_on_T1 ["a/N_0002_2.png"]
  = Some ("N_0002_2.png T1.png 0 0 S1.png 0 0 S2.png 0 0 S3.png 0 0" +:+ newline).
Proof. reflexivity. Qed.

(** ** The train/test split *)

Lemma sol_at_is_Some s :
  is_Some (sol_at s) ↔
  ∃ d1 d2 d3 d4 post,
    s = String "_" (String d1 (String d2 (String d3 (String d4 (String "_" post)))))
    ∧ is_digit d1 = true ∧ is_digit d2 = true ∧ is_digit d3 = true ∧ is_digit d4 = true.
Proof.
  split.
  - destruct s as [|u1 [|d1 [|d2 [|d3 [|d4 [|u2 post]]]]]]; simpl; try by intros [? [=]].
    destruct (_ && _) eqn:Hb; [|by intros [? [=]]]. intros _.
    repeat (apply andb_true_iff in Hb as [Hb ?]).
    apply Ascii.eqb_eq in Hb. subst u1.
    match goal with Hu : Ascii.eqb u2 _ = true |- _ => apply Ascii.eqb_eq in Hu; subst u2 end.
    by exists d1, d2, d3, d4, post.
  - intros (d1 & d2 & d3 & d4 & post & -> & H1 & H2 & H3 & H4). simpl.
    rewrite H1, H2, H3, H4. simpl. by eexists.
Qed.

Lemma first_sol_is_Some s : is_Some (first_sol s) ↔ has_sol_segment s.
Proof.
  induction s as [|c s IH].
  - split.
    + by intros [? [=]].
    + intros (pre & d1 & d2 & d3 & d4 & post & Heq & _). by destruct pre.
  - change (first_sol (String c s)) with
      (match sol_at (String c s) with Some d => Some d | None => first_sol s end).
    destruct (sol_at (String c s)) as [d|] eqn:Hat.
    + split; [intros _|by eexists].
      destruct (proj1 (sol_at_is_Some (String c s))) as (d1 & d2 & d3 & d4 & post & Hs & Hd);
        [by eexists|].
      exists "", d1, d2, d3, d4, post. by rewrite Hs.
    + rewrite IH. split.
      * intros (pre & d1 & d2 & d3 & d4 & post & -> & Hd).
        by exists (String c pre), d1, d2, d3, d4, post.
      * intros (pre & d1 & d2 & d3 & d4 & post & Heq & Hd).
        destruct pre as [|c' pre].
        -- assert (is_Some (sol_at (String c s))) as [? Hs]; [|congruence].
           apply sol_at_is_Some. by exists d1, d2, d3, d4, post.
        -- injection Heq as -> ->. by exists pre, d1, d2, d3, d4, post.
Qed.

Lemma sol_num_is_Some k : is_Some (sol_num k) ↔ has_sol_segment k.
Proof. unfold sol_num. by rewrite fmap_is_Some, first_sol_is_Some. Qed.

Lemma assign_by_sol_Some sols ks tr te :
  assign_by_sol sols ks = Some (tr, te) →
  (∀ g, g ∈ tr ↔ g ∈ ks ∧ ∃ n, sol_num g = Some n ∧ n ∈ sols) ∧
  (∀ g, g ∈ te ↔ g ∈ ks ∧ ∃ n, sol_num g = Some n ∧ n ∉ sols).
Proof.
  revert tr te. induction ks as [|k ks IH]; simpl; intros tr te Hrun.
  - simplify_eq. split; intros g; rewrite elem_of_nil; by split; [|intros [? _]].
  - destruct (sol_num k) as [n|] eqn:Hn; simpl in Hrun; [|done].
    destruct (assign_by_sol sols ks) as [[tr' te']|]; simpl in Hrun; [|done].
    destruct (IH tr' te' eq_refl) as [Htr Hte].
    case_bool_decide as Hin; simplify_eq; split; intros g;
      rewrite ?elem_of_cons, ?Htr, ?Hte.
    + split.
      * intros [->|[? ?]]; [split; [by left | by exists n] | split; [by right | done]].
      * intros [[->|?] Hs]; [by left | right; done].
    + split.
      * intros [? ?]. split; [by right | done].
      * intros [[->|?] Hs]; [|done]. destruct Hs as (n' & Hn' & Hni). congruence.
    + split.
      * intros [? ?]. split; [by right | done].
      * intros [[->|?] Hs]; [|done]. destruct Hs as (n' & Hn' & Hni). congruence.
    + split.
      * intros [->|[? ?]]; [split; [by left | by exists n] | split; [by right | done]].
      * intros [[->|?] Hs]; [by left | right; done].
Qed.

Lemma assign_by_sol_total sols ks :
  Forall has_sol_segment ks → is_Some (assign_by_sol sols ks).
Proof.
  induction 1 as [|k ks Hk _ IH]; simpl; [by eexists|].
  apply sol_num_is_Some in Hk as [n ->]. destruct IH as [sets ->]. simpl. by eexists.
Qed.

Lemma assign_by_sol_None sols ks k :
  k ∈ ks → ¬ has_sol_segment k → assign_by_sol sols ks = None.
Proof.
  intros Hk Hno. induction ks as [|k' ks IH]; [by apply elem_of_nil in Hk|]. simpl.
  apply elem_of_cons in Hk as [<-|Hk].
  - destruct (sol_num k) eqn:Hn; [|done]. destruct Hno. apply sol_num_is_Some. by eexists.
  - rewrite (IH Hk). by destruct (sol_num k').
Qed.

(** [int(n * p)] for a proportion inside [0, 1] is a count between 0 and
    [n]. *)
Lemma py_int_proportion (n : Z) (q : Q) :
  0 ≤ n → (0 <= q)%Q → (q <= 1)%Q →
  ∃ c, py_int (float_mul (float_of_Z n) (Fin q)) = Some c ∧ 0 ≤ c ≤ n.
Proof.
  intros Hn Hq0 Hq1. unfold float_of_Z. cbn [float_mul py_int].
  assert (0 <= inject_Z n)%Q as Hn'.
  { change 0%Q with (inject_Z 0). by rewrite <- Zle_Qle. }
  assert (0 <= inject_Z n * q)%Q as Hx0 by nra.
  assert (inject_Z n * q <= inject_Z n)%Q as Hx1 by nra.
  apply Qle_bool_iff in Hx0 as Hb. rewrite Hb.
  eexists. split; [done|]. split.
  - change 0 with (Qfloor 0). by apply Qfloor_resp_le.
  - etrans; [apply Qfloor_resp_le, Hx1|]. by rewrite Qfloor_Z.
Qed.

Section SplitFacts.
Context {R : Type} `{RandomSource R}.
Variable t_px : pyval → pyval → Z * Z.

Lemma episode_split_Some p (m : Manifest) (r : R) train test r' :
  episode_split p m r = Some (train, test, r') →
  ∃ sols, assign_by_sol sols (dict_keys (ground m)) = Some (train, test).
Proof.
  unfold episode_split.
  destruct (mapM sol_num _) as [nums|]; simpl; [|done].
  destruct (py_int _) as [c|]; simpl; [|done].
  destruct (assign_by_sol _ _) as [[tr te]|] eqn:Ha; simpl; [|done].
  intros [= <- <- <-]. by eexists.
Qed.

Lemma episode_split_total q (m : Manifest) (r : R) :
  Forall has_sol_segment (dict_keys (ground m)) → is_Some (episode_split (Fin q) m r).
Proof.
  intros Hsol. unfold episode_split.
  assert (is_Some (mapM sol_num (dict_keys (ground m)))) as [nums ->].
  { apply mapM_is_Some. eapply Forall_impl; [done|]. intros k. apply sol_num_is_Some. }
  simpl.
  match goal with |- context [assign_by_sol ?s _] =>
    destruct (assign_by_sol_total s _ Hsol) as [sets ->] end.
  simpl. by eexists.
Qed.

Lemma random_split_partition on_disk p (m : Manifest) (r : R) train test r' :
  random_split on_disk p m r = Some (train, test, r') →
  train ## test ∧
  train ∪ test = list_to_set (filter (λ k, on_disk k = true) (dict_keys (ground m))).
Proof.
  unfold random_split. destruct (py_int _) as [n|]; simpl; [|done].
  destruct (py_sample _ _ _) as [[drawn r1]|] eqn:Hs; simpl; [|done].
  intros [= <- <- <-]. apply py_sample_Some in Hs as (_ & Hsub & _).
  assert (list_to_set drawn ⊆@{gset key}
          list_to_set (filter (λ k, on_disk k = true) (dict_keys (ground m)))) as Hsubset.
  { intros x. rewrite !elem_of_list_to_set. intros ?. by eapply elem_of_submseteq. }
  split; [|symmetry; by apply union_difference_L].
  apply elem_of_disjoint. by intros x Hx [_ Hn]%elem_of_difference.
Qed.

Lemma random_split_total on_disk q (m : Manifest) (r : R) :
  (0 <= q)%Q → (q <= 1)%Q → is_Some (random_split on_disk (Fin q) m r).
Proof.
  intros Hq0 Hq1. unfold random_split.
  set (ground_images := filter _ _).
  destruct (py_int_proportion (Z.of_nat (length ground_images)) q) as (c & -> & Hc);
    [lia|done..|].
  simpl. unfold py_sample. rewrite bool_decide_eq_true_2 by done. simpl. by eexists.
Qed.

(** C7. The split is a partition. With a train proportion inside [0, 1]
    the image-level split returns, whatever the keys are, two sets that
    are disjoint and whose union is the set of the ground images found
    on disk; when every ground key carries an episode segment the
    episode-grouped split returns two lists with no common key, and
    every ground key of the manifest is in one of them (train when its
    episode was drawn for training, test otherwise). *)
Theorem split_is_partition (on_disk : key → bool) (q : Q) (m : Manifest) (r : R) :
  (0 <= q)%Q → (q <= 1)%Q →
  (∃ train test r',
     random_split on_disk (Fin q) m r = Some (train, test, r') ∧
     train ## test ∧
     train ∪ test = list_to_set (filter (λ k, on_disk k = true) (dict_keys (ground m)))) ∧
  (Forall has_sol_segment (dict_keys (ground m)) →
   ∃ train test r',
     episode_split (Fin q) m r = Some (train, test, r') ∧
     (∀ g, ¬ (g ∈ train ∧ g ∈ test)) ∧
     (∀ g, g ∈ train ∨ g ∈ test ↔ g ∈ dict_keys (ground m))).
Proof.
  intros Hq0 Hq1. split.
  - destruct (random_split_total on_disk q m r Hq0 Hq1) as [[[train test] r'] Hrun].
    exists train, test, r'. split; [done|]. by eapply random_split_partition.
  - intros Hsol.
    destruct (episode_split_total q m r Hsol) as [[[train test] r'] Hrun].
    exists train, test, r'. split; [done|].
    apply episode_split_Some in Hrun as [sols Ha].
    apply assign_by_sol_Some in Ha as [Htr Hte]. split.
    + intros g [(_ & n & Hn & Hin)%Htr (_ & n' & Hn' & Hni)%Hte]. congruence.
    + intros g. split.
      * intros [[? _]%Htr|[? _]%Hte]; done.
      * intros Hg. rewrite Forall_forall in Hsol.
        destruct (proj2 (sol_num_is_Some g) (Hsol g Hg)) as [n Hn].
        destruct (decide (n ∈ sols)); [left; apply Htr | right; apply Hte]; eauto.
Qed.

(** C8, as the code has it. When every ground key carries an episode
    segment, the episode-grouped split returns; every ground image is
    assigned to one side and to one only; and two ground images with the
    same episode number are assigned to the same side. The episode
    number is the one the script reads: the leftmost segment of the
    whole key, directories included. It is the episode of the file name
    for the manifests in which the two agree on every key, and there two
    images with the same file-name episode are on the same side. *)
Theorem episode_split_no_leakage (q : Q) (m : Manifest) (r : R) :
  Forall has_sol_segment (dict_keys (ground m)) →
  ∃ train test r',
    episode_split (Fin q) m r = Some (train, test, r') ∧
    (∀ g, g ∈ dict_keys (ground m) →
       (g ∈ train ∧ (g ∉ test)) ∨ (g ∈ test ∧ (g ∉ train))) ∧
    (∀ g1 g2,
       g1 ∈ dict_keys (ground m) → g2 ∈ dict_keys (ground m) →
       sol_num g1 = sol_num g2 →
       (g1 ∈ train ∧ g2 ∈ train ∧ (g1 ∉ test) ∧ (g2 ∉ test)) ∨
       (g1 ∈ test ∧ g2 ∈ test ∧ (g1 ∉ train) ∧ (g2 ∉ train))) ∧
    ((∀ g, g ∈ dict_keys (ground m) → sol_num g = file_episode g) →
     ∀ g1 g2,
       g1 ∈ dict_keys (ground m) → g2 ∈ dict_keys (ground m) →
       file_episode g1 = file_episode g2 →
       (g1 ∈ train ∧ g2 ∈ train ∧ (g1 ∉ test) ∧ (g2 ∉ test)) ∨
       (g1 ∈ test ∧ g2 ∈ test ∧ (g1 ∉ train) ∧ (g2 ∉ train))).
Proof.
  intros Hsol.
  destruct (episode_split_total q m r Hsol) as [[[train test] r'] Hrun].
  exists train, test, r'. split; [done|].
  apply episode_split_Some in Hrun as [sols Ha].
  apply assign_by_sol_Some in Ha as [Htr Hte].
  assert (∀ g1 g2,
            g1 ∈ dict_keys (ground m) → g2 ∈ dict_keys (ground m) →
            sol_num g1 = sol_num g2 →
            (g1 ∈ train ∧ g2 ∈ train ∧ (g1 ∉ test) ∧ (g2 ∉ test)) ∨
            (g1 ∈ test ∧ g2 ∈ test ∧ (g1 ∉ train) ∧ (g2 ∉ train))) as Hsame.
  { intros g1 g2 Hg1 Hg2 Heq. rewrite Forall_forall in Hsol.
    destruct (proj2 (sol_num_is_Some g1) (Hsol g1 Hg1)) as [n Hn].
    assert (sol_num g2 = Some n) as Hn2 by congruence.
    destruct (decide (n ∈ sols)) as [Hin|Hni].
    - left. split_and!.
      + apply Htr. eauto.
      + apply Htr. eauto.
      + intros (_ & n' & Hn' & Hni)%Hte. congruence.
      + intros (_ & n' & Hn' & Hni)%Hte. congruence.
    - right. split_and!.
      + apply Hte. eauto.
      + apply Hte. eauto.
      + intros (_ & n' & Hn' & Hin)%Htr. congruence.
      + intros (_ & n' & Hn' & Hin)%Htr. congruence. }
  split_and!.
  - intros g Hg. destruct (Hsame g g Hg Hg eq_refl) as [(?&_&?&_)|(?&_&?&_)]; auto.
  - done.
  - intros Hagree g1 g2 Hg1 Hg2 Heq. apply Hsame; [done..|].
    by rewrite (Hagree g1 Hg1), (Hagree g2 Hg2).
Qed.

(** C10. The episode-grouped split needs the segment on every key. If a
    ground key of the curated manifest has no four digits between two
    underscores, the extraction indexes an empty list of matches and the
    split raises, whatever the proportion and the generator; nothing
    catches it, so the run of the script ends there, with no split
    file. *)
Theorem episode_split_aborts_without_sol
    (args args' : Args) (m0 : Manifest) (r0 : R) (m : Manifest) (r : R) (g : key) :
  startup args = Some args' →
  curate args' (m0, r0) = Some (m, r) →
  g ∈ dict_keys (ground m) →
  ¬ has_sol_segment g →
  (∀ p r1, episode_split p m r1 = None) ∧
  prepare_transgeo_mk t_px args m0 r0 = None.
Proof.
  intros Hstart Hcur Hg Hno.
  assert (∀ p r1, episode_split p m r1 = None) as Hnone.
  { intros p r1. unfold episode_split.
    assert (mapM sol_num (dict_keys (ground m)) = None) as ->; [|done].
    apply mapM_None, Exists_exists. exists g. split; [done|].
    destruct (sol_num g) eqn:Hn; [|done]. destruct Hno. apply sol_num_is_Some. by eexists. }
  split; [done|].
  unfold prepare_transgeo_mk. rewrite Hstart. simpl. rewrite Hcur. simpl.
  by rewrite Hnone.
Qed.

End SplitFacts.

Lemma has_sol_segment_check (ks : list key) :
  Forall (λ k, is_Some (first_sol k)) ks → Forall has_sol_segment ks.
Proof. intros HF. eapply Forall_impl; [done|]. intros k. apply first_sol_is_Some. Qed.

Lemma split_is_partition_witness :
  (∃ train test r',
     random_split (λ _, true) (Fin (1 # 2)%Q) located_panos 3%nat = Some (train, test, r') ∧
     train ## test ∧
     train ∪ test
     = list_to_set (filter (λ k, (λ _ : key, true) k = true)
                      (dict_keys (ground located_panos)))) ∧
  (∃ train test r',
     episode_split (Fin (1 # 2)%Q) five_on_T1 3%nat = Some (train, test, r') ∧
     (∀ g, ¬ (g ∈ train ∧ g ∈ test)) ∧
     (∀ g, g ∈ train ∨ g ∈ test ↔ g ∈ dict_keys (ground five_on_T1))).
Proof.
  split.
  - apply (proj1 (split_is_partition (λ _, true) (1 # 2)%Q located_panos 3%nat
                    ltac:(done) ltac:(done))).
  - apply (proj2 (split_is_partition (λ _, true) (1 # 2)%Q five_on_T1 3%nat
                    ltac:(done) ltac:(done))).
    apply has_sol_segment_check. by apply (bool_decide_unpack _).
Defined.

(** The claim of C8 fails for the episode of the file name. The two
    panoramas of [two_runs] are of episode 42 by their names; the script
    reads 1 and 2 off their directories, draws one of the two numbers for
    training, and the panoramas end on two sides. *)
Lemma file_name_episode_counterexample :
  ¬ (∀ (q : Q) (m : Manifest) (r : nat) train test r',
       episode_split (Fin q) m r = Some (train, test, r') →
       ∀ g1 g2,
         g1 ∈ dict_keys (ground m) → g2 ∈ dict_keys (ground m) →
         file_episode g1 = file_episode g2 →
         (g1 ∈ train ↔ g2 ∈ train)).
Proof.
  intros Hc.
  pose proof (Hc (1 # 2)%Q two_runs 0%nat _ _ _ eq_refl
                "run_0001_x/H_0042_8.png" "run_0002_x/H_0042_9.png") as Hs.
  vm_compute in Hs.
  destruct Hs as [_ Hback]; [by left | by right; left | done |].
  assert ("run_0001_x/H_0042_8.png" ∈ ["run_0002_x/H_0042_9.png"]) as Hin
    by (apply Hback; left).
  by apply list_elem_of_singleton in Hin.
Qed.

Lemma episode_split_no_leakage_witness :
  ∃ train test r',
    episode_split (Fin (1 # 2)%Q) five_on_T1 3%nat = Some (train, test, r') ∧
    (∀ g, g ∈ dict_keys (ground five_on_T1) →
       (g ∈ train ∧ (g ∉ test)) ∨ (g ∈ test ∧ (g ∉ train))) ∧
    (∀ g1 g2,
       g1 ∈ dict_keys (ground five_on_T1) → g2 ∈ dict_keys (ground five_on_T1) →
       sol_num g1 = sol_num g2 →
       (g1 ∈ train ∧ g2 ∈ train ∧ (g1 ∉ test) ∧ (g2 ∉ test)) ∨
       (g1 ∈ test ∧ g2 ∈ test ∧ (g1 ∉ train) ∧ (g2 ∉ train))) ∧
    ((∀ g, g ∈ dict_keys (ground five_on_T1) → sol_num g = file_episode g) →
     ∀ g1 g2,
       g1 ∈ dict_keys (ground five_on_T1) → g2 ∈ dict_keys (ground five_on_T1) →
       file_episode g1 = file_episode g2 →
       (g1 ∈ train ∧ g2 ∈ train ∧ (g1 ∉ test) ∧ (g2 ∉ test)) ∨
       (g1 ∈ test ∧ g2 ∈ test ∧ (g1 ∉ train) ∧ (g2 ∉ train))).
Proof.
  apply (episode_split_no_leakage (1 # 2)%Q five_on_T1 3%nat).
  apply has_sol_segment_check. by apply (bool_decide_unpack _).
Defined.

(** The split of [two_runs] with half of the episodes for training. *)
Example episode_split_two_runs :
  (file_episode "run_0001_x/H_0042_8.png", file_episode "run_0002_x/H_0042_9.png",
   sol_num "run_0001_x/H_0042_8.png", sol_num "run_0002_x/H_0042_9.png")
  = (Some 42, Some 42, Some 1, Some 2) ∧
  episode_split (Fin (1 # 2)%Q) two_runs 0%nat
  = Some (["run_0002_x/H_0042_9.png"], ["run_0001_x/H_0042_8.png"], 1%nat).
Proof. split; by vm_compute. Qed.

(** On [five_on_T1] the episodes are 1, 2 and 3; with half of them for
    training and the example generator in state 3, episode 3 is drawn. *)
Example episode_split_example :
  episode_split (Fin (1 # 2)%Q) five_on_T1 3%nat
  = Some (["a/G_0003_4.png"; "a/G_0003_5.png"],
          ["a/G_0001_1.png"; "a/G_0001_2.png"; "a/G_0002_3.png"], 4%nat).
Proof. by vm_compute. Qed.

Lemma episode_split_aborts_without_sol_witness :
  (∀ p r1, episode_split p unnumbered_pano r1 = None) ∧
  prepare_transgeo_mk length_px three_allowed unnumbered_pano 0%nat = None.
Proof.
  apply (episode_split_aborts_without_sol length_px three_allowed three_allowed
           unnumbered_pano 0%nat unnumbered_pano 1%nat "a/pano_3.png").
  - reflexivity.
  - by vm_compute.
  - by apply (bool_decide_unpack _).
  - intros Hs%first_sol_is_Some. by destruct Hs.
Defined.

(** ** What a label match returns *)

Lemma match_prefix_Some lit s s' : match_prefix lit s = Some s' ↔ s = lit +:+ s'.
Proof.
  revert s. induction lit as [|c lit IH]; intros s.
  - change (match_prefix "" s) with (Some s). split; [by intros [= ->] | by intros ->].
  - destruct s as [|c' s].
    + change (match_prefix (String c lit) "") with (@None string).
      split; [done | by intros [=]].
    + change (match_prefix (String c lit) (String c' s))
        with (if Ascii.eqb c c' then match_prefix lit s else None).
      destruct (Ascii.eqb c c') eqn:Hc.
      * apply Ascii.eqb_eq in Hc as ->. rewrite IH.
        change (String c' lit +:+ s') with (String c' (lit +:+ s')).
        split; [by intros -> | by intros [= ->]].
      * split; [done|].
        change (String c lit +:+ s') with (String c (lit +:+ s')).
        intros [= -> _]. by rewrite Ascii.eqb_refl in Hc.
Qed.

Lemma span_digits_app s : s = (span_digits s).1 +:+ (span_digits s).2.
Proof.
  induction s as [|c s IH]; simpl; [done|].
  destruct (is_digit c); simpl; [|done].
  change (String c ?a +:+ ?b) with (String c (a +:+ b)). by f_equal.
Qed.

Lemma match_digits_Some s ds : match_digits s = Some ds → s = ds.1 +:+ ds.2.
Proof.
  unfold match_digits. case_decide; [done|]. intros [= <-]. apply span_digits_app.
Qed.

Lemma match_float_Some s field : match_float s = Some field → s = field.1 +:+ field.2.
Proof.
  unfold match_float.
  set (signed := match match_prefix "-" s with Some s' => ("-", s') | None => ("", s) end).
  assert (s = signed.1 +:+ signed.2) as Hsigned.
  { unfold signed. destruct (match_prefix "-" s) as [s'|] eqn:Hm; [|done].
    by apply match_prefix_Some in Hm. }
  intros (int_part & Hi & (s1 & Hdot & (frac_part & Hf & [= <-])%bind_Some)%bind_Some)%bind_Some.
  simpl. apply match_digits_Some in Hi, Hf. apply match_prefix_Some in Hdot.
  rewrite Hsigned, Hi, Hdot, Hf. by rewrite !string_app_assoc.
Qed.

Lemma match_groups_Some names : ∀ s fields,
  match_groups names s = Some fields →
  ∃ texts,
    fields.1 = zip names (PyStr <$> texts) ∧
    length texts = length names ∧
    s = getvalue ((λ t, "_" +:+ t) <$> texts) +:+ fields.2.
Proof.
  induction names as [|name names IH]; simpl; intros s fields Hm.
  - simplify_eq. by exists [].
  - apply bind_Some in Hm as (s1 & Hu & Hm).
    apply bind_Some in Hm as (field & Hf & Hm).
    apply bind_Some in Hm as (more & Hmore & Hm).
    simplify_eq. destruct (IH _ _ Hmore) as (texts & Hz & Hlen & Hs).
    exists (field.1 :: texts). simpl. split_and!; [by rewrite Hz | by rewrite Hlen |].
    apply match_prefix_Some in Hu. apply match_float_Some in Hf.
    rewrite Hu, Hf, Hs. by rewrite !string_app_assoc.
Qed.

(** The claim of C4 fails on what a match returns: the identifier of a
    tile comes back as the string ["7"], not as an integer, and the
    coordinates as strings too. *)
Lemma label_fields_typed_counterexample :
  ¬ (∀ name groups,
       aerial_label_match name = Some groups →
       (∃ z, dict_get "id" groups = Some (PyInt z)) ∧
       (∀ field, field ∈ aerial_groups → ∃ x, dict_get field groups = Some (PyFloat x))).
Proof.
  intros Hc.
  assert (∃ groups,
            aerial_label_match "7_10.25_50.0_9.5_51.0_11.0_49.0_9.0_52.0_12.0_48.0.png"
            = Some groups ∧ dict_get "id" groups = Some (PyStr "7")) as (groups & Hm & Hid).
  { eexists. split; by vm_compute. }
  destruct (Hc _ _ Hm) as [[z Hz] _]. congruence.
Qed.

(** C4, as the code has it. When a name matches a tile grammar, every
    group of the result is a string, the very text matched in the name:
    the name is the identifier, then an underscore and the text of each
    group in turn, then [.png], then whatever follows. When the name of a
    file does not match, the builder skips the file: the manifest is what
    it was and the loop goes on. *)
Theorem label_groups_are_matched_text
    (id_group : string) (names : list string) (name : string) (groups : dict pyval)
    (m : Manifest) (f : ImageFile) :
  label_match id_group names name = Some groups →
  aerial_label_match (path_name (rel_path f)) = None →
  (∃ tile_id texts rest,
     groups = (id_group, PyStr tile_id) :: zip names (PyStr <$> texts) ∧
     length texts = length names ∧
     name = tile_id +:+ getvalue ((λ t, "_" +:+ t) <$> texts) +:+ ".png" +:+ rest) ∧
  add_aerial_image m f = m.
Proof.
  intros Hm Hskip. split.
  - unfold label_match in Hm.
    apply bind_Some in Hm as (tile_id & Hid & Hm).
    apply bind_Some in Hm as (fields & Hf & Hm).
    apply bind_Some in Hm as (rest & Hpng & Hm).
    simplify_eq. destruct (match_groups_Some _ _ _ Hf) as (texts & Hz & Hlen & Hs).
    exists tile_id.1, texts, rest. split_and!; [by rewrite Hz | done |].
    apply match_digits_Some in Hid. apply match_prefix_Some in Hpng.
    rewrite Hid, Hs, Hpng. by rewrite ?string_app_assoc.
  - unfold add_aerial_image. by rewrite Hskip.
Qed.

Lemma add_ground_image_skip m f :
  ground_label_match (path_name (rel_path f)) = None → add_ground_image m f = Some m.
Proof. intros Hskip. unfold add_ground_image. by rewrite Hskip. Qed.

Lemma label_groups_are_matched_text_witness :
  (∃ tile_id texts rest,
     [("tile_id", PyStr "12"); ("min_lat", PyStr "18.4"); ("max_lat", PyStr "18.5");
      ("min_lon", PyStr "77.4"); ("max_lon", PyStr "77.5")]
     = ("tile_id", PyStr tile_id)
         :: zip ["min_lat"; "max_lat"; "min_lon"; "max_lon"] (PyStr <$> texts) ∧
     length texts = 4%nat ∧
     "12_18.4_18.5_77.4_77.5.png"
     = tile_id +:+ getvalue ((λ t, "_" +:+ t) <$> texts) +:+ ".png" +:+ rest) ∧
  add_aerial_image five_on_T1 (mkImageFile "tile 12.png" no_size) = five_on_T1.
Proof.
  apply (label_groups_are_matched_text "tile_id" ["min_lat"; "max_lat"; "min_lon"; "max_lon"]
           "12_18.4_18.5_77.4_77.5.png").
  - by vm_compute.
  - by vm_compute.
Defined.

(** ** Containment: the reference and the code *)

(** C2 fails on the code at this input. The panorama lies inside the
    positive boundary of the tile, so the reference classifies the pair as
    positive; the builder compares the label strings, finds ["9.5"] above
    ["10.2"], and records no edge at all. *)
Lemma containment_compares_label_text :
  (m ← build [tile_9_11] [pano_10_50];
   ai ← dict_get (rel_path tile_9_11) (aerial m);
   gi ← dict_get (rel_path pano_10_50) (ground m);
   Some (reference_classify gi ai, classify gi ai,
         a_positive ai, a_semi_positive ai, g_positive gi, g_semi_positive gi))
  = Some (Some Positive, Some Unrelated, [], [], [], []).
Proof. by vm_compute. Qed.

(** With every bound of the same width as the coordinate, the same
    builder finds the edge: this is the scenario of the specification,
    [G1] positive for [T1] and [G2] outside both boundaries. *)
Example containment_scenario :
  (m ← build [mkImageFile "1_10.5_50.5_10.0_51.0_11.0_50.0_09.0_52.0_12.0_49.0.png"
                (mkSize 640 640)]
             [mkImageFile "d/x/LAT_50.4LONG_10.6_G1.png" (mkSize 2048 512);
              mkImageFile "d/x/LAT_52.5LONG_10.6_G2.png" (mkSize 2048 512)];
   g1 ← dict_get "d/x/LAT_50.4LONG_10.6_G1.png" (ground m);
   g2 ← dict_get "d/x/LAT_52.5LONG_10.6_G2.png" (ground m);
   Some (g_positive g1, g_positive g2, g_semi_positive g2))
  = Some (["1_10.5_50.5_10.0_51.0_11.0_50.0_09.0_52.0_12.0_49.0.png"], [], []).
Proof. by vm_compute. Qed.

(** ** The builder writes a well-formed manifest *)

Section DictSetFacts.
Context {V : Type}.
Implicit Types (d : dict V) (k : key) (v : V).

Lemma dict_get_set d k v k' :
  dict_get k' (dict_set k v d) = if decide (k' = k) then Some v else dict_get k' d.
Proof.
  induction d as [|[k0 v0] d IH]; simpl.
  - by case_decide.
  - destruct (decide (k = k0)) as [->|Hne]; simpl.
    + repeat case_decide; congruence.
    + rewrite IH. repeat case_decide; congruence.
Qed.

Lemma dict_keys_set d k v :
  dict_keys (dict_set k v d)
  = if decide (k ∈ dict_keys d) then dict_keys d else dict_keys d ++ [k].
Proof.
  induction d as [|[k0 v0] d IH]; [done|].
  change (dict_keys ((k0, v0) :: d)) with (k0 :: dict_keys d).
  simpl dict_set. destruct (decide (k = k0)) as [->|Hne].
  - change (dict_keys ((k0, v) :: d)) with (k0 :: dict_keys d).
    rewrite decide_True; [done | left].
  - change (dict_keys ((k0, v0) :: dict_set k v d)) with (k0 :: dict_keys (dict_set k v d)).
    rewrite IH. destruct (decide (k ∈ dict_keys d)) as [Hin|Hin].
    + rewrite decide_True; [done | by right].
    + rewrite decide_False; [done|]. rewrite elem_of_cons. by intros [?|?].
Qed.

Lemma dict_set_keys_NoDup d k v : NoDup (dict_keys d) → NoDup (dict_keys (dict_set k v d)).
Proof.
  intros Hnd. rewrite dict_keys_set. case_decide as Hin; [done|].
  apply NoDup_app. split_and!; [done| |apply NoDup_singleton].
  intros x Hx ->%list_elem_of_singleton. done.
Qed.

Lemma elem_dict_set d k v k' v' :
  (k', v') ∈ dict_set k v d → (k', v') ∈ d ∨ (k' = k ∧ v' = v).
Proof.
  induction d as [|[k0 v0] d IH]; simpl.
  - intros [= -> ->]%list_elem_of_singleton. by right.
  - case_decide as Hk.
    + subst k0. rewrite !elem_of_cons. intros [[= -> ->]|Hin]; [by right | by left; right].
    + rewrite !elem_of_cons. intros [Heq|Hin]; [by left; left|].
      destruct (IH Hin) as [?|?]; [by left; right | by right].
Qed.

End DictSetFacts.

Lemma classify_location gi gi' ai :
  location gi' = location gi → classify gi' ai = classify gi ai.
Proof.
  intros Hloc. unfold classify, is_positive, is_semi_positive. by rewrite Hloc.
Qed.

Lemma link_Some g aerials : ∀ gi aerials' gi',
  link g gi aerials = Some (aerials', gi') →
  aerials' = (λ p, (p.1, linked_tile g (relation_of gi p) p.2)) <$> aerials ∧
  g_positive gi'
  = g_positive gi ++ (filter (λ p, relation_of gi p = Positive) aerials).*1 ∧
  g_semi_positive gi'
  = g_semi_positive gi ++ (filter (λ p, relation_of gi p = SemiPositive) aerials).*1.
Proof.
  induction aerials as [|[k ai] rest IH]; intros gi aerials' gi' Hrun.
  - simpl in Hrun. simplify_eq. by rewrite !app_nil_r.
  - simpl in Hrun.
    apply bind_Some in Hrun as (c & Hc & Hrun).
    apply bind_Some in Hrun as ([rest' gi1] & Hmore & Hrun). simpl in Hrun. simplify_eq.
    apply IH in Hmore as (Hrest & Hpos & Hsemi).
    assert (relation_of gi (k, ai) = c) as Hrel by (unfold relation_of; simpl; by rewrite Hc).
    set (gi0 := match c with
                | Positive => _ | SemiPositive => _ | Unrelated => _ end.2) in *.
    assert (location gi0 = location gi) as Hloc by (unfold gi0; by destruct c).
    assert (∀ p, relation_of gi0 p = relation_of gi p) as Hsame.
    { intros p. unfold relation_of. by rewrite (classify_location gi gi0). }
    rewrite fmap_cons, !filter_cons. simpl. rewrite Hrel.
    split_and!.
    + f_equal; [by destruct c|]. rewrite Hrest. apply list_fmap_ext. intros i p _.
      by rewrite Hsame.
    + rewrite Hpos. rewrite (list_filter_iff _ (λ p, relation_of gi p = Positive))
        by (intros p; by rewrite Hsame).
      unfold gi0. destruct c; simpl; by rewrite <- ?app_assoc.
    + rewrite Hsemi. rewrite (list_filter_iff _ (λ p, relation_of gi p = SemiPositive))
        by (intros p; by rewrite Hsame).
      unfold gi0. destruct c; simpl; by rewrite <- ?app_assoc.
Qed.

Lemma elem_linked_positive x g c ai :
  x ∈ a_positive (linked_tile g c ai) ↔ x ∈ a_positive ai ∨ (x = g ∧ c = Positive).
Proof.
  destruct c; simpl; rewrite ?elem_of_app, ?list_elem_of_singleton.
  - split; (intros [?|?]; [by left | right]); [done | by destruct_and!].
  - split; [by left | by intros [?|[_ ?]]].
  - split; [by left | by intros [?|[_ ?]]].
Qed.

Lemma elem_linked_semi x g c ai :
  x ∈ a_semi_positive (linked_tile g c ai)
  ↔ x ∈ a_semi_positive ai ∨ (x = g ∧ c = SemiPositive).
Proof.
  destruct c; simpl; rewrite ?elem_of_app, ?list_elem_of_singleton.
  - split; [by left | by intros [?|[_ ?]]].
  - split; (intros [?|?]; [by left | right]); [done | by destruct_and!].
  - split; [by left | by intros [?|[_ ?]]].
Qed.

Lemma linked_tile_NoDup g c ai :
  g ∉ a_positive ai → g ∉ a_semi_positive ai →
  NoDup (a_positive ai) → NoDup (a_semi_positive ai) →
  NoDup (a_positive (linked_tile g c ai)) ∧ NoDup (a_semi_positive (linked_tile g c ai)).
Proof.
  intros Hp Hs Hnp Hns.
  assert (∀ l, g ∉ l → NoDup l → NoDup (l ++ [g])) as Hsnoc.
  { intros l Hl Hnd. apply NoDup_app. split_and!; [done| |apply NoDup_singleton].
    by intros x Hx ->%list_elem_of_singleton. }
  destruct c; simpl; split; auto.
Qed.

Lemma dict_get_fmap_item {V} (f : key * V → V) (d : dict V) k :
  dict_get k ((λ p, (p.1, f p)) <$> d) = (λ v, f (k, v)) <$> dict_get k d.
Proof.
  induction d as [|[k0 v0] d IH]; simpl; [done|].
  case_decide; [by subst | apply IH].
Qed.

Lemma add_ground_image_wf m f m' :
  wf m → rel_path f ∉ dict_keys (ground m) → add_ground_image m f = Some m' → wf m'.
Proof.
  intros Hwf Hfresh Hadd. unfold add_ground_image in Hadd.
  destruct (ground_label_match _) as [groups|]; [|by simplify_eq].
  set (g := rel_path f) in *.
  set (gi0 := mkGround _ _ [] []) in Hadd.
  apply bind_Some in Hadd as ([aerial' gi'] & Hlink & Hadd). simpl in Hadd. simplify_eq.
  apply link_Some in Hlink as (-> & Hpos & Hsemi). simpl in Hpos, Hsemi.
  destruct Hwf as ([Hka Hkg] & Hc & [Hnda Hndg] & [Hcla Hclg]).
  set (aerial' := (λ p, (p.1, linked_tile g (relation_of gi0 p) p.2)) <$> aerial m).
  assert (∀ a ai, (a, ai) ∈ aerial m → (g ∉ a_positive ai) ∧ (g ∉ a_semi_positive ai))
    as Hnew.
  { intros a ai Hin. split; intros Hg; apply Hfresh, (Hcla a ai g Hin); [by left | by right]. }
  assert (dict_keys aerial' = dict_keys (aerial m)) as Hkeys.
  { unfold aerial', dict_keys. rewrite <- list_fmap_compose. by apply list_fmap_ext. }
  assert (∀ a ai', (a, ai') ∈ aerial' ↔
                   ∃ ai, (a, ai) ∈ aerial m ∧
                         ai' = linked_tile g (relation_of gi0 (a, ai)) ai) as Helem.
  { intros a ai'. unfold aerial'. rewrite list_elem_of_fmap. split.
    - intros ([a0 ai] & [= -> ->] & Hin). by exists ai.
    - intros (ai & Hin & ->). by exists (a, ai). }
  assert (∀ a c, a ∈ (filter (λ p, relation_of gi0 p = c) (aerial m)).*1 ↔
                 ∃ ai, (a, ai) ∈ aerial m ∧ relation_of gi0 (a, ai) = c) as Hrel.
  { intros a c. rewrite list_elem_of_fmap. split.
    - intros ([a0 ai] & -> & [Hr Hin]%list_elem_of_filter). by exists ai.
    - intros (ai & Hin & Hr). exists (a, ai). split; [done|]. by apply list_elem_of_filter. }
  assert (∀ a ai1 ai2, (a, ai1) ∈ aerial m → (a, ai2) ∈ aerial m → ai1 = ai2) as Huniq.
  { intros a ai1 ai2 H1%(elem_dict_get _ _ _ Hka) H2%(elem_dict_get _ _ _ Hka). congruence. }
  split_and!.
  - split; simpl; [by rewrite Hkeys | by apply dict_set_keys_NoDup].
  - intros g0 gi1 a ai'. simpl. unfold aerial'.
    rewrite dict_get_set,
      (dict_get_fmap_item (λ p, linked_tile g (relation_of gi0 p) p.2) (aerial m) a).
    intros Hg0 (ai & Hai & ->)%fmap_Some.
    apply dict_get_Some_elem in Hai as Hin. destruct (Hnew a ai Hin) as [Hnp Hns].
    rewrite elem_linked_positive, elem_linked_semi.
    case_decide as Hg.
    + subst g0. simplify_eq. rewrite Hpos, Hsemi, !Hrel. split_and!.
      * split; [intros [?|[_ ?]]; [done | by exists ai]|].
        intros (ai2 & Hin2 & Hr). right. by rewrite (Huniq a ai ai2).
      * split; [intros [?|[_ ?]]; [done | by exists ai]|].
        intros (ai2 & Hin2 & Hr). right. by rewrite (Huniq a ai ai2).
      * intros [[?|[_ Hr1]] [?|[_ Hr2]]]; try done. congruence.
    + destruct (Hc g0 gi1 a ai Hg0 Hai) as (Hp & Hs & Hx). split_and!.
      * rewrite <- Hp. split; [by intros [?|[? _]] | by left].
      * rewrite <- Hs. split; [by intros [?|[? _]] | by left].
      * intros [[?|[? _]] [?|[? _]]]; try done. by apply Hx.
  - split; simpl.
    + intros a ai' (ai & Hin & ->)%Helem.
      destruct (Hnew a ai Hin) as [? ?]. destruct (Hnda a ai Hin) as [? ?].
      by apply linked_tile_NoDup.
    + intros g0 gi1 [Hin|[-> ->]]%elem_dict_set; [by apply (Hndg g0)|].
      rewrite Hpos, Hsemi. split; apply (sublist_NoDup _ (dict_keys (aerial m))); try done;
        unfold dict_keys; apply fmap_sublist, sublist_filter.
  - split; simpl.
    + intros a ai' g0 (ai & Hin & ->)%Helem.
      rewrite elem_linked_positive, elem_linked_semi, dict_keys_set.
      intros Hel. assert (g0 ∈ dict_keys (ground m) ∨ g0 = g) as [Hold|Heq].
      { destruct Hel as [[?|[? _]]|[?|[? _]]];
          [left; apply (Hcla a ai g0 Hin); by left | by right
          |left; apply (Hcla a ai g0 Hin); by right | by right]. }
      * case_decide; [done|]. apply elem_of_app. by left.
      * subst g0. case_decide; [done|]. apply elem_of_app. right.
        by apply list_elem_of_singleton.
    + intros g0 gi1 a [Hin|[-> ->]]%elem_dict_set; rewrite Hkeys.
      * by apply (Hclg g0 gi1).
      * rewrite Hpos, Hsemi, !Hrel.
        intros [(ai & Hin & _)|(ai & Hin & _)]; by apply (elem_dict_keys _ a ai).
Qed.

Lemma add_aerial_images_wf fs : ∀ m,
  ground m = [] → NoDup (dict_keys (aerial m)) →
  (∀ a ai, (a, ai) ∈ aerial m → a_positive ai = [] ∧ a_semi_positive ai = []) →
  wf (foldl add_aerial_image m fs).
Proof.
  induction fs as [|f fs IH]; intros m Hg Hk Hempty; simpl.
  - split_and!.
    + split; [done|]. rewrite Hg. constructor.
    + intros g gi a ai. by rewrite Hg.
    + split.
      * intros a ai Hin. destruct (Hempty a ai Hin) as [-> ->]. split; constructor.
      * intros g gi. rewrite Hg. by intros ?%elem_of_nil.
    + split.
      * intros a ai g Hin. destruct (Hempty a ai Hin) as [-> ->].
        intros [?%elem_of_nil|?%elem_of_nil]; done.
      * intros g gi a. rewrite Hg. by intros ?%elem_of_nil.
  - apply IH; unfold add_aerial_image; destruct (aerial_label_match _); simpl; try done.
    + by apply dict_set_keys_NoDup.
    + intros a ai [Hin|[-> ->]]%elem_dict_set; [by apply (Hempty a)|done].
Qed.

Lemma add_ground_images_wf fs : ∀ m m',
  wf m → NoDup (rel_path <$> fs) →
  (∀ k, k ∈ dict_keys (ground m) → k ∉ rel_path <$> fs) →
  foldM add_ground_image m fs = Some m' → wf m'.
Proof.
  induction fs as [|f fs IH]; intros m m' Hwf Hnd Hfresh Hrun; simpl in Hrun.
  - by simplify_eq.
  - apply bind_Some in Hrun as (m1 & Hadd & Hrun).
    rewrite fmap_cons in Hnd. apply NoDup_cons in Hnd as [Hf Hnd].
    assert (rel_path f ∉ dict_keys (ground m)) as Hnew.
    { intros Hin. apply (Hfresh _ Hin). rewrite fmap_cons. left. }
    apply (IH m1 m'); [by eapply add_ground_image_wf|done| |done].
    intros k Hk. unfold add_ground_image in Hadd.
    destruct (ground_label_match _).
    + apply bind_Some in Hadd as (linked & _ & [= <-]). simpl in Hk.
      rewrite dict_keys_set in Hk. case_decide; [done|].
      apply elem_of_app in Hk as [Hk|Hk%list_elem_of_singleton]; [|by subst k].
      intros Hin. apply (Hfresh _ Hk). rewrite fmap_cons. by right.
    + simplify_eq. intros Hin. apply (Hfresh _ Hk). rewrite fmap_cons. by right.
Qed.

(** The manifest that [image-manifest.py] writes is well-formed, for
    ground images of distinct paths. *)
Lemma build_wf aerial_images ground_images m :
  NoDup (rel_path <$> ground_images) →
  build aerial_images ground_images = Some m → wf m.
Proof.
  intros Hnd. unfold build. apply add_ground_images_wf; [|done|].
  - apply add_aerial_images_wf; simpl; [done|constructor|].
    by intros a ai ?%elem_of_nil.
  - intros k Hk. exfalso.
    assert (∀ fs m0, ground m0 = [] → ground (foldl add_aerial_image m0 fs) = []) as Hg.
    { clear. induction fs as [|f fs IH]; intros m0 Hm0; simpl; [done|].
      apply IH. unfold add_aerial_image. by destruct (aerial_label_match _). }
    rewrite (Hg aerial_images (mkManifest [] []) eq_refl) in Hk. by apply elem_of_nil in Hk.
Qed.

(** ** The builder never raises *)

Lemma py_between_str a x b : is_str a → is_str x → is_str b → is_Some (py_between a x b).
Proof.
  intros [? ->] [? ->] [? ->]. unfold py_between. simpl.
  destruct (String.leb _ _); by eexists.
Qed.

Lemma within_str boundary p :
  str_point boundary.1 → str_point boundary.2 → str_point p → is_Some (within boundary p).
Proof.
  intros [H1 H2] [H3 H4] [H5 H6]. unfold within.
  destruct (py_between_str (lon boundary.1) (lon p) (lon boundary.2)) as [c ->]; [done..|].
  simpl. destruct c; [by apply py_between_str | by eexists].
Qed.

Lemma classify_str gi ai : str_point (location gi) → str_tile ai → is_Some (classify gi ai).
Proof.
  intros Hp [[H1 H2] [H3 H4]]. unfold classify, is_positive, is_semi_positive.
  destruct (within_str (positive_boundary ai) (location gi)) as [p ->]; [done..|].
  simpl. destruct p; [by eexists|].
  destruct (within_str (semi_positive_boundary ai) (location gi)) as [s ->]; [done..|].
  by eexists.
Qed.

Lemma link_total g aerials : ∀ gi,
  str_point (location gi) → Forall (λ p, str_tile p.2) aerials →
  is_Some (link g gi aerials).
Proof.
  induction aerials as [|[k ai] rest IH]; intros gi Hgi Htiles; simpl; [by eexists|].
  apply Forall_cons in Htiles as [Hai Hrest]. simpl in Hai.
  destruct (classify_str gi ai Hgi Hai) as [c ->]. simpl.
  match goal with |- context [link g ?gi1 rest] =>
    destruct (IH gi1) as [more ->]; [by destruct c | done |] end.
  by eexists.
Qed.

Lemma group_str groups name : Forall (λ p, is_str p.2) groups → is_str (group groups name).
Proof.
  intros Hstr. unfold group. destruct (dict_get name groups) as [v|] eqn:Hv; simpl.
  - apply dict_get_Some_elem in Hv. rewrite Forall_forall in Hstr. apply (Hstr _ Hv).
  - by eexists.
Qed.

Lemma match_groups_str names : ∀ s fields,
  match_groups names s = Some fields → Forall (λ p, is_str p.2) fields.1.
Proof.
  induction names as [|name names IH]; simpl; intros s fields Hm.
  - simplify_eq. constructor.
  - apply bind_Some in Hm as (s1 & Hu & Hm).
    apply bind_Some in Hm as (field & Hf & Hm).
    apply bind_Some in Hm as (more & Hmore & Hm).
    simplify_eq. simpl. constructor; [by eexists | by eapply IH].
Qed.

Lemma label_match_str id_group names name groups :
  label_match id_group names name = Some groups → Forall (λ p, is_str p.2) groups.
Proof.
  unfold label_match. intros Hm.
  apply bind_Some in Hm as (tile_id & Hid & Hm).
  apply bind_Some in Hm as (fields & Hf & Hm).
  apply bind_Some in Hm as (rest & Hpng & Hm).
  simplify_eq. constructor; [by eexists | by eapply match_groups_str].
Qed.

Lemma add_aerial_image_str m f :
  Forall (λ p, str_tile p.2) (aerial m) →
  Forall (λ p, str_tile p.2) (aerial (add_aerial_image m f)).
Proof.
  intros Hm. unfold add_aerial_image.
  destruct (aerial_label_match _) as [groups|] eqn:Hg; [|done].
  apply label_match_str in Hg. simpl.
  apply Forall_forall. intros [a ai] [Hin|[-> ->]]%elem_dict_set.
  - rewrite Forall_forall in Hm. apply (Hm _ Hin).
  - simpl. repeat split; simpl; by apply group_str.
Qed.

Lemma add_ground_image_total m f :
  Forall (λ p, str_tile p.2) (aerial m) →
  ∃ m', add_ground_image m f = Some m' ∧ Forall (λ p, str_tile p.2) (aerial m').
Proof.
  intros Hm. unfold add_ground_image.
  destruct (ground_label_match _) as [groups|] eqn:Hg; [|by eexists].
  assert (Forall (λ p : key * pyval, is_str p.2) groups) as Hstr.
  { unfold ground_label_match in Hg.
    apply bind_Some in Hg as (s1 & _ & Hg). apply bind_Some in Hg as (lat_part & _ & Hg).
    apply bind_Some in Hg as (s2 & _ & Hg). apply bind_Some in Hg as (lon_part & _ & Hg).
    destruct (match_any_then_png _); simplify_eq.
    repeat constructor; by eexists. }
  match goal with |- context [link ?g ?gi0 (aerial m)] =>
    destruct (link_total g (aerial m) gi0) as [[aerial' gi'] Hlink] end; [|done|].
  { split; simpl; by apply group_str. }
  rewrite Hlink. simpl. eexists. split; [done|]. simpl.
  apply link_Some in Hlink as (-> & _ & _).
  apply Forall_fmap. eapply Forall_impl; [exact Hm|]. intros [a ai] Hai. simpl in *.
  unfold linked_tile. by destruct (relation_of _ _).
Qed.

(** [image-manifest.py] always writes a manifest, and the manifest is
    well-formed when the ground images have distinct paths, as the files
    of a directory tree have. *)
Lemma build_total_wf aerial_images ground_images :
  NoDup (rel_path <$> ground_images) →
  ∃ m, build aerial_images ground_images = Some m ∧ wf m.
Proof.
  intros Hnd.
  assert (is_Some (build aerial_images ground_images)) as [m Hm]; [|by eauto using build_wf].
  unfold build.
  assert (Forall (λ p, str_tile p.2)
            (aerial (foldl add_aerial_image (mkManifest [] []) aerial_images))) as Hstr.
  { assert (∀ fs m0, Forall (λ p, str_tile p.2) (aerial m0) →
                     Forall (λ p, str_tile p.2) (aerial (foldl add_aerial_image m0 fs))) as Hfold.
    { induction fs as [|f fs IH]; intros m0 Hm0; simpl; [done|].
      by apply IH, add_aerial_image_str. }
    apply Hfold. constructor. }
  revert Hstr. generalize (foldl add_aerial_image (mkManifest [] []) aerial_images).
  clear Hnd. induction ground_images as [|f fs IH]; intros m0 Hm0; simpl; [by eexists|].
  destruct (add_ground_image_total m0 f Hm0) as (m1 & -> & Hm1). simpl. by apply IH.
Qed.

(** ** The curation never raises on a well-formed manifest *)

Lemma remove_image_total k m : is_Some (remove_image k m).
Proof.
  unfold remove_image, remove_aerial_image, remove_ground_image.
  destruct (dict_mem k (aerial m)); [by eexists|].
  destruct (dict_mem k (ground m)); by eexists.
Qed.

Lemma foldM_total {A S} (P : S → Prop) (f : S → A → option S) l :
  (∀ s x, P s → x ∈ l → ∃ s', f s x = Some s' ∧ P s') →
  ∀ s, P s → ∃ s', foldM f s l = Some s' ∧ P s'.
Proof.
  induction l as [|x l IH]; intros Hf s Hs; simpl; [by eexists|].
  destruct (Hf s x Hs) as (s1 & -> & Hs1); [left|]. simpl.
  apply IH; [|done]. intros s2 y Hs2 Hy. apply Hf; [done | by right].
Qed.

Lemma remove_aerial_images_total ks : ∀ m,
  NoDup ks → (∀ k, k ∈ ks → k ∈ dict_keys (aerial m)) →
  is_Some (foldM (λ m k, remove_aerial_image k m) m ks).
Proof.
  induction ks as [|k ks IH]; intros m Hnd Hin; simpl; [done|].
  apply NoDup_cons in Hnd as [Hk Hnd].
  assert (k ∈ dict_keys (aerial m)) as Hkm by (apply Hin; left).
  rewrite (proj2 (remove_aerial_image_Some k m _) (conj Hkm eq_refl)). simpl.
  apply IH; [done|]. intros k' Hk'. simpl.
  rewrite dict_keys_del. apply list_elem_of_filter. split.
  - by intros ->.
  - apply Hin. by right.
Qed.

Lemma filter_keys_total {V} (f : V → option bool) (d : dict V) :
  (∀ k v, (k, v) ∈ d → is_Some (f v)) →
  ∃ ks, filter_keys f d = Some ks ∧ ks `sublist_of` dict_keys d.
Proof.
  induction d as [|[k v] d IH]; intros Hf; simpl; [by eexists|].
  destruct (Hf k v) as [b ->]; [left|]. simpl.
  destruct IH as (ks & -> & Hsub); [intros k' v' Hin; apply (Hf k' v'); by right|].
  simpl. eexists. split; [done|].
  change (dict_keys ((k, v) :: d)) with (k :: dict_keys d).
  destruct b; by constructor.
Qed.

Lemma remove_ground_image_heights k m m' :
  heights_ok m → remove_ground_image k m = Some m' → heights_ok m'.
Proof.
  intros Hh [_ ->]%remove_ground_image_Some g gi. simpl.
  intros [_ Hin]%elem_dict_del. by apply (Hh g).
Qed.

Lemma remove_aerial_image_heights k m m' :
  heights_ok m → remove_aerial_image k m = Some m' → heights_ok m'.
Proof.
  intros Hh [_ ->]%remove_aerial_image_Some g gi'. simpl.
  intros (gi & -> & Hin)%elem_dict_map. simpl. by apply (Hh g gi).
Qed.

Lemma remove_image_heights k m m' :
  heights_ok m → remove_image k m = Some m' → heights_ok m'.
Proof.
  unfold remove_image. intros Hc.
  destruct (dict_mem k (aerial m)); [by apply remove_aerial_image_heights|].
  destruct (dict_mem k (ground m)); [by apply remove_ground_image_heights|].
  by intros [= <-].
Qed.

Lemma remove_image_curable k m m' : curable m → remove_image k m = Some m' → curable m'.
Proof.
  intros [Hwf Hh] Hrm. split; [by eapply remove_image_wf | by eapply remove_image_heights].
Qed.

Lemma remove_ground_image_curable k m m' :
  curable m → remove_ground_image k m = Some m' → curable m'.
Proof.
  intros [Hwf Hh] Hrm.
  split; [by eapply remove_ground_image_wf | by eapply remove_ground_image_heights].
Qed.

Lemma remove_duplicates_total m : curable m → ∃ m', remove_duplicates m = Some m' ∧ curable m'.
Proof.
  intros Hm. unfold remove_duplicates. apply (foldM_total curable); [|done].
  intros s k Hs _. destruct (remove_image_total k s) as [s' Hs'].
  exists s'. split; [done|]. by eapply remove_image_curable.
Qed.

Lemma remove_spaces_total m : curable m → ∃ m', remove_spaces m = Some m' ∧ curable m'.
Proof.
  intros Hm. unfold remove_spaces. apply (foldM_total curable); [|done].
  intros s k Hs _. destruct (has_space _); [|by eexists].
  destruct (remove_image_total k s) as [s' Hs'].
  exists s'. split; [done|]. by eapply remove_image_curable.
Qed.

Lemma remove_listed_ground_images_total ks m :
  curable m → ks `sublist_of` dict_keys (ground m) →
  ∃ m', foldM (λ m k, remove_ground_image k m) m ks = Some m' ∧ curable m'.
Proof.
  intros Hm Hsub.
  destruct (remove_ground_images_total ks m) as [m' Hrun].
  - apply (sublist_NoDup _ (dict_keys (ground m))); [|done].
    by destruct Hm as (([_ ?] & _) & _).
  - intros k Hk. by eapply elem_of_sublist.
  - exists m'. split; [done|]. revert Hm Hrun. apply (foldM_invariant curable).
    intros s x s'. apply remove_ground_image_curable.
Qed.

Lemma remove_non_panoramas_total ratio m :
  curable m → ∃ m', remove_non_panoramas ratio m = Some m' ∧ curable m'.
Proof.
  intros Hm. unfold remove_non_panoramas.
  destruct (filter_keys_total (non_panorama ratio) (ground m)) as (ks & -> & Hsub).
  { intros g gi Hin. unfold non_panorama. rewrite decide_False; [by eexists|].
    by apply (proj2 Hm g gi). }
  simpl. by apply remove_listed_ground_images_total.
Qed.

Lemma sublist_filter_keys {V} (P : key * V → Prop) `{∀ p, Decision (P p)} (d : dict V) :
  dict_keys (filter P d) `sublist_of` dict_keys d.
Proof. unfold dict_keys. apply fmap_sublist, sublist_filter. Qed.

Section CurationTotal.
Context {R : Type} `{RandomSource R}.

Lemma remove_few_semi_positives_total m :
  curable m → ∃ m', remove_few_semi_positives m = Some m' ∧ curable m'.
Proof.
  intros Hm. unfold remove_few_semi_positives.
  apply remove_listed_ground_images_total; [done|]. apply sublist_filter_keys.
Qed.

Lemma cap_tile_heights max (m : Manifest) (r : R) a m' r' :
  heights_ok m → cap_tile max (m, r) a = Some (m', r') → heights_ok m'.
Proof.
  intros Hh Hrun.
  apply cap_tile_cases in Hrun as [[= -> ->]|(ai & smp & m1 & Ha & Hs & Hrm & ->)]; [done|].
  assert (heights_ok m1) as Hh1.
  { revert Hh Hrm. apply (foldM_invariant heights_ok).
    intros s x s'. apply remove_ground_image_heights. }
  intros g gi Hin. by apply (Hh1 g gi).
Qed.

Lemma cap_tile_keys max (m : Manifest) (r : R) a m' r' :
  cap_tile max (m, r) a = Some (m', r') → dict_keys (aerial m') = dict_keys (aerial m).
Proof.
  intros Hrun.
  apply cap_tile_cases in Hrun as [[= -> ->]|(ai & smp & m1 & Ha & Hs & Hrm & ->)]; [done|].
  simpl. rewrite dict_keys_alter. clear -Hrm. revert m Hrm.
  induction (filter _ _) as [|k ks IH]; intros m Hrm; simpl in Hrm; [by simplify_eq|].
  destruct (remove_ground_image k m) as [m2|] eqn:E; simpl in Hrm; [|done].
  rewrite (IH _ Hrm). apply remove_ground_image_Some in E as [_ ->]. apply dict_keys_map.
Qed.

Lemma cap_tile_total max (m : Manifest) (r : R) a :
  curable m → 0 ≤ max → a ∈ dict_keys (aerial m) →
  ∃ s', cap_tile max (m, r) a = Some s' ∧ curable s'.1 ∧
        dict_keys (aerial s'.1) = dict_keys (aerial m).
Proof.
  intros [Hwf Hh] Hmax [ai Hai]%dict_get_is_Some.
  assert (∃ s', cap_tile max (m, r) a = Some s') as [[m' r'] Hrun].
  { destruct (decide (max ≠ 0 ∧ max < Z.of_nat (length (a_positive ai)))) as [[??]|Hno].
    - destruct (cap_tile_sampled_returns max m r a ai) as (? & ? & ? & _ & _ & ?);
        [done|lia|done..|]. by eexists.
    - exists (m, r). unfold cap_tile. simpl. rewrite Hai. simpl.
      destruct (bool_decide (max ≠ 0)) eqn:E1; simpl; [|done].
      destruct (bool_decide (max < _)) eqn:E2; simpl; [|done].
      apply bool_decide_eq_true in E1, E2. by destruct Hno. }
  exists (m', r'). split; [done|]. split; [split|].
  - by eapply cap_tile_wf.
  - by eapply cap_tile_heights.
  - by eapply cap_tile_keys.
Qed.

Lemma cap_positives_total max (m : Manifest) (r : R) :
  curable m → 0 ≤ max → ∃ s', cap_positives max (m, r) = Some s' ∧ curable s'.1.
Proof.
  intros Hm Hmax. unfold cap_positives. simpl.
  destruct (foldM_total
              (λ s : St, curable s.1 ∧ dict_keys (aerial s.1) = dict_keys (aerial m))
              (cap_tile max) (dict_keys (aerial m))) with (s := (m, r))
    as (s' & Hrun & Hs' & _); [|done|by exists s'].
  intros [m0 r0] a [Hm0 Hk0] Ha. simpl in *.
  destruct (cap_tile_total max m0 r0 a) as (s1 & Hrun & Hs1 & Hk1); [done|done|by rewrite Hk0|].
  exists s1. split; [done|]. split; [done|]. by rewrite Hk1.
Qed.

Lemma remove_distractions_total q (m : Manifest) (r : R) :
  curable m → (0 <= q)%Q → (q <= 1)%Q →
  ∃ s', remove_distractions (Fin q) (m, r) = Some s' ∧ curable s'.1.
Proof.
  intros Hm Hq0 Hq1. unfold remove_distractions. simpl fst. simpl snd.
  set (ds := distractions m).
  assert (∃ c, py_int (float_mul (float_one_minus (Fin q))
                         (float_of_Z (Z.of_nat (length ds)))) = Some c
               ∧ 0 ≤ c ≤ Z.of_nat (length ds)) as (c & -> & Hc).
  { unfold float_of_Z. cbn [float_one_minus float_mul py_int].
    assert (0 <= inject_Z (Z.of_nat (length ds)))%Q as Hn.
    { change 0%Q with (inject_Z 0). rewrite <- Zle_Qle. lia. }
    assert (0 <= (1 - q) * inject_Z (Z.of_nat (length ds)))%Q as Hx0 by nra.
    assert ((1 - q) * inject_Z (Z.of_nat (length ds))
            <= inject_Z (Z.of_nat (length ds)))%Q as Hx1 by nra.
    apply Qle_bool_iff in Hx0 as Hb. rewrite Hb. eexists. split; [done|]. split.
    - change 0 with (Qfloor 0). by apply Qfloor_resp_le.
    - etrans; [apply Qfloor_resp_le, Hx1|]. by rewrite Qfloor_Z. }
  simpl. destruct (py_sample r ds c) as [[xs r1]|] eqn:Hs.
  2:{ unfold py_sample in Hs. by rewrite bool_decide_eq_true_2 in Hs. }
  simpl. apply py_sample_Some in Hs as (_ & Hsub & _).
  assert (NoDup ds) as Hnd.
  { unfold ds, distractions. eapply sublist_NoDup; [|apply sublist_filter_keys].
    by destruct Hm as (([? _] & _) & _). }
  destruct (remove_aerial_images_total xs m) as [m' Hrun].
  - by eapply submseteq_NoDup.
  - intros k Hk.
    apply (elem_of_sublist ds); [by eapply elem_of_submseteq|].
    unfold ds, distractions. apply sublist_filter_keys.
  - rewrite Hrun. simpl. eexists. split; [done|]. simpl.
    revert Hm Hrun. apply (foldM_invariant curable). intros s x s' [Hwf Hh] Hrm.
    split; [by eapply remove_aerial_image_wf | by eapply remove_aerial_image_heights].
Qed.

(** On a well-formed manifest whose ground images have a height, with a
    non-negative maximum and proportions in range, every pass returns,
    and so does the whole curation. *)
Lemma curate_total (args : Args) (q : Q) (m : Manifest) (r : R) :
  curable m → 0 ≤ max_positive_panoramas args →
  distraction_proportion args = Fin q → (0 <= q)%Q → (q <= 1)%Q →
  ∃ s', curate args (m, r) = Some s' ∧ curable s'.1.
Proof.
  intros Hm Hmax Hd Hq0 Hq1. unfold curate. simpl. unfold lift. simpl.
  destruct (remove_duplicates_total m Hm) as (m1 & -> & Hm1). simpl.
  destruct (remove_spaces_total m1 Hm1) as (m2 & -> & Hm2). simpl.
  destruct (remove_non_panoramas_total (panorama_aspect_ratio args) m2 Hm2)
    as (m3 & -> & Hm3). simpl.
  destruct (cap_positives_total (max_positive_panoramas args) m3 r Hm3 Hmax)
    as ([m4 r4] & -> & Hm4). simpl. rewrite Hd.
  destruct (remove_distractions_total q m4 r4 Hm4 Hq0 Hq1) as ([m5 r5] & -> & Hm5). simpl.
  destruct (remove_few_semi_positives_total m5 Hm5) as (m6 & -> & Hm6). simpl.
  by eexists.
Qed.

End CurationTotal.

(** ** After the curation every panorama has its three semi-positives *)

Section AfterCuration.
Context {R : Type} `{RandomSource R}.

Lemma remove_few_semi_positives_enough m m' set :
  remove_few_semi_positives m = Some m' → enough_semi_positives m' set.
Proof.
  unfold remove_few_semi_positives. intros Hrun g gi _ Hgi.
  rewrite (remove_ground_images_get _ _ _ g Hrun) in Hgi.
  case_decide as Hin; [done|].
  destruct (decide (3 ≤ length (g_semi_positive gi))%nat) as [|Hlt]; [done|].
  destruct Hin. apply dict_get_Some_elem in Hgi.
  unfold dict_keys. apply list_elem_of_fmap. exists (g, gi). split; [done|].
  apply list_elem_of_filter. split; [simpl; lia | done].
Qed.

Lemma curate_enough args (m : Manifest) (r : R) m' r' set :
  curate args (m, r) = Some (m', r') → enough_semi_positives m' set.
Proof.
  unfold curate.
  change curation_passes with
    ([RemoveDuplicates; RemoveSpaces; RemoveNonPanoramas; CapPositives; RemoveDistractions]
       ++ [RemoveFewSemiPositives]).
  rewrite foldM_app.
  intros ([m5 r5] & _ & Hlast)%bind_Some. simpl in Hlast. unfold lift in Hlast.
  simpl in Hlast. destruct (remove_few_semi_positives m5) as [m6|] eqn:Hrm; [|done].
  simpl in Hlast. simplify_eq. by eapply remove_few_semi_positives_enough.
Qed.

End AfterCuration.

(** ** Waypoint groups *)

Lemma tail_snoc {A} (l : list A) (x : A) : l ≠ [] → tail (l ++ [x]) = tail l ++ [x].
Proof. by destruct l. Qed.

Section WaypointFacts.
Variable float_of_str : string → option pyfloat.
Implicit Types (w : Waypoint) (ws current : list Waypoint) (groups : list (list Waypoint)).

Lemma waypoint_run_snoc th g w :
  waypoint_run float_of_str th g → close_to_previous float_of_str th w →
  waypoint_run float_of_str th (g ++ [w]).
Proof.
  intros (w0 & rest & -> & Hrest) Hw. exists w0, (rest ++ [w]). split; [done|].
  apply Forall_app. split; [done|]. by constructor.
Qed.

Lemma opens_far_snoc th g w :
  g ≠ [] → opens_far float_of_str th g ↔ opens_far float_of_str th (g ++ [w]).
Proof.
  intros Hg. destruct g as [|w0 rest]; [done|]. split.
  - intros (w1 & rest1 & [= <- <-] & Hfar). by exists w0, (rest ++ [w]).
  - intros (w1 & rest1 & [= <- _] & Hfar). by exists w0, rest.
Qed.

(** The invariant of the grouping loop, after the waypoints [pre]. *)
Lemma group_waypoint_inv th pre groups current w s' :
  concat groups ++ current = pre →
  (current = [] → groups = []) →
  Forall (waypoint_run float_of_str th) groups →
  (current = [] ∨ waypoint_run float_of_str th current) →
  Forall (opens_far float_of_str th) (tail (groups ++ [current])) →
  group_waypoint float_of_str th (groups, current) w = Some s' →
  concat s'.1 ++ s'.2 = pre ++ [w] ∧
  Forall (waypoint_run float_of_str th) s'.1 ∧
  waypoint_run float_of_str th s'.2 ∧
  Forall (opens_far float_of_str th) (tail (s'.1 ++ [s'.2])).
Proof.
  intros Hpre Hempty Hruns Hrun Hfar Hstep. unfold group_waypoint in Hstep. simpl in Hstep.
  destruct current as [|c cs].
  - simplify_eq. rewrite (Hempty eq_refl). simpl. split_and!; [done|constructor| |constructor].
    exists w, []. split; [done|constructor].
  - destruct Hrun as [|Hrun]; [done|].
    apply bind_Some in Hstep as (d & Hd & Hstep).
    destruct (float_le d th) eqn:Hle; simplify_eq; cbn [fst snd].
    + split_and!; [by rewrite app_assoc|done| |].
      * apply waypoint_run_snoc; [done|]. by exists d.
      * destruct groups as [|g gs]; [constructor|].
        change (tail ((g :: gs) ++ [?x])) with (gs ++ [x]) in *.
        apply Forall_app in Hfar as [Hgs Hc]. apply Forall_app. split; [done|].
        apply Forall_singleton. apply Forall_inv in Hc.
        by apply (proj1 (opens_far_snoc th (c :: cs) w ltac:(done))).
    + split_and!.
      * rewrite concat_app. simpl. by rewrite app_nil_r.
      * apply Forall_app. split; [done|]. by apply Forall_singleton.
      * exists w, []. split; [done|constructor].
      * rewrite tail_snoc by (by destruct groups). apply Forall_app. split; [done|].
        apply Forall_singleton. exists w, []. split; [done|]. by exists d.
Qed.

Lemma collect_groups_from th ws : ∀ pre groups current s',
  concat groups ++ current = pre →
  (current = [] → groups = []) →
  Forall (waypoint_run float_of_str th) groups →
  (current = [] ∨ waypoint_run float_of_str th current) →
  Forall (opens_far float_of_str th) (tail (groups ++ [current])) →
  foldM (group_waypoint float_of_str th) (groups, current) ws = Some s' →
  concat s'.1 ++ s'.2 = pre ++ ws ∧
  Forall (waypoint_run float_of_str th) s'.1 ∧
  (s'.2 = [] ∧ s'.1 = [] ∧ ws = [] ∧ current = [] ∨ waypoint_run float_of_str th s'.2) ∧
  Forall (opens_far float_of_str th) (tail (s'.1 ++ [s'.2])).
Proof.
  induction ws as [|w ws IH]; intros pre groups current s' Hpre Hempty Hruns Hrun Hfar Hfold.
  - simpl in Hfold. simplify_eq. simpl. rewrite app_nil_r. split_and!; [done..| |done].
    destruct Hrun as [->|Hrun]; [left | by right]. by rewrite Hempty.
  - simpl in Hfold. apply bind_Some in Hfold as ([groups1 current1] & Hstep & Hfold).
    destruct (group_waypoint_inv th pre groups current w _ Hpre Hempty Hruns Hrun Hfar Hstep)
      as (Hpre1 & Hruns1 & Hrun1 & Hfar1). simpl in *.
    destruct (IH (pre ++ [w]) groups1 current1 s') as (Hc & Hr & Hl & Hf); try done.
    + intros ->. by destruct Hrun1 as (? & ? & ? & _).
    + by right.
    + split_and!; [by rewrite Hc, <- app_assoc|done| |done].
      destruct Hl as [(_ & _ & _ & ->)|Hl]; [|by right].
      by destruct Hrun1 as (? & ? & ? & _).
Qed.

(** What the loop leaves in [groups] and in [current_group]. *)
Lemma collect_groups_runs th ws groups current :
  collect_groups float_of_str th ws = Some (groups, current) →
  ws = concat groups ++ current ∧
  Forall (waypoint_run float_of_str th) groups ∧
  (ws = [] ∧ groups = [] ∧ current = [] ∨ waypoint_run float_of_str th current) ∧
  Forall (opens_far float_of_str th) (tail (groups ++ [current])).
Proof.
  intros Hrun. unfold collect_groups in Hrun.
  destruct (collect_groups_from th ws [] [] [] (groups, current) eq_refl (λ _, eq_refl)
              (Forall_nil_2 _) (or_introl eq_refl) (Forall_nil_2 _) Hrun)
    as (Hc & Hr & Hl & Hf).
  simpl in *. split_and!; [done|done| |done].
  destruct Hl as [(-> & -> & -> & _)|Hl]; [by left | by right].
Qed.

End WaypointFacts.

(** *** [sorted(groups, key=len)] and [reversed] *)

Lemma insert_by_len_Permutation {A} (x : list A) l : insert_by_len x l ≡ₚ x :: l.
Proof.
  induction l as [|y l IH]; simpl; [done|].
  destruct (length x <=? length y)%nat; [done|]. rewrite IH. apply Permutation_swap.
Qed.

Lemma sorted_by_len_Permutation {A} (l : list (list A)) : sorted_by_len l ≡ₚ l.
Proof.
  induction l as [|x l IH]; simpl; [done|]. by rewrite insert_by_len_Permutation, IH.
Qed.

Lemma insert_by_len_sorted {A} (x : list A) l :
  StronglySorted (λ a b, (length a ≤ length b)%nat) l →
  StronglySorted (λ a b, (length a ≤ length b)%nat) (insert_by_len x l).
Proof.
  induction l as [|y l IH]; simpl; intros Hl.
  - repeat constructor.
  - apply StronglySorted_cons in Hl as [Hy Hl].
    destruct (length x <=? length y)%nat eqn:Hxy.
    + apply Nat.leb_le in Hxy. constructor; [by constructor|].
      constructor; [done|]. eapply Forall_impl; [exact Hy|]. simpl. lia.
    + apply Nat.leb_gt in Hxy. constructor; [by apply IH|].
      rewrite insert_by_len_Permutation. constructor; [lia|done].
Qed.

Lemma sorted_by_len_sorted {A} (l : list (list A)) :
  StronglySorted (λ a b, (length a ≤ length b)%nat) (sorted_by_len l).
Proof.
  induction l as [|x l IH]; simpl; [constructor | by apply insert_by_len_sorted].
Qed.

Lemma insert_by_len_filter {A} n (x : list A) l :
  filter (λ g, length g = n) (insert_by_len x l) = filter (λ g, length g = n) (x :: l).
Proof.
  induction l as [|y l IH]; simpl; [done|].
  destruct (length x <=? length y)%nat eqn:Hxy; [done|]. apply Nat.leb_gt in Hxy.
  rewrite (filter_cons _ y), IH, !(filter_cons _ x), (filter_cons _ y).
  repeat case_decide; try done. lia.
Qed.

(** The sort is stable: groups of one size keep their order. *)
Lemma sorted_by_len_filter {A} n (l : list (list A)) :
  filter (λ g, length g = n) (sorted_by_len l) = filter (λ g, length g = n) l.
Proof.
  induction l as [|x l IH]; simpl; [done|].
  by rewrite insert_by_len_filter, !(filter_cons _ x), IH.
Qed.

Lemma StronglySorted_reverse {A} (R : relation A) l :
  StronglySorted R l → StronglySorted (flip R) (reverse l).
Proof.
  induction 1 as [|x l Hl IH Hx]; [constructor|].
  rewrite reverse_cons. apply StronglySorted_app_2; [|exact IH|repeat constructor].
  intros y z Hy ->%list_elem_of_singleton. apply (proj1 (elem_of_reverse _ _)) in Hy.
  rewrite Forall_forall in Hx. unfold flip. by apply Hx.
Qed.

Lemma elem_of_concat {A} (x : A) (ls : list (list A)) :
  x ∈ concat ls ↔ ∃ l, l ∈ ls ∧ x ∈ l.
Proof.
  induction ls as [|l ls IH]; simpl.
  - split; [by intros ?%elem_of_nil | by intros (l & ?%elem_of_nil & _)].
  - rewrite elem_of_app, IH. split.
    + intros [Hx|(l' & Hl' & Hx)]; [exists l; split; [left|done] | exists l'; split; [by right|done]].
    + intros (l' & [->|Hl']%elem_of_cons & Hx); [by left | right; by exists l'].
Qed.

Lemma foldM_cons {A S} (f : S → A → option S) s x l :
  foldM f s (x :: l) = s' ← f s x; foldM f s' l.
Proof. done. Qed.

Section WaypointTheorems.
Variable float_of_str : string → option pyfloat.
Implicit Types (w : Waypoint) (ws current : list Waypoint) (groups : list (list Waypoint)).

Lemma group_waypoint_first th groups w :
  group_waypoint float_of_str th (groups, []) w = Some (groups, [w]).
Proof. done. Qed.

Lemma group_waypoint_open th groups c cs w :
  group_waypoint float_of_str th (groups, c :: cs) w
  = d ← dist_m float_of_str w;
    if float_le d th then Some (groups, (c :: cs) ++ [w])
    else Some (groups ++ [c :: cs], [w]).
Proof. done. Qed.


(** With a group open and every waypoint close to its predecessor, the
    loop only extends the open group. *)
Lemma collect_groups_close th ws : ∀ groups current,
  current ≠ [] →
  Forall (close_to_previous float_of_str th) ws →
  foldM (group_waypoint float_of_str th) (groups, current) ws = Some (groups, current ++ ws).
Proof.
  induction ws as [|w ws IH]; intros groups current Hcur Hclose.
  - by rewrite app_nil_r.
  - apply Forall_cons in Hclose as [(d & Hd & Hle) Hclose].
    destruct current as [|c cs]; [done|].
    rewrite foldM_cons, group_waypoint_open, Hd. cbn [mbind option_bind]. rewrite Hle.
    cbn [mbind option_bind]. rewrite IH; [|done|done].
    by rewrite <- app_assoc.
Qed.

(** X1. The groups that [waypoint_grouper.py] prints are the maximal runs of
    waypoints within the threshold of their predecessor, in the order of
    the file up to the final sort, without the last run: what is in
    [current_group] when the loop ends is never appended to [groups]. *)
Theorem waypoint_groups_are_runs th ws out :
  ws ≠ [] →
  waypoint_groups float_of_str th ws = Some out →
  ∃ groups current,
    out ≡ₚ groups ∧
    ws = concat groups ++ current ∧
    Forall (waypoint_run float_of_str th) (groups ++ [current]) ∧
    Forall (opens_far float_of_str th) (tail (groups ++ [current])).
Proof.
  intros Hws Hout. unfold waypoint_groups in Hout.
  apply bind_Some in Hout as ([groups current] & Hrun & [= <-]).
  apply collect_groups_runs in Hrun as (Hcat & Hruns & Hlast & Hfar).
  exists groups, current. split_and!; [|done| |done].
  - simpl. by rewrite reverse_Permutation, sorted_by_len_Permutation.
  - apply Forall_app. split; [done|]. apply Forall_singleton.
    by destruct Hlast as [(? & _)|?].
Qed.

(** X2. The groups are printed largest first; groups of one size come out in
    the reverse of the order in which the loop closed them. *)
Theorem waypoint_groups_largest_first th ws groups current :
  collect_groups float_of_str th ws = Some (groups, current) →
  ∃ out,
    waypoint_groups float_of_str th ws = Some out ∧
    out ≡ₚ groups ∧
    StronglySorted (λ a b, (length b ≤ length a)%nat) out ∧
    ∀ n, filter (λ g, length g = n) out = reverse (filter (λ g, length g = n) groups).
Proof.
  intros Hrun. unfold waypoint_groups. rewrite Hrun. simpl. eexists. split; [done|].
  split_and!.
  - by rewrite reverse_Permutation, sorted_by_len_Permutation.
  - apply (StronglySorted_reverse (λ a b, (length a ≤ length b)%nat)), sorted_by_len_sorted.
  - intros n. by rewrite filter_reverse, sorted_by_len_filter.
Qed.


(** X4. When every waypoint after the first is within the threshold, the one
    run that holds them all stays in [current_group]: the script prints
    an empty list. *)
Theorem close_waypoints_give_no_group th ws :
  Forall (close_to_previous float_of_str th) (tail ws) →
  waypoint_groups float_of_str th ws = Some [].
Proof.
  intros Hclose. unfold waypoint_groups, collect_groups.
  destruct ws as [|w ws]; [done|].
  rewrite foldM_cons, group_waypoint_first. cbn [mbind option_bind].
  by rewrite (collect_groups_close th ws [] [w]).
Qed.

Lemma summarize_run th g :
  waypoint_run float_of_str th g →
  Forall (λ w, is_Some (dict_get "sol" (properties w))) g →
  ∃ s, summarize g = Some s ∧ count s = length g ∧ (1 ≤ count s)%nat.
Proof.
  intros (w & rest & -> & _) Hsol. unfold summarize.
  rewrite Forall_forall in Hsol.
  destruct (Hsol w) as [s0 Hs0]; [left|]. simpl. rewrite Hs0. simpl.
  destruct (last (w :: rest)) as [z|] eqn:Hz.
  2:{ by apply last_None in Hz. }
  destruct (Hsol z) as [s1 Hs1]; [by apply last_Some_elem_of|].
  simpl. rewrite Hs1. simpl. eexists. split; [done|]. simpl. split; [done|lia].
Qed.

(** X5. With [--summary], no group is empty, so [x[0]] and [x[-1]] are always
    there; every count is the size of its group, and the counts add up to
    less than the number of waypoints. *)
Theorem groups_summary_counts th ws out :
  ws ≠ [] →
  Forall (λ w, is_Some (dict_get "sol" (properties w))) ws →
  waypoint_groups float_of_str th ws = Some out →
  ∃ sums,
    groups_summary float_of_str th ws = Some sums ∧
    Forall2 (λ g s, count s = length g ∧ (1 ≤ count s)%nat) out sums ∧
    (sum_list (count <$> sums) < length ws)%nat.
Proof.
  intros Hws Hsol Hout. unfold groups_summary. rewrite Hout. simpl.
  unfold waypoint_groups in Hout.
  apply bind_Some in Hout as ([groups current] & Hrun & [= <-]).
  apply collect_groups_runs in Hrun as (Hcat & Hruns & Hlast & Hfar). simpl.
  destruct Hlast as [(? & _)|(w0 & rest0 & -> & _)]; [done|].
  set (out := reverse (sorted_by_len groups)).
  assert (out ≡ₚ groups) as Hperm.
  { unfold out. by rewrite reverse_Permutation, sorted_by_len_Permutation. }
  assert (Forall (λ g, ∃ s, summarize g = Some s ∧ count s = length g ∧ (1 ≤ count s)%nat)
            out) as Hall.
  { rewrite Hperm. apply Forall_forall. intros g Hg.
    rewrite Forall_forall in Hruns. apply (summarize_run th); [by apply Hruns|].
    apply Forall_forall. intros w Hw. rewrite Forall_forall in Hsol. apply Hsol.
    rewrite Hcat. apply elem_of_app. left. apply elem_of_concat. by exists g. }
  assert (∃ sums, mapM summarize out = Some sums ∧
                  Forall2 (λ g s, count s = length g ∧ (1 ≤ count s)%nat) out sums)
    as (sums & Hsums & Hcount).
  { clear -Hall. induction out as [|g out IH]; [by exists []; split; [|constructor]|].
    apply Forall_cons in Hall as [(s & Hs & Hc) Hall].
    destruct (IH Hall) as (sums & Hsums & Hcount). exists (s :: sums).
    split; [|by constructor]. apply mapM_Some. constructor; [done|]. by apply mapM_Some. }
  exists sums. split_and!; [done|done|].
  assert (sum_list (count <$> sums) = length (concat out)) as ->.
  { clear -Hcount. induction Hcount as [|g s out sums [Hc _] _ IH]; [done|].
    rewrite fmap_cons. simpl. rewrite length_app, <- IH, Hc. done. }
  rewrite Hperm, Hcat, length_app. simpl. lia.
Qed.

End WaypointTheorems.

Lemma waypoint_groups_are_runs_witness :
  ∃ groups current,
    [drive_middle; drive_start] ≡ₚ groups ∧
    drive = concat groups ++ current ∧
    Forall (waypoint_run no_float_text (Fin 5)) (groups ++ [current]) ∧
    Forall (opens_far no_float_text (Fin 5)) (tail (groups ++ [current])).
Proof.
  apply (waypoint_groups_are_runs no_float_text (Fin 5) drive).
  - done.
  - reflexivity.
Defined.

Lemma waypoint_groups_largest_first_witness :
  ∃ out,
    waypoint_groups no_float_text (Fin 5) drive = Some out ∧
    out ≡ₚ [drive_start; drive_middle] ∧
    StronglySorted (λ a b, (length b ≤ length a)%nat) out ∧
    ∀ n, filter (λ g, length g = n) out
         = reverse (filter (λ g, length g = n) [drive_start; drive_middle]).
Proof.
  apply (waypoint_groups_largest_first no_float_text (Fin 5) drive
           [drive_start; drive_middle] drive_end).
  reflexivity.
Defined.

Lemma close_waypoints_give_no_group_witness :
  waypoint_groups no_float_text (Fin 5) short_drive = Some [].
Proof.
  apply (close_waypoints_give_no_group no_float_text (Fin 5) short_drive).
  repeat (apply Forall_cons_2; [eexists; split; reflexivity|]). apply Forall_nil_2.
Defined.

Lemma groups_summary_counts_witness :
  ∃ sums,
    groups_summary no_float_text (Fin 5) drive = Some sums ∧
    Forall2 (λ g s, count s = length g ∧ (1 ≤ count s)%nat)
            [drive_middle; drive_start] sums ∧
    (sum_list (count <$> sums) < length drive)%nat.
Proof.
  apply (groups_summary_counts no_float_text (Fin 5) drive [drive_middle; drive_start]).
  - done.
  - by apply (bool_decide_unpack _).
  - reflexivity.
Defined.

(** ** Correspondences *)

Lemma foldM_snoc {A S} (f : S → A → option S) s l x :
  foldM f s (l ++ [x]) = s' ← foldM f s l; f s' x.
Proof.
  rewrite foldM_app. destruct (foldM f s l) as [s'|]; simpl; [|done].
  by destruct (f s' x).
Qed.

Lemma foldl_foldM {A S} (f : S → A → S) s l :
  foldM (λ s x, Some (f s x)) s l = Some (foldl f s l).
Proof. revert s. induction l as [|x l IH]; intros s; simpl; [done | apply IH]. Qed.

(** The entry of a ground image under a size, in the nested dictionary. *)
Lemma dict_get_update {V} (k k' : key) (fresh : V) (f : V → V) (d : dict V) :
  dict_get k' (dict_update k fresh f d)
  = if decide (k' = k) then Some (f (default fresh (dict_get k d))) else dict_get k' d.
Proof. unfold dict_update. apply dict_get_set. Qed.

Lemma collect_aerial_labels_keys paths :
  NoDup (dict_keys (collect_aerial_labels paths)) ∧
  ∀ a, a ∈ dict_keys (collect_aerial_labels paths)
       ↔ a ∈ paths ∧ is_Some (tile_label_match (path_name a)).
Proof.
  unfold collect_aerial_labels.
  induction paths as [|p paths IH] using rev_ind; simpl.
  - split; [constructor|]. intros a. split; [by intros ?%elem_of_nil|].
    by intros [?%elem_of_nil _].
  - rewrite foldl_app. simpl. destruct IH as [Hnd Hkeys].
    destruct (tile_label_match (path_name p)) as [groups|] eqn:Hp.
    + split; [by apply dict_set_keys_NoDup|]. intros a.
      rewrite dict_keys_set, elem_of_app, list_elem_of_singleton. case_decide as Hin.
      * rewrite Hkeys. split; [intros [? ?]; by split; [left|]|].
        intros [[?| ->] ?]; [done|]. by apply Hkeys.
      * rewrite elem_of_app, list_elem_of_singleton, Hkeys. split.
        -- intros [[? ?]| ->]; [by split; [left|] | split; [by right | by rewrite Hp]].
        -- intros [[?| ->] ?]; [by left | by right].
    + split; [done|]. intros a. rewrite Hkeys, elem_of_app, list_elem_of_singleton. split.
      * intros [? ?]. by split; [left|].
      * intros [[?| ->] Hs]; [done|]. rewrite Hp in Hs. by destruct Hs.
Qed.

Lemma collect_aerial_labels_str paths a av :
  dict_get a (collect_aerial_labels paths) = Some av → Forall (λ p, is_str p.2) av.
Proof.
  unfold collect_aerial_labels.
  induction paths as [|p paths IH] using rev_ind; simpl; [done|].
  rewrite foldl_app. simpl.
  destruct (tile_label_match (path_name p)) as [groups|] eqn:Hp; [|done].
  rewrite dict_get_set. case_decide; [|done]. intros [= <-].
  by apply label_match_str in Hp.
Qed.

Lemma collect_ground_labels_inv paths : ∀ gls0 gls,
  NoDup (dict_keys gls0) →
  Forall (λ p, is_str (label_lat p.2) ∧ is_str (label_lon p.2)) gls0 →
  foldM collect_ground_label gls0 paths = Some gls →
  NoDup (dict_keys gls) ∧
  Forall (λ p, is_str (label_lat p.2) ∧ is_str (label_lon p.2)) gls.
Proof.
  induction paths as [|p paths IH]; intros gls0 gls Hnd Hstr Hrun; simpl in Hrun.
  - by simplify_eq.
  - apply bind_Some in Hrun as (gls1 & Hstep & Hrun).
    apply (IH gls1 gls); [..|done]; unfold collect_ground_label in Hstep;
      apply bind_Some in Hstep as (size & _ & Hstep);
      destruct (size_match size); simplify_eq; try done;
      destruct (located_label_match _) as [groups|] eqn:Hg; simplify_eq; try done.
    + by apply dict_set_keys_NoDup.
    + apply Forall_forall. intros [g gl] [Hin|[-> ->]]%elem_dict_set.
      * rewrite Forall_forall in Hstr. apply (Hstr _ Hin).
      * unfold located_label_match in Hg.
        apply bind_Some in Hg as (lat_part & _ & Hg). apply bind_Some in Hg as (s1 & _ & Hg).
        apply bind_Some in Hg as (lon_part & _ & Hg). apply bind_Some in Hg as (s2 & _ & Hg).
        destruct (match_any_then_png _); simplify_eq. simpl. split; by eexists.
Qed.

Lemma check_image_correspondence_str gl av :
  is_str (label_lat gl) → is_str (label_lon gl) → Forall (λ p, is_str p.2) av →
  is_Some (check_image_correspondence gl av).
Proof.
  intros Hlat Hlon Hav. unfold check_image_correspondence.
  destruct (py_between_str (group av "min_lon") (label_lon gl) (group av "max_lon"))
    as [c ->]; [by apply group_str|done|by apply group_str|].
  simpl. destruct c; [|by eexists].
  apply py_between_str; [by apply group_str|done|by apply group_str].
Qed.

(** The two-level lookup [by_size[size][path]]. *)
Lemma record_ground_image_get av by_size g gl by_size' size g' :
  record_ground_image av by_size (g, gl) = Some by_size' →
  dict_get size by_size' ≫= dict_get g'
  = if decide (check_image_correspondence gl av = Some true ∧ size = label_size gl ∧ g' = g)
    then Some (mkLonLat (label_lon gl) (label_lon gl))
    else dict_get size by_size ≫= dict_get g'.
Proof.
  unfold record_ground_image. simpl. intros Hrec.
  apply bind_Some in Hrec as (c & Hc & Hrec). destruct c; simplify_eq.
  - rewrite dict_get_update. destruct (decide (size = label_size gl)) as [->|Hs]; simpl.
    + rewrite dict_get_set. destruct (decide (g' = g)) as [->|Hg].
      * by rewrite decide_True.
      * rewrite decide_False by (by intros (_ & _ & ?)).
        by destruct (dict_get (label_size gl) by_size).
    + by rewrite decide_False by (by intros (_ & ? & _)).
  - rewrite decide_False; [done|]. intros (Hc' & _). congruence.
Qed.

Lemma record_ground_images_get av gls : ∀ by_size,
  NoDup (dict_keys gls) →
  foldM (record_ground_image av) [] gls = Some by_size →
  ∀ size g p,
    dict_get size by_size ≫= dict_get g = Some p ↔
    ∃ gl, dict_get g gls = Some gl ∧ check_image_correspondence gl av = Some true ∧
          label_size gl = size ∧ p = mkLonLat (label_lon gl) (label_lon gl).
Proof.
  induction gls as [|[g0 gl0] gls IH] using rev_ind; intros by_size Hnd Hrun size g p.
  - simpl in Hrun. simplify_eq. simpl. split; [done|]. by intros (gl & ? & _).
  - rewrite foldM_snoc in Hrun. apply bind_Some in Hrun as (by1 & Hrun & Hstep).
    unfold dict_keys in Hnd. rewrite fmap_app in Hnd.
    apply NoDup_app in Hnd as (Hnd & Hfresh & _). simpl in Hfresh.
    assert (g0 ∉ dict_keys gls) as Hg0.
    { intros Hin. apply (Hfresh g0 Hin). left. }
    assert (∀ k, dict_get k (gls ++ [(g0, gl0)])
                 = if decide (k = g0) then Some gl0 else dict_get k gls) as Hget.
    { intros k. clear -Hg0. induction gls as [|[k1 v1] gls IH]; simpl.
      - by repeat case_decide.
      - change (dict_keys ((k1, v1) :: gls)) with (k1 :: dict_keys gls) in Hg0.
        apply not_elem_of_cons in Hg0 as [Hne Hg0]. rewrite (IH Hg0).
        repeat case_decide; congruence. }
    rewrite (record_ground_image_get av by1 g0 gl0 by_size size g Hstep), Hget.
    specialize (IH by1 Hnd Hrun size g p).
    case_decide as Hmatch.
    + destruct Hmatch as (Hc & -> & ->). rewrite decide_True by done. split.
      * intros [= <-]. by exists gl0.
      * by intros (gl & [= <-] & _ & _ & ->).
    + rewrite IH. case_decide as Hg; [|done]. subst g. split.
      * intros (gl & Hgl%dict_get_Some_elem%elem_dict_keys & _). done.
      * intros (gl & [= <-] & Hc & Hs & _). by destruct Hmatch.
Qed.

Lemma record_ground_images_total av gls :
  Forall (λ p, is_str (label_lat p.2) ∧ is_str (label_lon p.2)) gls →
  Forall (λ p, is_str p.2) av →
  ∀ by_size, is_Some (foldM (record_ground_image av) by_size gls).
Proof.
  intros Hgls Hav. induction Hgls as [|[g gl] gls [Hlat Hlon] _ IH]; intros by_size.
  - by eexists.
  - assert (is_Some (record_ground_image av by_size (g, gl))) as [by1 Hby1].
    { unfold record_ground_image. simpl.
      destruct (check_image_correspondence_str gl av Hlat Hlon Hav) as [c ->]. simpl.
      by destruct c. }
    change (is_Some (s ← record_ground_image av by_size (g, gl);
                     foldM (record_ground_image av) s gls)).
    rewrite Hby1. apply IH.
Qed.

Lemma correlate_tiles_get gls tiles : ∀ out,
  NoDup (dict_keys tiles) →
  foldM (correlate_tile gls) [] tiles = Some out →
  dict_keys out = dict_keys tiles ∧
  ∀ a c, dict_get a out = Some c ↔
    ∃ av by_size,
      dict_get a tiles = Some av ∧
      foldM (record_ground_image av) [] gls = Some by_size ∧
      c = mkTileCorrespondence (group av "tile_id") "640x640"
            (group av "min_lon") (group av "max_lon")
            (group av "min_lat") (group av "max_lat") by_size.
Proof.
  induction tiles as [|[a0 av0] tiles IH] using rev_ind; intros out Hnd Hrun.
  - simpl in Hrun. simplify_eq. split; [done|]. intros a c. simpl. split; [done|].
    by intros (? & ? & ? & _).
  - rewrite foldM_snoc in Hrun. apply bind_Some in Hrun as (out1 & Hrun & Hstep).
    unfold dict_keys in Hnd. rewrite fmap_app in Hnd.
    apply NoDup_app in Hnd as (Hnd & Hfresh & _). simpl in Hfresh.
    assert (a0 ∉ dict_keys tiles) as Ha0.
    { intros Hin. apply (Hfresh a0 Hin). left. }
    destruct (IH out1 Hnd Hrun) as [Hkeys Hget].
    unfold correlate_tile in Hstep. simpl in Hstep.
    apply bind_Some in Hstep as (by_size & Hby & [= <-]).
    assert (∀ k, dict_get k (tiles ++ [(a0, av0)])
                 = if decide (k = a0) then Some av0 else dict_get k tiles) as Hlast.
    { intros k. clear -Ha0. induction tiles as [|[k1 v1] tiles IH]; simpl.
      - by repeat case_decide.
      - change (dict_keys ((k1, v1) :: tiles)) with (k1 :: dict_keys tiles) in Ha0.
        apply not_elem_of_cons in Ha0 as [Hne Ha0]. rewrite (IH Ha0).
        repeat case_decide; congruence. }
    split.
    + rewrite dict_keys_set, Hkeys, decide_False by done.
      unfold dict_keys. by rewrite fmap_app.
    + intros a c. rewrite dict_get_set, Hlast. case_decide as Ha.
      * subst a. split.
        -- intros [= <-]. by exists av0, by_size.
        -- intros (av & by' & [= <-] & Hby' & ->). congruence.
      * apply Hget.
Qed.

Lemma collect_aerial_labels_get paths a av :
  dict_get a (collect_aerial_labels paths) = Some av ↔
  a ∈ paths ∧ tile_label_match (path_name a) = Some av.
Proof.
  unfold collect_aerial_labels.
  induction paths as [|p paths IH] using rev_ind; simpl.
  - split; [done|]. by intros [?%elem_of_nil _].
  - rewrite foldl_app. simpl. rewrite elem_of_app, list_elem_of_singleton.
    destruct (tile_label_match (path_name p)) as [groups|] eqn:Hp.
    + rewrite dict_get_set. case_decide as Ha.
      * subst a. rewrite Hp. split; [intros [= <-]; by split; [right|] | by intros [_ ?]].
      * rewrite IH. split; [intros [? ?]; by split; [left|] | by intros [[?|?] ?]].
    + rewrite IH. split; [intros [? ?]; by split; [left|]|].
      intros [[?| ->] Hm]; [done | congruence].
Qed.

Lemma collect_ground_labels_get paths : ∀ gls,
  collect_ground_labels paths = Some gls →
  ∀ g gl, dict_get g gls = Some gl ↔ g ∈ paths ∧ ground_label_of g = Some gl.
Proof.
  unfold collect_ground_labels.
  induction paths as [|p paths IH] using rev_ind; intros gls Hrun g gl.
  - simpl in Hrun. simplify_eq. simpl. split; [done|]. by intros [?%elem_of_nil _].
  - rewrite foldM_snoc in Hrun. apply bind_Some in Hrun as (gls1 & Hrun & Hstep).
    specialize (IH gls1 Hrun g gl). rewrite elem_of_app, list_elem_of_singleton.
    unfold collect_ground_label in Hstep.
    apply bind_Some in Hstep as (size & Hsize & Hstep).
    assert (ground_label_of p
            = if size_match size
              then groups ← located_label_match (path_name p);
                   Some (mkGroundLabel (group groups "lat") (group groups "lon") size)
              else None) as Hof.
    { unfold ground_label_of. by rewrite Hsize. }
    destruct (size_match size).
    + destruct (located_label_match (path_name p)) as [groups|]; simplify_eq.
      * rewrite dict_get_set. case_decide as Hg.
        -- subst g. rewrite Hof. simpl. split; [intros [= <-]; by split; [right|] | by intros [_ ?]].
        -- rewrite IH. split; [intros [? ?]; by split; [left|] | by intros [[?|?] ?]].
      * rewrite IH. split; [intros [? ?]; by split; [left|]|].
        intros [[?| ->] Hm]; [done|]. rewrite Hof in Hm. done.
    + simplify_eq. rewrite IH. split; [intros [? ?]; by split; [left|]|].
      intros [[?| ->] Hm]; [done | congruence].
Qed.

(** One recorded entry, traced back to the two file names. *)
Lemma recorded_entry aerial_paths ground_paths out a c size g p :
  image_correspondences aerial_paths ground_paths = Some out →
  dict_get a out = Some c →
  dict_get size (c_ground_images c) ≫= dict_get g = Some p ↔
  ∃ av gl,
    tile_label_match (path_name a) = Some av ∧
    g ∈ ground_paths ∧ ground_label_of g = Some gl ∧ label_size gl = size ∧
    check_image_correspondence gl av = Some true ∧
    p = mkLonLat (label_lon gl) (label_lon gl).
Proof.
  unfold image_correspondences. intros Hrun Hc.
  apply bind_Some in Hrun as (gls & Hgls & Hrun).
  destruct (collect_aerial_labels_keys aerial_paths) as [Hnd _].
  destruct (correlate_tiles_get gls _ out Hnd Hrun) as [_ Hget].
  apply Hget in Hc as (av & by_size & Hav & Hby & ->). simpl.
  apply collect_aerial_labels_get in Hav as [_ Hav].
  destruct (collect_ground_labels_inv ground_paths [] gls) as [Hndg _];
    [constructor|constructor|done|].
  rewrite (record_ground_images_get av gls by_size Hndg Hby). split.
  - intros (gl & Hgl & Hcheck & Hsize & ->).
    apply (collect_ground_labels_get _ _ Hgls) in Hgl as [Hin Hof]. by exists av, gl.
  - intros (av' & gl & Hav' & Hin & Hof & Hsize & Hcheck & ->).
    assert (av' = av) as -> by congruence. exists gl. split_and!; try done.
    by apply (collect_ground_labels_get _ _ Hgls).
Qed.

(** X6. In the output of [image_correspondinator.py] a ground image is listed
    under a tile and a size exactly when it was found in a directory of
    that size, its name carries a location, and the location lies within
    the four bounds of the tile as the comparison of the label strings
    sees it. *)
Theorem ground_image_recorded_iff_contained aerial_paths ground_paths out a c size g :
  image_correspondences aerial_paths ground_paths = Some out →
  dict_get a out = Some c →
  is_Some (dict_get size (c_ground_images c) ≫= dict_get g) ↔
  ∃ av gl,
    tile_label_match (path_name a) = Some av ∧
    g ∈ ground_paths ∧ ground_label_of g = Some gl ∧ label_size gl = size ∧
    check_image_correspondence gl av = Some true.
Proof.
  intros Hrun Hc. split.
  - intros [p Hp].
    apply (recorded_entry _ _ _ _ _ _ _ _ Hrun Hc) in Hp
      as (av & gl & ? & ? & ? & ? & ? & _).
    by exists av, gl.
  - intros (av & gl & ? & ? & ? & ? & ?). eexists.
    apply (recorded_entry _ _ _ _ _ _ _ _ Hrun Hc). by exists av, gl.
Qed.

Lemma ground_image_recorded_iff_contained_witness :
  ∃ out c,
    image_correspondences tile_listing pano_listing = Some out ∧
    dict_get "3_49.0_51.0_10.0_11.0.png" out = Some c ∧
    (is_Some (dict_get "640x480" (c_ground_images c)
                ≫= dict_get "run1/labelled/640x480/50.4_10.2_a.png") ↔
     ∃ av gl,
       tile_label_match (path_name "3_49.0_51.0_10.0_11.0.png") = Some av ∧
       "run1/labelled/640x480/50.4_10.2_a.png" ∈ pano_listing ∧
       ground_label_of "run1/labelled/640x480/50.4_10.2_a.png" = Some gl ∧
       label_size gl = "640x480" ∧
       check_image_correspondence gl av = Some true).
Proof.
  eexists _, _. split; [vm_compute; reflexivity|]. split; [vm_compute; reflexivity|].
  eapply (ground_image_recorded_iff_contained tile_listing pano_listing _
           "3_49.0_51.0_10.0_11.0.png" _ "640x480"
           "run1/labelled/640x480/50.4_10.2_a.png"); vm_compute; reflexivity.
Defined.

(** X7. Both fields of a recorded ground image hold the longitude of its
    label: the assignment to ["lat"] reads [ground_image_values["lon"]].
    The latitude of the label is not written anywhere. *)
Theorem recorded_latitude_is_longitude aerial_paths ground_paths out a c size entries g p :
  image_correspondences aerial_paths ground_paths = Some out →
  dict_get a out = Some c →
  dict_get size (c_ground_images c) = Some entries →
  dict_get g entries = Some p →
  ∃ groups,
    located_label_match (path_name g) = Some groups ∧
    lon p = group groups "lon" ∧ lat p = group groups "lon".
Proof.
  intros Hrun Hc Hentries Hp.
  assert (dict_get size (c_ground_images c) ≫= dict_get g = Some p) as Hrec.
  { by rewrite Hentries. }
  apply (recorded_entry _ _ _ _ _ _ _ _ Hrun Hc) in Hrec
    as (av & gl & _ & _ & Hof & _ & _ & ->).
  unfold ground_label_of in Hof. apply bind_Some in Hof as (size' & _ & Hof).
  destruct (size_match size'); [|done].
  apply bind_Some in Hof as (groups & Hgroups & [= <-]). by exists groups.
Qed.

Lemma recorded_latitude_is_longitude_witness :
  ∃ groups,
    located_label_match (path_name "run1/labelled/640x480/50.4_10.2_a.png") = Some groups ∧
    lon (mkLonLat (PyStr "10.2") (PyStr "10.2")) = group groups "lon" ∧
    lat (mkLonLat (PyStr "10.2") (PyStr "10.2")) = group groups "lon".
Proof.
  eapply (recorded_latitude_is_longitude tile_listing pano_listing _
            "3_49.0_51.0_10.0_11.0.png" _ "640x480" _
            "run1/labelled/640x480/50.4_10.2_a.png"); vm_compute; reflexivity.
Defined.

(** X8. On ground paths that have a directory above the file, as the
    paths of the glob [**/labelled/*/*.png] have, the script raises
    nothing, the labels being strings. It writes an entry for every tile
    whose name matches the tile grammar, and for no other path; the
    entry carries the four bounds of the label and the size ["640x640"],
    whatever the image is. *)
Theorem image_correspondences_total aerial_paths ground_paths :
  Forall (λ g, is_Some (parent_part g)) ground_paths →
  ∃ out,
    image_correspondences aerial_paths ground_paths = Some out ∧
    NoDup (dict_keys out) ∧
    (∀ a, a ∈ dict_keys out ↔
          a ∈ aerial_paths ∧ is_Some (tile_label_match (path_name a))) ∧
    ∀ a c, dict_get a out = Some c →
      c_size c = "640x640" ∧
      ∃ av, tile_label_match (path_name a) = Some av ∧
            c_tile_id c = group av "tile_id" ∧
            c_min_lon c = group av "min_lon" ∧ c_max_lon c = group av "max_lon" ∧
            c_min_lat c = group av "min_lat" ∧ c_max_lat c = group av "max_lat".
Proof.
  intros Hparts. unfold image_correspondences.
  assert (∀ gls0, ∃ gls, foldM collect_ground_label gls0 ground_paths = Some gls)
    as Hgls.
  { induction Hparts as [|g gps [size Hsize] _ IH]; intros gls0; [by eexists|].
    assert (is_Some (collect_ground_label gls0 g)) as [gls1 Hgls1].
    { unfold collect_ground_label. rewrite Hsize. simpl.
      destruct (size_match size); [|done]. by destruct (located_label_match _). }
    rewrite foldM_cons, Hgls1. apply IH. }
  destruct (Hgls []) as [gls Hrun]. unfold collect_ground_labels. rewrite Hrun. simpl.
  destruct (collect_ground_labels_inv ground_paths [] gls) as [_ Hstr];
    [constructor|constructor|done|].
  destruct (collect_aerial_labels_keys aerial_paths) as [Hnd Hkeys].
  assert (∀ tiles out0,
            (∀ a av, (a, av) ∈ tiles → Forall (λ p, is_str p.2) av) →
            is_Some (foldM (correlate_tile gls) out0 tiles)) as Htotal.
  { induction tiles as [|[a av] tiles IH]; intros out0 Hav; [by eexists|].
    assert (is_Some (correlate_tile gls out0 (a, av))) as [out1 Hout1].
    { unfold correlate_tile. simpl.
      destruct (record_ground_images_total av gls Hstr) with (by_size := @nil (key * dict LonLat))
        as [by_size ->]; [apply (Hav a); left|done]. }
    rewrite foldM_cons, Hout1. apply IH. intros a' av' Hin. apply (Hav a'). by right. }
  destruct (Htotal (collect_aerial_labels aerial_paths) []) as [out Hout].
  { intros a av Hin. apply (collect_aerial_labels_str aerial_paths a).
    by apply elem_dict_get. }
  exists out. split; [done|].
  destruct (correlate_tiles_get gls _ out Hnd Hout) as [Hk Hget]. split_and!.
  - by rewrite Hk.
  - intros a. by rewrite Hk.
  - intros a c (av & by_size & Hav & _ & ->)%Hget. split; [done|].
    apply collect_aerial_labels_get in Hav as [_ Hav]. by exists av.
Qed.

Lemma image_correspondences_total_witness :
  ∃ out,
    image_correspondences tile_listing pano_listing = Some out ∧
    NoDup (dict_keys out) ∧
    (∀ a, a ∈ dict_keys out ↔
          a ∈ tile_listing ∧ is_Some (tile_label_match (path_name a))) ∧
    ∀ a c, dict_get a out = Some c →
      c_size c = "640x640" ∧
      ∃ av, tile_label_match (path_name a) = Some av ∧
            c_tile_id c = group av "tile_id" ∧
            c_min_lon c = group av "min_lon" ∧ c_max_lon c = group av "max_lon" ∧
            c_min_lat c = group av "min_lat" ∧ c_max_lat c = group av "max_lat".
Proof.
  apply (image_correspondences_total tile_listing pano_listing).
  by apply (bool_decide_unpack _).
Defined.

(** ** A curation only takes away *)

Lemma remove_first_sublist k l : list_remove_first k l `sublist_of` l.
Proof.
  induction l as [|x l IH]; simpl; [done|].
  case_decide; [by apply sublist_cons | by apply sublist_skip].
Qed.

Lemma scrub_sublist k l : scrub k l `sublist_of` l.
Proof. unfold scrub. case_decide; [apply remove_first_sublist | done]. Qed.

Lemma aerial_item_shrinks_refl ai : aerial_item_shrinks ai ai.
Proof. by repeat split. Qed.

Lemma ground_item_shrinks_refl gi : ground_item_shrinks gi gi.
Proof. by repeat split. Qed.

Lemma aerial_item_shrinks_trans ai1 ai2 ai3 :
  aerial_item_shrinks ai1 ai2 → aerial_item_shrinks ai2 ai3 → aerial_item_shrinks ai1 ai3.
Proof.
  intros (?&?&?&?&?&?&?) (?&?&?&?&?&?&?). repeat split; try congruence; by etrans.
Qed.

Lemma ground_item_shrinks_trans gi1 gi2 gi3 :
  ground_item_shrinks gi1 gi2 → ground_item_shrinks gi2 gi3 → ground_item_shrinks gi1 gi3.
Proof. intros (?&?&?&?) (?&?&?&?). repeat split; try congruence; by etrans. Qed.

Lemma shrinks_refl m : shrinks m m.
Proof.
  split_and!; [done|done| |].
  - intros a ai ?. exists ai. split; [done | apply aerial_item_shrinks_refl].
  - intros g gi ?. exists gi. split; [done | apply ground_item_shrinks_refl].
Qed.

Lemma shrinks_trans m1 m2 m3 : shrinks m1 m2 → shrinks m2 m3 → shrinks m1 m3.
Proof.
  intros (Ha1 & Hg1 & Hai1 & Hgi1) (Ha2 & Hg2 & Hai2 & Hgi2).
  split_and!; [by etrans|by etrans| |].
  - intros a ai3 (ai2 & H2 & Hs2)%Hai2. destruct (Hai1 a ai2 H2) as (ai1 & H1 & Hs1).
    exists ai1. split; [done|]. by eapply aerial_item_shrinks_trans.
  - intros g gi3 (gi2 & H2 & Hs2)%Hgi2. destruct (Hgi1 g gi2 H2) as (gi1 & H1 & Hs1).
    exists gi1. split; [done|]. by eapply ground_item_shrinks_trans.
Qed.

Lemma dict_keys_del_sublist {V} (d : dict V) k : dict_keys (dict_del k d) `sublist_of` dict_keys d.
Proof. unfold dict_keys, dict_del. apply fmap_sublist, sublist_filter. Qed.

Lemma remove_ground_image_shrinks k m m' :
  remove_ground_image k m = Some m' → shrinks m m'.
Proof.
  intros [_ ->]%remove_ground_image_Some. split_and!; simpl.
  - by rewrite dict_keys_map.
  - apply dict_keys_del_sublist.
  - intros a ai'. rewrite dict_get_map. intros (ai & Hai & ->)%fmap_Some.
    exists ai. split; [done|]. repeat split; simpl; try done.
    + apply sublist_submseteq, scrub_sublist.
    + apply scrub_sublist.
  - intros g gi. rewrite dict_get_del. case_decide; [done|]. intros Hgi.
    exists gi. split; [done | apply ground_item_shrinks_refl].
Qed.

Lemma remove_aerial_image_shrinks k m m' :
  remove_aerial_image k m = Some m' → shrinks m m'.
Proof.
  intros [_ ->]%remove_aerial_image_Some. split_and!; simpl.
  - apply dict_keys_del_sublist.
  - by rewrite dict_keys_map.
  - intros a ai. rewrite dict_get_del. case_decide; [done|]. intros Hai.
    exists ai. split; [done | apply aerial_item_shrinks_refl].
  - intros g gi'. rewrite dict_get_map. intros (gi & Hgi & ->)%fmap_Some.
    exists gi. split; [done|]. repeat split; simpl; apply scrub_sublist.
Qed.

Lemma remove_image_shrinks k m m' : remove_image k m = Some m' → shrinks m m'.
Proof.
  unfold remove_image.
  destruct (dict_mem k (aerial m)); [apply remove_aerial_image_shrinks|].
  destruct (dict_mem k (ground m)); [apply remove_ground_image_shrinks|].
  intros [= <-]. apply shrinks_refl.
Qed.

Lemma remove_ground_images_shrinks ks m m' :
  foldM (λ m k, remove_ground_image k m) m ks = Some m' → shrinks m m'.
Proof.
  intros Hrun. revert Hrun. apply (foldM_invariant (shrinks m)); [|apply shrinks_refl].
  intros s k s' Hs Hrm. eapply shrinks_trans; [done|]. by eapply remove_ground_image_shrinks.
Qed.

Section ShrinkFacts.
Context {R : Type} `{RandomSource R}.

Lemma cap_tile_shrinks max (m : Manifest) (r : R) a m' r' :
  cap_tile max (m, r) a = Some (m', r') → shrinks m m'.
Proof.
  intros Hrun.
  apply cap_tile_cases in Hrun as [[= -> ->]|(ai & smp & m1 & Ha & Hs & Hrm & ->)];
    [apply shrinks_refl|].
  apply py_sample_Some in Hs as (_ & Hsub & _).
  apply remove_ground_images_shrinks in Hrm as (Hka & Hkg & Hai & Hgi).
  split_and!; simpl; [by rewrite dict_keys_alter|done| |done].
  intros a' ai'. rewrite dict_get_alter. case_decide as Haa.
  - subst a'. intros (ai1 & Hai1 & ->)%fmap_Some.
    destruct (Hai a ai1 Hai1) as (ai0 & Hai0 & Hs0). assert (ai0 = ai) as -> by congruence.
    exists ai. split; [done|]. destruct Hs0 as (?&?&?&?&?&?&?). by repeat split.
  - apply Hai.
Qed.

Lemma run_pass_shrinks args p (m : Manifest) (r : R) m' r' :
  run_pass args p (m, r) = Some (m', r') → shrinks m m'.
Proof.
  assert (∀ k m1 m2, shrinks m m1 → remove_image k m1 = Some m2 → shrinks m m2) as Hri.
  { intros k m1 m2 Hs Hrm. eapply shrinks_trans; [done|]. by eapply remove_image_shrinks. }
  assert (∀ k m1 m2, shrinks m m1 → remove_ground_image k m1 = Some m2 → shrinks m m2)
    as Hrg.
  { intros k m1 m2 Hs Hrm. eapply shrinks_trans; [done|].
    by eapply remove_ground_image_shrinks. }
  assert (∀ k m1 m2, shrinks m m1 → remove_aerial_image k m1 = Some m2 → shrinks m m2)
    as Hra.
  { intros k m1 m2 Hs Hrm. eapply shrinks_trans; [done|].
    by eapply remove_aerial_image_shrinks. }
  pose proof (shrinks_refl m) as Hm.
  destruct p; simpl.
  - apply (lift_preserves (shrinks m)); [|done]. intros ??.
    by apply remove_duplicates_preserves.
  - apply (lift_preserves (shrinks m)); [|done]. intros ??.
    by apply remove_spaces_preserves.
  - apply (lift_preserves (shrinks m)); [|done]. intros ??.
    by apply remove_non_panoramas_preserves.
  - unfold cap_positives. simpl. intros Hrun.
    apply (foldM_invariant (λ s : St, shrinks m s.1) (cap_tile _) _) in Hrun; [done| |done].
    intros [m0 r0] a [m1 r1] Hs Hstep. simpl in *. eapply shrinks_trans; [done|].
    by eapply cap_tile_shrinks.
  - by apply (remove_distractions_preserves (shrinks m)).
  - apply (lift_preserves (shrinks m)); [|done]. intros ??.
    by apply remove_few_semi_positives_preserves.
Qed.

Lemma passes_shrink args ps : ∀ (m : Manifest) (r : R) m' r',
  foldM (λ s p, run_pass args p s) (m, r) ps = Some (m', r') → shrinks m m'.
Proof.
  induction ps as [|p ps IH]; intros m r m' r' Hrun; simpl in Hrun.
  - simplify_eq. apply shrinks_refl.
  - apply bind_Some in Hrun as ([m1 r1] & Hp & Hrun).
    eapply shrinks_trans; [by eapply run_pass_shrinks | by eapply IH].
Qed.

End ShrinkFacts.

(** ** The passes on names *)

Lemma filter_ne_not_elem (k : key) (l : list key) : k ∉ l → filter (λ x, x ≠ k) l = l.
Proof.
  induction l as [|x l IH]; [done|]. intros [Hne Hl]%not_elem_of_cons.
  rewrite filter_cons_True by done. by rewrite IH.
Qed.

(** What a guarded removal does to the keys, aerial keys first. *)
Lemma remove_image_keys k m m' :
  NoDup (all_keys m) → remove_image k m = Some m' →
  all_keys m' = filter (λ x, x ≠ k) (all_keys m).
Proof.
  unfold all_keys. intros (Ha & Hdisj & Hg)%NoDup_app. rewrite filter_app.
  unfold remove_image, dict_mem. case_bool_decide as Hka.
  - intros [_ ->]%remove_aerial_image_Some. simpl.
    rewrite dict_keys_del, dict_keys_map. f_equal. symmetry. apply filter_ne_not_elem.
    by apply Hdisj.
  - case_bool_decide as Hkg.
    + intros [_ ->]%remove_ground_image_Some. simpl.
      rewrite dict_keys_del, dict_keys_map. f_equal. symmetry. by apply filter_ne_not_elem.
    + intros [= <-]. by rewrite !filter_ne_not_elem.
Qed.

Lemma remove_images_keys ks : ∀ m m',
  NoDup (all_keys m) → foldM (λ m k, remove_image k m) m ks = Some m' →
  all_keys m' = filter (λ x, x ∉ ks) (all_keys m).
Proof.
  induction ks as [|k ks IH]; intros m m' Hnd Hrun; simpl in Hrun.
  - simplify_eq. symmetry. clear Hnd. induction (all_keys m') as [|x l IHl]; [done|].
    rewrite filter_cons_True by apply not_elem_of_nil. by f_equal.
  - apply bind_Some in Hrun as (m1 & Hstep & Hrun).
    pose proof (remove_image_keys k m m1 Hnd Hstep) as Hk1.
    rewrite (IH m1 m'); [|by rewrite Hk1; apply NoDup_filter|done].
    rewrite Hk1, list_filter_filter. apply list_filter_iff. intros x.
    rewrite not_elem_of_cons. tauto.
Qed.


(** *** The groups of [image_names] *)

Lemma image_names_snoc ks k :
  image_names (ks ++ [k]) = names_append (path_name k) k (image_names ks).
Proof. unfold image_names. by rewrite foldl_app. Qed.

Lemma names_append_keys n k d x :
  x ∈ dict_keys (names_append n k d) ↔ x ∈ dict_keys d ∨ x = n.
Proof.
  induction d as [|[n0 v0] d IH]; simpl.
  - change (dict_keys [(n, [k])]) with [n]. rewrite list_elem_of_singleton.
    split; [by right | by intros [?%elem_of_nil|?]].
  - change (dict_keys ((n0, v0) :: d)) with (n0 :: dict_keys d). case_decide as Hn.
    + subst n0. change (dict_keys ((n, v0 ++ [k]) :: d)) with (n :: dict_keys d).
      rewrite elem_of_cons. split; [by left | intros [?| ->]; [done | by left]].
    + change (dict_keys ((n0, v0) :: names_append n k d))
        with (n0 :: dict_keys (names_append n k d)).
      rewrite !elem_of_cons, IH. tauto.
Qed.

Lemma image_names_keys ks n : n ∈ dict_keys (image_names ks) ↔ n ∈ path_name <$> ks.
Proof.
  induction ks as [|k ks IH] using rev_ind; [done|].
  rewrite image_names_snoc, names_append_keys, IH, fmap_app, elem_of_app.
  simpl. by rewrite list_elem_of_singleton.
Qed.

Lemma names_append_nonempty n k d :
  Forall (λ p, p.2 ≠ []) d → Forall (λ p, p.2 ≠ []) (names_append n k d).
Proof.
  induction 1 as [|[n0 v0] d Hv Hd IH]; simpl.
  - by repeat constructor.
  - case_decide; constructor; simpl; try done. by destruct v0.
Qed.

Lemma image_names_nonempty ks : Forall (λ p, p.2 ≠ []) (image_names ks).
Proof.
  induction ks as [|k ks IH] using rev_ind; [constructor|].
  rewrite image_names_snoc. by apply names_append_nonempty.
Qed.

Lemma duplicates_cons n v d :
  duplicates ((n, v) :: d)
  = (if bool_decide (1 < length v)%nat then tail v else []) ++ duplicates d.
Proof. done. Qed.

Lemma elem_of_tail_group (x : key) v :
  x ∈ (if bool_decide (1 < length v)%nat then tail v else []) ↔ x ∈ tail v.
Proof.
  case_bool_decide as Hv; [done|]. destruct v as [|y [|z v]]; simpl in *; [done|done|lia].
Qed.

Lemma duplicates_names_append n k d x :
  Forall (λ p, p.2 ≠ []) d →
  x ∈ duplicates (names_append n k d) ↔ x ∈ duplicates d ∨ (x = k ∧ n ∈ dict_keys d).
Proof.
  induction 1 as [|[n0 v0] d Hv Hd IH]; simpl names_append.
  - rewrite duplicates_cons. simpl. split; [by intros ?%elem_of_nil|].
    intros [?%elem_of_nil|[_ ?%elem_of_nil]]; done.
  - change (dict_keys ((n0, v0) :: d)) with (n0 :: dict_keys d). case_decide as Hn.
    + subst n0. rewrite !duplicates_cons, !elem_of_app, !elem_of_tail_group.
      simpl in Hv. destruct v0 as [|y v0]; [done|]. simpl.
      rewrite elem_of_app, list_elem_of_singleton. split.
      * intros [[?|?]|?]; [by left; left | right; split; [done|left] | by left; right].
      * intros [[?|?]|[-> _]]; [by left; left | by right | by left; right].
    + rewrite !duplicates_cons, !elem_of_app, IH, elem_of_cons. split.
      * intros [?|[?|[? ?]]]; [by left; left | by left; right | right; split; [done | by right]].
      * intros [[?|?]|[? [?|?]]]; [by left | by right; left | congruence | by right; right].
Qed.

(** The keys the deduplication visits: the keys that come after a key of
    the same file name. *)
Lemma elem_of_duplicates ks x :
  x ∈ duplicates (image_names ks) ↔
  ∃ ks1 ks2, ks = ks1 ++ x :: ks2 ∧ path_name x ∈ path_name <$> ks1.
Proof.
  induction ks as [|k ks IH] using rev_ind.
  - split; [by intros ?%elem_of_nil|]. intros (ks1 & ks2 & Hnil & _). by destruct ks1.
  - rewrite image_names_snoc, duplicates_names_append by apply image_names_nonempty.
    rewrite IH, image_names_keys. split.
    + intros [(ks1 & ks2 & -> & Hn)|[-> Hn]].
      * exists ks1, (ks2 ++ [k]). split; [by rewrite <- app_assoc | done].
      * by exists ks, [].
    + intros (ks1 & ks2 & Heq & Hn).
      destruct ks2 as [|y ks2 _] using rev_ind.
      * apply app_inj_tail in Heq as [-> ->]. by right.
      * left. exists ks1, ks2. split; [|done].
        rewrite app_comm_cons, app_assoc in Heq. by apply app_inj_tail in Heq as [-> _].
Qed.

Lemma NoDup_split_unique (x : key) ks1 : ∀ ks2 ks1' ks2',
  NoDup (ks1 ++ x :: ks2) → ks1 ++ x :: ks2 = ks1' ++ x :: ks2' → ks1 = ks1'.
Proof.
  induction ks1 as [|a ks1 IH]; intros ks2 ks1' ks2' Hnd Heq.
  - destruct ks1' as [|b ks1']; [done|]. simpl in *. simplify_eq.
    apply NoDup_cons in Hnd as [Hx _]. destruct Hx. apply elem_of_app. right. left.
  - destruct ks1' as [|b ks1']; simpl in *; simplify_eq.
    + apply NoDup_cons in Hnd as [Hx _]. destruct Hx. apply elem_of_app. right. left.
    + apply NoDup_cons in Hnd as [_ Hnd]. f_equal. by eapply IH.
Qed.

Lemma first_of_name ks k :
  k ∈ ks →
  ∃ ks1 k' ks2, ks = ks1 ++ k' :: ks2 ∧ path_name k' = path_name k ∧
                path_name k ∉ path_name <$> ks1.
Proof.
  induction ks as [|x ks IH]; [by intros ?%elem_of_nil|].
  intros Hin. destruct (decide (path_name x = path_name k)) as [Hx|Hx].
  - exists [], x, ks. split_and!; [done|done|apply not_elem_of_nil].
  - apply elem_of_cons in Hin as [->|Hin]; [done|].
    destruct (IH Hin) as (ks1 & k' & ks2 & -> & Hk' & Hfresh).
    exists (x :: ks1), k', ks2. split_and!; [done|done|].
    rewrite fmap_cons, not_elem_of_cons. split; [congruence | done].
Qed.

Lemma remove_duplicates_keys m :
  NoDup (all_keys m) →
  ∃ m', remove_duplicates m = Some m' ∧
        all_keys m' = filter (λ x, x ∉ duplicates (image_names (all_keys m))) (all_keys m).
Proof.
  intros Hnd. unfold remove_duplicates.
  set (D := duplicates (image_names (all_keys m))).
  assert (is_Some (foldM (λ m k, remove_image k m) m D)) as [m' Hrun].
  { generalize D m. clear. induction D as [|k D IH]; intros m; [by eexists|].
    rewrite foldM_cons. destruct (remove_image_total k m) as [m1 ->]. apply IH. }
  exists m'. split; [done|]. by apply remove_images_keys.
Qed.

(** The keys that no key of the same file name precedes have distinct
    file names. *)
Lemma first_keys_unique_names ks :
  NoDup ks →
  NoDup (path_name <$> filter (λ x, x ∉ duplicates (image_names ks)) ks).
Proof.
  intros Hnd. apply NoDup_fmap_2_strong; [|by apply NoDup_filter].
  intros x y [Hx Hxin]%list_elem_of_filter [Hy Hyin]%list_elem_of_filter Hname.
  destruct (decide (x = y)) as [|Hne]; [done|]. exfalso.
  apply list_elem_of_split in Hxin as (ks1 & ks2 & Hks).
  assert (y ∈ ks1 ∨ y ∈ ks2) as [Hy1|Hy2].
  { rewrite Hks in Hyin. apply elem_of_app in Hyin as [?|[?|?]%elem_of_cons]; auto.
    congruence. }
  - apply Hx. apply elem_of_duplicates. exists ks1, ks2. split; [done|].
    rewrite Hname. by apply list_elem_of_fmap_2.
  - apply list_elem_of_split in Hy2 as (ks3 & ks4 & ->).
    apply Hy. apply elem_of_duplicates. exists (ks1 ++ x :: ks3), ks4.
    split; [by rewrite Hks, <- app_assoc|]. rewrite <- Hname.
    apply list_elem_of_fmap_2, elem_of_app. right. left.
Qed.

(** X9. On a manifest whose keys are distinct the deduplication does not
    raise, and it leaves one key of every file name that was there: no
    two keys that are left share a file name, and no file name is
    lost. *)
Theorem remove_duplicates_one_per_name (m : Manifest) :
  NoDup (all_keys m) →
  ∃ m',
    remove_duplicates m = Some m' ∧
    NoDup (path_name <$> all_keys m') ∧
    ∀ k, k ∈ all_keys m →
      ∃ k', k' ∈ all_keys m' ∧ path_name k' = path_name k.
Proof.
  intros Hnd. destruct (remove_duplicates_keys m Hnd) as (m' & Hrun & Hkeys).
  exists m'. split; [done|]. rewrite Hkeys. split; [by apply first_keys_unique_names|].
  intros k Hk.
  destruct (first_of_name (all_keys m) k Hk) as (ks1 & k' & ks2 & Hks & Hname & Hfresh).
  exists k'. split; [|done]. apply list_elem_of_filter. split.
  - rewrite elem_of_duplicates. intros (ks1' & ks2' & Hks' & Hdup).
    rewrite Hks in Hks', Hnd.
    apply (NoDup_split_unique k' ks1 ks2 ks1' ks2' Hnd) in Hks' as <-.
    by rewrite Hname in Hdup.
  - rewrite Hks. apply elem_of_app. right. left.
Qed.

Lemma remove_duplicates_one_per_name_witness :
  ∃ m',
    remove_duplicates twin_names = Some m' ∧
    NoDup (path_name <$> all_keys m') ∧
    ∀ k, k ∈ all_keys twin_names →
      ∃ k', k' ∈ all_keys m' ∧ path_name k' = path_name k.
Proof.
  apply (remove_duplicates_one_per_name twin_names).
  by apply (bool_decide_unpack _).
Defined.

(** ** What the curation leaves *)

Lemma Forall_sublist {A} (P : A → Prop) (l1 l2 : list A) :
  l1 `sublist_of` l2 → Forall P l2 → Forall P l1.
Proof.
  intros Hsub HP. apply Forall_forall. intros x Hx. rewrite Forall_forall in HP.
  apply HP. by eapply elem_of_sublist.
Qed.






Section Curated.
Context {R : Type} `{RandomSource R}.

(** The six passes of a curation that returns, one by one. *)
Lemma curate_Some args (m : Manifest) (r : R) m' r' :
  curate args (m, r) = Some (m', r') →
  ∃ m1 m2 m3 m4 r4 m5,
    remove_duplicates m = Some m1 ∧
    remove_spaces m1 = Some m2 ∧
    remove_non_panoramas (panorama_aspect_ratio args) m2 = Some m3 ∧
    cap_positives (max_positive_panoramas args) (m3, r) = Some (m4, r4) ∧
    remove_distractions (distraction_proportion args) (m4, r4) = Some (m5, r') ∧
    remove_few_semi_positives m5 = Some m'.
Proof.
  unfold curate, curation_passes. rewrite !foldM_cons. unfold run_pass, lift. simpl.
  intros Hrun.
  apply bind_Some in Hrun as (s1 & (m1 & Hm1 & [= <-])%bind_Some & Hrun). simpl in Hrun.
  apply bind_Some in Hrun as (s2 & (m2 & Hm2 & [= <-])%bind_Some & Hrun). simpl in Hrun.
  apply bind_Some in Hrun as (s3 & (m3 & Hm3 & [= <-])%bind_Some & Hrun). simpl in Hrun.
  apply bind_Some in Hrun as ([m4 r4] & Hm4 & Hrun).
  apply bind_Some in Hrun as ([m5 r5] & Hm5 & Hrun). simpl in Hrun.
  apply bind_Some in Hrun as (s6 & (m6 & Hm6 & [= <-])%bind_Some & [= <- <-]).
  by exists m1, m2, m3, m4, r4, m5.
Qed.

(** X10. A curation never adds an image or an edge, and changes nothing else:
    the keys that are left come in their old order, an item that is left
    has its old size, place and boundaries, and its lists hold old
    entries only. *)
Theorem curation_only_removes args (m : Manifest) (r : R) m' r' :
  curate args (m, r) = Some (m', r') → shrinks m m'.
Proof. apply passes_shrink. Qed.


End Curated.

Lemma curation_only_removes_witness :
  ∃ m' r',
    curate default_args (three_on_T1, 0%nat) = Some (m', r') ∧ shrinks three_on_T1 m'.
Proof.
  eexists _, _. split; [vm_compute; reflexivity|].
  apply (curation_only_removes default_args three_on_T1 0%nat _ 2%nat).
  vm_compute; reflexivity.
Defined.


(** ** The cap, over all tiles *)

Lemma shrinks_capped max done m m' : capped max done m → shrinks m m' → capped max done m'.
Proof.
  intros Hcap (_ & _ & Hai & _) a ai' Ha (ai & Hget & Hs)%Hai.
  destruct Hs as (_ & _ & _ & _ & _ & Hpos%submseteq_length & _).
  specialize (Hcap a ai Ha Hget). lia.
Qed.

Section CapFacts.
Context {R : Type} `{RandomSource R}.

Lemma cap_tile_caps max (m : Manifest) (r : R) a m' r' ai' :
  0 < max → cap_tile max (m, r) a = Some (m', r') →
  dict_get a (aerial m') = Some ai' → Z.of_nat (length (a_positive ai')) ≤ max.
Proof.
  intros Hmax Hrun Hai'.
  destruct (dict_get a (aerial m)) as [ai|] eqn:Ha.
  2:{ unfold cap_tile in Hrun. simpl in Hrun. by rewrite Ha in Hrun. }
  destruct (decide (max ≠ 0 ∧ max < Z.of_nat (length (a_positive ai)))) as [[??]|Hno].
  - destruct (cap_tile_sampled max m r a ai m' r') as (smp & m1 & Hs & _ & ->); [done..|].
    apply py_sample_Some in Hs as (_ & _ & Hlen). simpl in Hai'.
    rewrite dict_get_alter, decide_True in Hai' by done.
    apply fmap_Some in Hai' as (ai1 & _ & ->). simpl. lia.
  - apply (cap_tile_skipped max m r a ai) in Hrun; [|done..]. simplify_eq. lia.
Qed.

Lemma cap_tiles_capped max ks : ∀ done (m : Manifest) (r : R) m' r',
  0 < max → capped max done m →
  foldM (cap_tile max) (m, r) ks = Some (m', r') → capped max (done ++ ks) m'.
Proof.
  induction ks as [|a ks IH]; intros done m r m' r' Hmax Hcap Hrun.
  - simpl in Hrun. simplify_eq. by rewrite app_nil_r.
  - rewrite foldM_cons in Hrun. apply bind_Some in Hrun as ([m1 r1] & Hstep & Hrun).
    rewrite (assoc_L (++) done [a] ks : done ++ a :: ks = (done ++ [a]) ++ ks).
    apply (IH (done ++ [a]) m1 r1 m' r'); [done| |done].
    intros a' ai' [Hd| ->%list_elem_of_singleton]%elem_of_app Hai'.
    + pose proof (cap_tile_shrinks max m r a m1 r1 Hstep) as Hsh.
      by apply (shrinks_capped max done m m1 Hcap Hsh a').
    + apply (cap_tile_caps max m r a m1 r1 ai' Hmax Hstep Hai').
Qed.

Lemma cap_positives_keys max (m : Manifest) (r : R) m' r' :
  cap_positives max (m, r) = Some (m', r') → dict_keys (aerial m') = dict_keys (aerial m).
Proof.
  unfold cap_positives. simpl. generalize (dict_keys (aerial m)) at 1. intros ks Hrun.
  apply (foldM_invariant (λ s : St, dict_keys (aerial s.1) = dict_keys (aerial m))
           (cap_tile max) _) in Hrun; [done| |done].
  intros [m0 r0] a [m1 r1] Hk Hstep. simpl in *. by rewrite (cap_tile_keys _ _ _ _ _ _ Hstep).
Qed.

(** After the cap pass with a positive maximum no tile has more positives
    than the maximum. *)
Lemma cap_positives_within_cap max (m : Manifest) (r : R) m' r' :
  wf m → 0 < max → cap_positives max (m, r) = Some (m', r') → within_cap max m'.
Proof.
  intros Hwf Hmax Hrun.
  pose proof (cap_positives_wf _ _ _ _ _ Hwf Hrun) as ([Hnd _] & _).
  pose proof (cap_positives_keys _ _ _ _ _ Hrun) as Hkeys.
  unfold cap_positives in Hrun. simpl in Hrun.
  apply (cap_tiles_capped max _ [] m r m' r' Hmax) in Hrun; [|by intros a ai ?%elem_of_nil].
  intros a ai Hin. apply (Hrun a ai).
  - simpl. rewrite <- Hkeys. by apply (elem_dict_keys _ a ai).
  - by apply elem_dict_get.
Qed.

(** X12. After the curation of the MK script, run with a positive maximum, no
    tile has more positive panoramas than the maximum. *)
Theorem curated_within_cap args (m : Manifest) (r : R) m' r' :
  wf m → 0 < max_positive_panoramas args →
  curate args (m, r) = Some (m', r') →
  within_cap (max_positive_panoramas args) m'.
Proof.
  intros Hwf Hmax Hrun.
  apply curate_Some in Hrun as (m1 & m2 & m3 & m4 & r4 & m5 & H1 & H2 & H3 & H4 & H5 & H6).
  assert (wf m3) as Hwf3.
  { apply (remove_non_panoramas_preserves wf (panorama_aspect_ratio args) m2 m3
             remove_ground_image_wf); [|done].
    apply (remove_spaces_preserves wf m1 m2 remove_image_wf); [|done].
    by apply (remove_duplicates_preserves wf m m1 remove_image_wf). }
  pose proof (cap_positives_within_cap _ _ _ _ _ Hwf3 Hmax H4) as Hcap4.
  apply (remove_few_semi_positives_preserves (within_cap (max_positive_panoramas args)) m5 m');
    [apply remove_ground_image_within_cap| |done].
  by apply (remove_distractions_preserves (within_cap (max_positive_panoramas args))
              (distraction_proportion args) m4 r4 m5 r');
    [apply remove_aerial_image_within_cap| |].
Qed.

(** X13. A negative maximum makes [sample] raise at the first tile, in both
    scripts: the count of a tile is never below the maximum then. *)
Theorem negative_maximum_raises max (m : Manifest) (r : R) :
  max < 0 → aerial m ≠ [] →
  cap_positives max (m, r) = None ∧ cap_positives_bdag max (m, r) = None.
Proof.
  intros Hmax Hne. destruct (aerial m) as [|[a ai] rest] eqn:Ha; [done|].
  assert (dict_get a (aerial m) = Some ai) as Hget.
  { rewrite Ha. simpl. by rewrite decide_True. }
  assert (py_sample r (a_positive ai) max = None) as Hs.
  { unfold py_sample. rewrite bool_decide_eq_false_2; [done|lia]. }
  unfold cap_positives, cap_positives_bdag. simpl. rewrite Ha.
  change (dict_keys ((a, ai) :: rest)) with (a :: dict_keys rest). rewrite !foldM_cons.
  assert (cap_tile max (m, r) a = None) as ->.
  { unfold cap_tile. simpl. rewrite Hget. simpl.
    rewrite !bool_decide_eq_true_2 by lia. simpl. by rewrite Hs. }
  assert (cap_tile_bdag max (m, r) a = None) as ->; [|done].
  unfold cap_tile_bdag. simpl. rewrite Hget. simpl.
  rewrite !bool_decide_eq_true_2 by lia. by rewrite Hs.
Qed.

End CapFacts.

Lemma curated_within_cap_witness :
  ∃ m' r',
    curate default_args (three_on_T1, 0%nat) = Some (m', r') ∧ within_cap 2 m'.
Proof.
  eexists _, _. split; [vm_compute; reflexivity|].
  apply (curated_within_cap default_args three_on_T1 0%nat _ 2%nat).
  - apply wf_check_sound. by apply (bool_decide_unpack _).
  - done.
  - vm_compute; reflexivity.
Defined.

Lemma negative_maximum_raises_witness :
  cap_positives (-1) (five_on_T1, 0%nat) = None ∧
  cap_positives_bdag (-1) (five_on_T1, 0%nat) = None.
Proof. apply (negative_maximum_raises (-1) five_on_T1 0%nat); done. Defined.

(** X14. A ground image of height 0 makes the panorama filter raise, before
    anything is removed. *)
Theorem zero_height_raises ratio m g gi :
  (g, gi) ∈ ground m → h (g_size gi) = 0 → remove_non_panoramas ratio m = None.
Proof.
  intros Hin Hh. unfold remove_non_panoramas.
  assert (filter_keys (non_panorama ratio) (ground m) = None) as ->; [|done].
  induction (ground m) as [|[k v] d IH]; [by apply elem_of_nil in Hin|].
  simpl. apply elem_of_cons in Hin as [[= <- <-]|Hin].
  - unfold non_panorama. by rewrite decide_True.
  - rewrite (IH Hin). by destruct (non_panorama ratio v).
Qed.

Lemma zero_height_raises_witness : remove_non_panoramas (Fin 2%Q) flat_pano = None.
Proof.
  apply (zero_height_raises (Fin 2%Q) flat_pano "a/P_0001_1.png"
           (mkGround (mkSize 2048 0) origin ["T1.png"] [])).
  - left.
  - reflexivity.
Defined.

(** ** Distractions *)

Lemma dict_map_id {V} (f : V → V) (d : dict V) :
  (∀ k v, (k, v) ∈ d → f v = v) → dict_map f d = d.
Proof.
  induction d as [|[k v] d IH]; intros Hf; [done|].
  unfold dict_map. rewrite fmap_cons. unfold prod_map at 1. simpl.
  rewrite (Hf k v) by left. f_equal. apply IH. intros k' v' Hin. apply (Hf k'). by right.
Qed.

Lemma scrub_not_in k l : k ∉ l → scrub k l = l.
Proof. intros Hk. unfold scrub. by rewrite decide_False. Qed.

Lemma length_dict_del {V} (d : dict V) k :
  NoDup (dict_keys d) → k ∈ dict_keys d → S (length (dict_del k d)) = length d.
Proof.
  induction d as [|[k0 v0] d IH]; [by intros _ ?%elem_of_nil|].
  change (dict_keys ((k0, v0) :: d)) with (k0 :: dict_keys d).
  intros [Hk0 Hnd]%NoDup_cons Hin. unfold dict_del. rewrite filter_cons. simpl.
  destruct (decide (k0 = k)) as [->|Hne].
  - rewrite decide_False by (by intros ?). f_equal.
    assert (filter (λ p : key * V, p.1 ≠ k) d = d) as ->; [|done].
    clear -Hk0. induction d as [|[k1 v1] d IH]; [done|].
    change (dict_keys ((k1, v1) :: d)) with (k1 :: dict_keys d) in Hk0.
    apply not_elem_of_cons in Hk0 as [Hne Hk0].
    rewrite filter_cons_True by (simpl; congruence). by rewrite IH.
  - rewrite decide_True by done. simpl. f_equal. apply IH; [done|].
    by apply elem_of_cons in Hin as [?|?].
Qed.

(** Removing a tile that covers no panorama touches no ground item. *)
Lemma remove_distraction x m ai :
  wf m → dict_get x (aerial m) = Some ai → is_distraction ai = true →
  remove_aerial_image x m = Some (mkManifest (dict_del x (aerial m)) (ground m)).
Proof.
  intros ([Hka Hkg] & Hc & _ & _) Hx Hd.
  apply (remove_aerial_image_Some x m). split; [by apply dict_get_is_Some|].
  f_equal. symmetry. apply dict_map_id. intros g gi Hin.
  apply andb_prop in Hd as [Hp%bool_decide_eq_true Hs%bool_decide_eq_true].
  destruct (Hc g gi x ai) as (Hpos & Hsemi & _); [by apply elem_dict_get|done|].
  rewrite Hp in Hpos. rewrite Hs in Hsemi.
  assert (x ∉ g_positive gi) as Hxp.
  { intros Hin'. by apply Hpos, elem_of_nil in Hin'. }
  assert (x ∉ g_semi_positive gi) as Hxs.
  { intros Hin'. by apply Hsemi, elem_of_nil in Hin'. }
  unfold scrub_ground. rewrite !scrub_not_in by done. by destruct gi.
Qed.

Lemma remove_distractions_from xs : ∀ m m',
  wf m → NoDup xs →
  (∀ x, x ∈ xs → ∃ ai, dict_get x (aerial m) = Some ai ∧ is_distraction ai = true) →
  foldM (λ m x, remove_aerial_image x m) m xs = Some m' →
  ground m' = ground m ∧
  (∀ a, dict_get a (aerial m') = if decide (a ∈ xs) then None else dict_get a (aerial m)) ∧
  (length (aerial m') + length xs = length (aerial m))%nat.
Proof.
  induction xs as [|x xs IH]; intros m m' Hwf Hnd Hds Hrun.
  - simpl in Hrun. simplify_eq. split_and!; [done| |simpl; lia].
    intros a. by rewrite decide_False by apply not_elem_of_nil.
  - rewrite foldM_cons in Hrun. apply NoDup_cons in Hnd as [Hx Hnd].
    destruct (Hds x) as (ai & Hai & Hd); [left|].
    rewrite (remove_distraction x m ai Hwf Hai Hd) in Hrun. simpl in Hrun.
    set (m1 := mkManifest (dict_del x (aerial m)) (ground m)) in *.
    assert (wf m1) as Hwf1.
    { apply (remove_aerial_image_wf x m); [done|]. by apply (remove_distraction x m ai). }
    destruct (IH m1 m' Hwf1 Hnd) as (Hg & Ha & Hlen); [|done|].
    { intros x' Hx'. destruct (Hds x') as (ai' & Hai' & Hd'); [by right|].
      exists ai'. split; [|done]. simpl. rewrite dict_get_del, decide_False; [done|].
      by intros ->. }
    split_and!; [done| |].
    + intros a. rewrite Ha. simpl. rewrite dict_get_del.
      destruct (decide (a ∈ xs)) as [Hin|Hin].
      * by rewrite decide_True by (by right).
      * destruct (decide (a = x)) as [->|Hne].
        -- by rewrite decide_True by left.
        -- rewrite decide_False; [done|]. rewrite elem_of_cons. by intros [?|?].
    + simpl in *. destruct Hwf as ([Hka _] & _).
      pose proof (length_dict_del (aerial m) x Hka) as Hdel.
      rewrite <- Hdel by (by apply dict_get_is_Some). lia.
Qed.

Section Distractions.
Context {R : Type} `{RandomSource R}.

Lemma elem_of_distractions m x :
  NoDup (dict_keys (aerial m)) →
  x ∈ distractions m ↔ ∃ ai, dict_get x (aerial m) = Some ai ∧ is_distraction ai = true.
Proof.
  intros Hnd. unfold distractions, dict_keys. rewrite list_elem_of_fmap. split.
  - intros ([x' ai] & -> & [Hd Hin]%list_elem_of_filter). exists ai.
    split; [by apply elem_dict_get | done].
  - intros (ai & Hai%dict_get_Some_elem & Hd). exists (x, ai). split; [done|].
    by apply list_elem_of_filter.
Qed.

Lemma py_int_all (n : nat) :
  py_int (float_mul (float_one_minus (Fin 0%Q)) (float_of_Z (Z.of_nat n)))
  = Some (Z.of_nat n).
Proof.
  unfold float_of_Z. cbn [float_one_minus float_mul py_int].
  assert ((1 - 0) * inject_Z (Z.of_nat n) == inject_Z (Z.of_nat n))%Q as Heq by ring.
  assert (0 <= (1 - 0) * inject_Z (Z.of_nat n))%Q as Hpos.
  { rewrite Heq. change 0%Q with (inject_Z 0). rewrite <- Zle_Qle. lia. }
  apply Qle_bool_iff in Hpos. rewrite Hpos. f_equal. rewrite Heq. apply Qfloor_Z.
Qed.

Lemma py_int_none (n : nat) :
  py_int (float_mul (float_one_minus (Fin 1%Q)) (float_of_Z (Z.of_nat n))) = Some 0.
Proof.
  unfold float_of_Z. cbn [float_one_minus float_mul py_int].
  assert ((1 - 1) * inject_Z (Z.of_nat n) == 0)%Q as Heq by ring.
  assert (0 <= (1 - 1) * inject_Z (Z.of_nat n))%Q as Hpos by (by rewrite Heq).
  apply Qle_bool_iff in Hpos. rewrite Hpos. by f_equal.
Qed.

(** X15. "Remove distractions" takes away tiles that cover no panorama,
    each once, and nothing else: the ground items are as they were, a
    tile that is not taken away keeps its entry, and no tile that covers
    a panorama is taken away. With a proportion of 1, the default,
    nothing is removed; with a proportion of 0 every tile that covers no
    panorama is. How many tiles go in between is [int((1 - p) * d)] in
    the floats of the interpreter, which the statement leaves open. *)
Theorem remove_distractions_spares_panoramas p (m : Manifest) (r : R) m' r' :
  wf m →
  remove_distractions p (m, r) = Some (m', r') →
  ground m' = ground m ∧
  ∃ removed,
    NoDup removed ∧
    removed ⊆+ distractions m ∧
    (∀ a, dict_get a (aerial m')
          = if decide (a ∈ removed) then None else dict_get a (aerial m)) ∧
    (length (aerial m') + length removed = length (aerial m))%nat ∧
    (∀ a ai, dict_get a (aerial m) = Some ai → is_distraction ai = false →
             dict_get a (aerial m') = Some ai) ∧
    (p = Fin 1%Q → removed = []) ∧
    (p = Fin 0%Q → removed ≡ₚ distractions m).
Proof.
  intros Hwf. unfold remove_distractions. simpl.
  destruct (py_int _) as [n|] eqn:Hn; simpl; [|done].
  destruct (py_sample _ _ _) as [[xs r1]|] eqn:Hs; simpl; [|done].
  destruct (foldM _ m xs) as [m1|] eqn:Hrm; simpl; [|done].
  intros [= <- <-]. apply py_sample_Some in Hs as (Hrange & Hsub & Hlen).
  pose proof Hwf as ([Hka _] & _).
  assert (NoDup (distractions m)) as Hndd.
  { unfold distractions. eapply sublist_NoDup; [exact Hka | apply sublist_filter_keys]. }
  assert (NoDup xs) as Hndx by (by eapply submseteq_NoDup).
  destruct (remove_distractions_from xs m m1 Hwf) as (Hg & Ha & Hl); [done| |done|].
  { intros x Hx. apply elem_of_distractions; [done|]. by eapply elem_of_submseteq. }
  split; [done|]. exists xs. split_and!; [done..| | |].
  - intros a ai Hai Hd. rewrite Ha, decide_False; [done|]. intros Hin.
    assert (a ∈ distractions m) as Had by (by eapply elem_of_submseteq).
    apply elem_of_distractions in Had as (ai' & Hai' & Hd'); [|done]. congruence.
  - intros ->. rewrite py_int_none in Hn. simplify_eq.
    by apply nil_length_inv.
  - intros ->. rewrite py_int_all in Hn. simplify_eq.
    apply submseteq_length_Permutation; [done|]. lia.
Qed.

End Distractions.

Lemma remove_distractions_spares_panoramas_witness :
  ∃ m' r',
    remove_distractions (Fin 0%Q) (idle_tiles, 0%nat) = Some (m', r') ∧
    ground m' = ground idle_tiles ∧
    ∃ removed,
      NoDup removed ∧
      removed ⊆+ distractions idle_tiles ∧
      (∀ a, dict_get a (aerial m')
            = if decide (a ∈ removed) then None else dict_get a (aerial idle_tiles)) ∧
      (length (aerial m') + length removed = length (aerial idle_tiles))%nat ∧
      (∀ a ai, dict_get a (aerial idle_tiles) = Some ai → is_distraction ai = false →
               dict_get a (aerial m') = Some ai) ∧
      (Fin 0%Q = Fin 1%Q → removed = []) ∧
      (Fin 0%Q = Fin 0%Q → removed ≡ₚ distractions idle_tiles).
Proof.
  eexists _, _. split; [vm_compute; reflexivity|].
  apply (remove_distractions_spares_panoramas (Fin 0%Q) idle_tiles 0%nat _ 1%nat).
  - apply wf_check_sound. by apply (bool_decide_unpack _).
  - vm_compute; reflexivity.
Defined.

(** ** A maximum of zero *)

Lemma dict_alter_id {V} (f : V → V) k (d : dict V) :
  (∀ v, dict_get k d = Some v → f v = v) → dict_alter f k d = d.
Proof.
  induction d as [|[k0 v0] d IH]; intros Hf; [done|]. simpl in *.
  case_decide as Hk.
  - by rewrite (Hf v0).
  - f_equal. by apply IH.
Qed.

Lemma filter_not_in_nil (l : list key) : filter (λ x, x ∉ []) l = l.
Proof.
  induction l as [|x l IH]; [done|].
  rewrite filter_cons_True by apply not_elem_of_nil. by f_equal.
Qed.

Section ZeroMaximum.
Context {R : Type} `{RandomSource R}.

Lemma cap_tiles_zero (m : Manifest) (r : R) ks :
  ks ⊆ dict_keys (aerial m) → foldM (cap_tile 0) (m, r) ks = Some (m, r).
Proof.
  induction ks as [|a ks IH]; intros Hks; [done|].
  assert (a ∈ dict_keys (aerial m)) as [ai Hai]%dict_get_is_Some by (apply Hks; left).
  rewrite foldM_cons.
  assert (cap_tile 0 (m, r) a = Some (m, r)) as ->.
  { unfold cap_tile. simpl. rewrite Hai. simpl. done. }
  apply IH. intros x Hx. apply Hks. by right.
Qed.

(** One iteration of the BDAG loop with maximum 0: every positive
    panorama of the tile is removed from the manifest. *)
Lemma cap_tile_bdag_zero (m : Manifest) (r : R) a ai :
  wf m → dict_get a (aerial m) = Some ai →
  ∃ m1 r1,
    cap_tile_bdag 0 (m, r) a = Some (m1, r1) ∧
    foldM (λ m k, remove_ground_image k m) m (a_positive ai) = Some m1 ∧
    ∀ ai1, dict_get a (aerial m1) = Some ai1 → a_positive ai1 = [].
Proof.
  intros Hwf Hai. pose proof Hwf as (_ & _ & [Hnda _] & [Hcla _]).
  apply dict_get_Some_elem in Hai as Hin.
  destruct (remove_ground_images_total (a_positive ai) m) as [m1 Hm1].
  { by apply (Hnda a ai). }
  { intros g Hg. apply (Hcla a ai g Hin). by left. }
  assert (∀ ai1, dict_get a (aerial m1) = Some ai1 → a_positive ai1 = []) as Hempty.
  { intros ai1 Hai1.
    destruct (remove_ground_images_shrinks _ _ _ Hm1) as (_ & _ & Hitems & _).
    destruct (Hitems a ai1 Hai1) as (ai0 & Hai0 & (_ & _ & _ & _ & _ & Hsub & _)).
    assert (ai0 = ai) as -> by congruence.
    destruct (a_positive ai1) as [|g l] eqn:Hpos; [done|]. exfalso.
    assert (g ∈ a_positive ai) as Hg.
    { eapply elem_of_submseteq; [|exact Hsub]. left. }
    destruct (remove_ground_images_scrub (a_positive ai) m m1 g) as [_ Hscrub];
      [by destruct Hwf as (_ & _ & ? & _)|done|done|].
    destruct (Hscrub a ai1 Hai1) as [Hno _]. apply Hno. rewrite Hpos. left. }
  unfold cap_tile_bdag. simpl. rewrite Hai. simpl.
  case_bool_decide as Hlen.
  - unfold py_sample. rewrite bool_decide_eq_true_2 by lia. simpl.
    change (Z.to_nat 0) with 0%nat.
    pose proof (sample_zero r (a_positive ai)) as Hz.
    destruct (sample r (a_positive ai) 0) as [smp r1]. simpl in Hz. subst smp. simpl.
    rewrite filter_not_in_nil, Hm1. simpl. exists m1, r1. split_and!; [|done|done].
    do 2 f_equal. rewrite dict_alter_id.
    { clear. by destruct m1. }
    intros v Hv. rewrite <- (Hempty v Hv). by destruct v.
  - exists m, r. assert (a_positive ai = []) as Hnil.
    { destruct (a_positive ai); [done | simpl in Hlen; lia]. }
    rewrite Hnil. split_and!; [done|done|]. intros ai1 Hai1. congruence.
Qed.

Lemma cap_tiles_bdag_zero ks : ∀ done (m0 m : Manifest) (r : R),
  wf m → ks ⊆ dict_keys (aerial m) → capped 0 done m →
  (∀ g gi, dict_get g (ground m0) = Some gi → g_positive gi = [] →
           dict_get g (ground m) = Some gi) →
  (∀ g gi, dict_get g (ground m) = Some gi → dict_get g (ground m0) = Some gi) →
  ∃ m' r',
    foldM (cap_tile_bdag 0) (m, r) ks = Some (m', r') ∧
    wf m' ∧ dict_keys (aerial m') = dict_keys (aerial m) ∧ capped 0 (done ++ ks) m' ∧
    (∀ g gi, dict_get g (ground m0) = Some gi → g_positive gi = [] →
             dict_get g (ground m') = Some gi) ∧
    (∀ g gi, dict_get g (ground m') = Some gi → dict_get g (ground m0) = Some gi) ∧
    shrinks m m'.
Proof.
  induction ks as [|a ks IH]; intros done m0 m r Hwf Hks Hcap Hkeep Hold.
  - exists m, r. rewrite app_nil_r. split_and!; try done. apply shrinks_refl.
  - assert (a ∈ dict_keys (aerial m)) as [ai Hai]%dict_get_is_Some by (apply Hks; left).
    destruct (cap_tile_bdag_zero m r a ai Hwf Hai) as (m1 & r1 & Hstep & Hrm & Hempty).
    pose proof (remove_ground_images_wf _ _ _ Hwf Hrm) as Hwf1.
    pose proof (remove_ground_images_shrinks _ _ _ Hrm) as Hsh.
    assert (dict_keys (aerial m1) = dict_keys (aerial m)) as Hk1.
    { clear -Hrm. revert m Hrm. induction (a_positive ai) as [|k l IHl]; intros m Hrm.
      - simpl in Hrm. by simplify_eq.
      - rewrite foldM_cons in Hrm. apply bind_Some in Hrm as (m2 & Hm2 & Hrm).
        rewrite (IHl _ Hrm). apply remove_ground_image_Some in Hm2 as [_ ->].
        apply dict_keys_map. }
    destruct (IH (done ++ [a]) m0 m1 r1)
      as (m' & r' & Hrun & Hwf' & Hk' & Hcap' & Hkeep' & Hold' & Hsh');
      [done|..].
    { rewrite Hk1. intros x Hx. apply Hks. by right. }
    { intros a' ai' [Hd| ->%list_elem_of_singleton]%elem_of_app Hai'.
      - by apply (shrinks_capped 0 done m m1 Hcap Hsh a').
      - by rewrite (Hempty ai' Hai'). }
    { intros g gi Hg Hnil. rewrite (remove_ground_images_get _ _ _ g Hrm).
      rewrite decide_False; [by apply Hkeep|]. intros Hin.
      destruct Hwf as (_ & Hc & _).
      destruct (Hc g gi a ai (Hkeep g gi Hg Hnil) Hai) as (Hpos & _).
      apply Hpos in Hin. rewrite Hnil in Hin. by apply elem_of_nil in Hin. }
    { intros g gi. rewrite (remove_ground_images_get _ _ _ g Hrm). case_decide; [done|].
      apply Hold. }
    exists m', r'. rewrite foldM_cons, Hstep. simpl.
    rewrite (assoc_L (++) done [a] ks : done ++ a :: ks = (done ++ [a]) ++ ks).
    split_and!; try done; [by rewrite Hk' | by eapply shrinks_trans].
Qed.

(** X16. A maximum of 0 turns the cap off in the MK script, which tests
    [args.max_positive_panoramas and ...]; the BDAG script, which tests
    the count alone, removes every panorama that has a positive tile and
    leaves the other ground items as they were. *)
Theorem zero_maximum (m : Manifest) (r : R) :
  wf m →
  cap_positives 0 (m, r) = Some (m, r) ∧
  ∃ m' r',
    cap_positives_bdag 0 (m, r) = Some (m', r') ∧
    within_cap 0 m' ∧
    ∀ g gi, dict_get g (ground m) = Some gi →
      dict_get g (ground m') = if decide (g_positive gi = []) then Some gi else None.
Proof.
  intros Hwf. split; [by apply cap_tiles_zero|].
  destruct (cap_tiles_bdag_zero (dict_keys (aerial m)) [] m m r)
    as (m' & r' & Hrun & Hwf' & Hk' & Hcap' & Hkeep' & Hold' & _); try done.
  { by intros a ai ?%elem_of_nil. }
  exists m', r'. split; [done|].
  pose proof Hwf' as ([Hnd' _] & Hc' & _ & [_ Hclg']).
  assert (within_cap 0 m') as Hwithin.
  { intros a ai Hin. apply (Hcap' a ai); [|by apply elem_dict_get].
    simpl. rewrite <- Hk'. by apply (elem_dict_keys _ a ai). }
  split; [done|]. intros g gi Hg. case_decide as Hpos; [by apply Hkeep'|].
  destruct (dict_get g (ground m')) as [gi'|] eqn:Hg'; [|done]. exfalso.
  assert (gi' = gi) as -> by (apply Hold' in Hg'; congruence).
  destruct (g_positive gi) as [|a l] eqn:Hl; [done|].
  assert (a ∈ g_positive gi) as Ha by (rewrite Hl; left).
  assert (a ∈ dict_keys (aerial m')) as [ai' Hai']%dict_get_is_Some.
  { apply (Hclg' g gi a); [by apply dict_get_Some_elem | by left]. }
  destruct (Hc' g gi a ai' Hg' Hai') as (Hedge & _).
  apply Hedge in Ha. apply dict_get_Some_elem, Hwithin in Hai'.
  destruct (a_positive ai'); [by apply elem_of_nil in Ha | simpl in Hai'; lia].
Qed.

End ZeroMaximum.

Lemma zero_maximum_witness :
  cap_positives 0 (shared_pano, 0%nat) = Some (shared_pano, 0%nat) ∧
  ∃ m' r',
    cap_positives_bdag 0 (shared_pano, 0%nat) = Some (m', r') ∧
    within_cap 0 m' ∧
    ∀ g gi, dict_get g (ground shared_pano) = Some gi →
      dict_get g (ground m') = if decide (g_positive gi = []) then Some gi else None.
Proof.
  apply (zero_maximum shared_pano 0%nat).
  apply wf_check_sound. by apply (bool_decide_unpack _).
Defined.

(** ** The curation of the BDAG script *)

Section CurationBDAG.
Context {R : Type} `{RandomSource R}.





End CurationBDAG.


(** ** The MK script, end to end *)

Lemma clamp_in_range p : p ≠ NaN → ∃ q, clamp p = Fin q ∧ (0 <= q)%Q ∧ (q <= 1)%Q.
Proof.
  intros Hp. pose proof (clamp_clamped p) as Hc.
  inversion Hc as [q Hq0 Hq1 Hq Heq|q Hq Hp' Heq|q Hq Hp' Heq|Hp' Heq|Hp' Heq|Hp' Heq].
  - by exists q.
  - by exists 1%Q.
  - by exists 0%Q.
  - by exists 1%Q.
  - by exists 0%Q.
  - congruence.
Qed.

Lemma clamp_nan : clamp NaN = NaN.
Proof. done. Qed.

Section EndToEnd.
Context {R : Type} `{RandomSource R}.
Variable t_px : pyval → pyval → Z * Z.

Lemma remove_distractions_nan (s : St) : remove_distractions NaN s = None.
Proof. done. Qed.

Lemma curate_nan args (s : St) : distraction_proportion args = NaN → curate args s = None.
Proof.
  intros Hd. unfold curate.
  change curation_passes with
    ([RemoveDuplicates; RemoveSpaces; RemoveNonPanoramas; CapPositives]
       ++ [RemoveDistractions; RemoveFewSemiPositives]).
  rewrite foldM_app. destruct (foldM _ s _) as [s4|]; [|done].
  cbn [mbind option_bind]. rewrite foldM_cons. cbn [run_pass]. by rewrite Hd.
Qed.

Lemma episode_split_nan (m : Manifest) (r : R) : episode_split NaN m r = None.
Proof.
  unfold episode_split. destruct (mapM sol_num _) as [sols|]; [|done]. done.
Qed.

(** X18. A proportion given as [nan] goes through [max(min(p, 1.0), 0)]
    unchanged, and the script then raises when it takes [int] of the
    count: in "Remove distractions" for [-d nan], in the split for
    [-t nan]. *)
Theorem nan_proportion_aborts args (m : Manifest) (r : R) :
  distraction_proportion args = NaN ∨ train_proportion args = NaN →
  prepare_transgeo_mk t_px args m r = None.
Proof.
  intros Hnan. unfold prepare_transgeo_mk, startup. simpl.
  destruct Hnan as [Hd|Ht].
  - rewrite curate_nan; [done|]. simpl. by rewrite Hd.
  - destruct (curate _ _) as [s|]; [|done]. simpl. rewrite Ht, clamp_nan.
    by rewrite episode_split_nan.
Qed.

Lemma split_files_total m set :
  wf m → set ⊆ dict_keys (ground m) → enough_semi_positives m set →
  ∃ text, split_file t_px m set = Some text ∧ split_file_train t_px m set = Some text.
Proof.
  intros Hwf Hset Hsemi.
  assert (is_Some (mapM (correspondence_lines t_px m) set)) as [lines Hlines].
  { apply mapM_is_Some, Forall_forall. intros g Hg. simpl.
    by apply correspondence_lines_total, Hset. }
  assert (split_file t_px m set = Some (getvalue (concat lines))) as Hfile.
  { unfold split_file. rewrite write_grounds_lines, Hlines. done. }
  eexists. split; [done|]. rewrite <- Hfile. unfold split_file_train, split_file. f_equal.
  apply foldM_ext. intros buf g Hg. unfold write_ground.
  destruct (dict_get g (ground m)) as [gi|] eqn:Hgi; simpl; [|done].
  apply foldM_ext. intros buf' a _. apply write_positive_train_enough.
  by apply (Hsemi g).
Qed.

(** X19. The MK script returns its two split files and the curated manifest
    whenever the manifest is well-formed, no ground image has height 0,
    the maximum is not negative, neither proportion is a NaN, and every
    ground key carries an episode segment. *)
Theorem prepare_transgeo_mk_returns args (m : Manifest) (r : R) :
  curable m →
  0 ≤ max_positive_panoramas args →
  distraction_proportion args ≠ NaN →
  train_proportion args ≠ NaN →
  Forall has_sol_segment (dict_keys (ground m)) →
  ∃ train_text test_text m',
    prepare_transgeo_mk t_px args m r = Some (train_text, test_text, m') ∧
    curable m' ∧ shrinks m m'.
Proof.
  intros Hm Hmax Hd Ht Hsol. unfold prepare_transgeo_mk, startup. simpl.
  destruct (clamp_in_range _ Hd) as (qd & Hqd & Hqd0 & Hqd1).
  destruct (clamp_in_range _ Ht) as (qt & Hqt & Hqt0 & Hqt1).
  set (args' := mkArgs _ _ _ _).
  destruct (curate_total args' qd m r Hm Hmax Hqd Hqd0 Hqd1) as ([m' r'] & Hcur & Hm').
  rewrite Hcur. simpl in *.
  pose proof (passes_shrink _ _ _ _ _ _ Hcur) as Hsh.
  assert (Forall has_sol_segment (dict_keys (ground m'))) as Hsol'.
  { apply (Forall_sublist _ _ (dict_keys (ground m))); [|done]. by destruct Hsh as (_ & ? & _). }
  rewrite Hqt.
  destruct (episode_split_total qt m' r' Hsol') as [[[train test] r2] Hsplit].
  rewrite Hsplit. simpl.
  apply episode_split_Some in Hsplit as (sols & [Htrain Htest]%assign_by_sol_Some).
  destruct Hm' as [Hwf' Hh'].
  destruct (split_files_total m' train Hwf') as (train_text & _ & ->).
  { intros g Hg. by apply Htrain in Hg as [? _]. }
  { by eapply curate_enough. }
  destruct (split_files_total m' test Hwf') as (test_text & -> & _).
  { intros g Hg. by apply Htest in Hg as [? _]. }
  { by eapply curate_enough. }
  simpl. by exists train_text, test_text, m'.
Qed.

(** ** The size of a split *)

(** X20. The image-level split of the BDAG script, for a proportion
    [a / 2^k] (as 0.5, the default, 0.25 or 0.75 are) and [n] ground
    images found on disk with [n * a] below [2^53]: there the float
    product [n * p] is exact, [int] of it is the quotient of [n * a] by
    [2^k], and the script puts that many images in the train set and the
    others in the test set. *)
Theorem random_split_sizes on_disk (a : Z) (k : nat) (m : Manifest) (r : R) train test r' :
  NoDup (dict_keys (ground m)) →
  (k ≤ 52)%nat →
  0 ≤ a ≤ 2 ^ Z.of_nat k →
  Z.of_nat (length (filter (λ g, on_disk g = true) (dict_keys (ground m)))) * a < 2 ^ 53 →
  random_split on_disk (Fin (a # Z.to_pos (2 ^ Z.of_nat k))) m r = Some (train, test, r') →
  Z.of_nat (size train)
  = (Z.of_nat (length (filter (λ g, on_disk g = true) (dict_keys (ground m)))) * a)
      `div` 2 ^ Z.of_nat k ∧
  (size train + size test
   = length (filter (λ g, on_disk g = true) (dict_keys (ground m))))%nat.
Proof.
  intros Hnd Hk Ha Hexact. unfold random_split.
  set (ground_images := filter _ _) in *.
  assert (py_int (float_mul (float_of_Z (Z.of_nat (length ground_images)))
                    (Fin (a # Z.to_pos (2 ^ Z.of_nat k))))
          = Some ((Z.of_nat (length ground_images) * a) `div` 2 ^ Z.of_nat k)) as ->.
  { unfold float_of_Z. cbn [float_mul py_int].
    assert (0 < 2 ^ Z.of_nat k) as Hpow by (apply Z.pow_pos_nonneg; lia).
    assert (0 <= inject_Z (Z.of_nat (length ground_images)) * (a # Z.to_pos (2 ^ Z.of_nat k)))%Q
      as Hpos.
    { apply Qmult_le_0_compat.
      - change 0%Q with (inject_Z 0). rewrite <- Zle_Qle. lia.
      - unfold Qle. simpl. lia. }
    apply Qle_bool_iff in Hpos. rewrite Hpos. f_equal.
    unfold Qfloor, Qmult, inject_Z. cbn [Qnum Qden].
    by rewrite Pos.mul_1_l, Z2Pos.id by done. }
  cbn [mbind option_bind].
  destruct (py_sample _ _ _) as [[drawn r1]|] eqn:Hs; simpl; [|done].
  intros [= <- <- <-]. apply py_sample_Some in Hs as (Hn & Hsub & Hlen).
  assert (NoDup ground_images) as Hndg by (by apply NoDup_filter).
  assert (NoDup drawn) as Hndd by (by eapply submseteq_NoDup).
  rewrite size_difference.
  2:{ intros x. rewrite !elem_of_list_to_set. intros ?. by eapply elem_of_submseteq. }
  rewrite !size_list_to_set by done. apply submseteq_length in Hsub. split; lia.
Qed.

Lemma assign_by_sol_all sols ks :
  Forall (λ k, ∃ n, sol_num k = Some n ∧ n ∈ sols) ks →
  assign_by_sol sols ks = Some (ks, []).
Proof.
  induction 1 as [|k ks (n & Hn & Hin) _ IH]; [done|]. simpl.
  rewrite Hn. cbn [mbind option_bind]. rewrite IH. cbn [mbind option_bind fst snd].
  by case_bool_decide.
Qed.

Lemma assign_by_sol_none ks :
  Forall has_sol_segment ks → assign_by_sol [] ks = Some ([], ks).
Proof.
  induction 1 as [|k ks [n Hn]%sol_num_is_Some _ IH]; [done|]. simpl.
  rewrite Hn. cbn [mbind option_bind]. rewrite IH. cbn [mbind option_bind fst snd].
  done.
Qed.

Lemma sol_nums_in (sols : list Z) ks nums :
  mapM sol_num ks = Some nums → (∀ n, n ∈ nums → n ∈ sols) →
  Forall (λ k, ∃ n, sol_num k = Some n ∧ n ∈ sols) ks.
Proof.
  intros Hnums%mapM_Some. induction Hnums as [|k n ks nums Hk _ IH]; intros Hin.
  - constructor.
  - constructor; [exists n; split; [done|]; apply Hin; left|].
    apply IH. intros n' Hn'. apply Hin. by right.
Qed.

(** X21. The episode split at its two ends: with a train proportion of 1
    every ground image is a train image, with 0 every one is a test
    image, in the order of the manifest. *)
Theorem episode_split_extremes (m : Manifest) (r : R) :
  Forall has_sol_segment (dict_keys (ground m)) →
  (∃ r', episode_split (Fin 1%Q) m r = Some (dict_keys (ground m), [], r')) ∧
  (∃ r', episode_split (Fin 0%Q) m r = Some ([], dict_keys (ground m), r')).
Proof.
  intros Hsol. unfold episode_split.
  assert (is_Some (mapM sol_num (dict_keys (ground m)))) as [nums Hnums].
  { apply mapM_is_Some. eapply Forall_impl; [done|]. intros k. apply sol_num_is_Some. }
  rewrite Hnums. cbn [mbind option_bind].
  set (sols := elements (list_to_set nums : gset Z)).
  pose proof (shuffle_perm r sols) as Hperm.
  split.
  - assert (py_int (float_mul (float_of_Z (Z.of_nat (length sols))) (Fin 1%Q))
            = Some (Z.of_nat (length sols))) as ->.
    { unfold float_of_Z. cbn [float_mul py_int].
      assert (inject_Z (Z.of_nat (length sols)) * 1 == inject_Z (Z.of_nat (length sols)))%Q
        as Heq by ring.
      assert (0 <= inject_Z (Z.of_nat (length sols)) * 1)%Q as Hpos.
      { rewrite Heq. change 0%Q with (inject_Z 0). rewrite <- Zle_Qle. lia. }
      apply Qle_bool_iff in Hpos. rewrite Hpos. f_equal.
      rewrite Heq. apply Qfloor_Z. }
    cbn [mbind option_bind]. unfold slice_to. rewrite bool_decide_eq_true_2 by lia.
    rewrite Nat2Z.id, take_ge by (by rewrite Hperm).
    rewrite assign_by_sol_all; [simpl; by eexists|].
    apply (sol_nums_in _ _ nums Hnums). intros n Hn. rewrite Hperm. unfold sols.
    by apply elem_of_elements, elem_of_list_to_set.
  - assert (py_int (float_mul (float_of_Z (Z.of_nat (length sols))) (Fin 0%Q)) = Some 0)
      as ->.
    { unfold float_of_Z. cbn [float_mul py_int].
      assert (inject_Z (Z.of_nat (length sols)) * 0 == 0)%Q as Heq by ring.
      assert (0 <= inject_Z (Z.of_nat (length sols)) * 0)%Q as Hpos by (by rewrite Heq).
      apply Qle_bool_iff in Hpos. rewrite Hpos. f_equal. by rewrite Heq. }
    cbn [mbind option_bind]. unfold slice_to. rewrite bool_decide_eq_true_2 by lia.
    change (Z.to_nat 0) with 0%nat. rewrite take_0.
    rewrite assign_by_sol_none by done. simpl. by eexists.
Qed.

End EndToEnd.

Lemma nan_proportion_aborts_witness :
  prepare_transgeo_mk length_px nan_distraction three_on_T1 0%nat = None.
Proof. apply (nan_proportion_aborts length_px nan_distraction three_on_T1 0%nat). by left. Defined.

Lemma heights_ok_check m : Forall (λ p, h (g_size p.2) ≠ 0) (ground m) → heights_ok m.
Proof. intros HF g gi Hg. rewrite Forall_forall in HF. apply (HF _ Hg). Qed.

Lemma prepare_transgeo_mk_returns_witness :
  ∃ train_text test_text m',
    prepare_transgeo_mk length_px three_allowed three_on_T1 0%nat
    = Some (train_text, test_text, m') ∧
    curable m' ∧ shrinks three_on_T1 m'.
Proof.
  apply (prepare_transgeo_mk_returns length_px three_allowed three_on_T1 0%nat).
  - split.
    + apply wf_check_sound. by apply (bool_decide_unpack _).
    + apply heights_ok_check. by apply (bool_decide_unpack _).
  - done.
  - done.
  - done.
  - apply has_sol_segment_check. by apply (bool_decide_unpack _).
Defined.

Lemma random_split_sizes_witness :
  ∃ train test r',
    random_split (λ _, true) (Fin (1 # Z.to_pos (2 ^ Z.of_nat 1))) five_on_T1 3%nat
    = Some (train, test, r') ∧
    Z.of_nat (size train)
    = (Z.of_nat (length (filter (λ g, (λ _ : key, true) g = true)
                           (dict_keys (ground five_on_T1)))) * 1) `div` 2 ^ Z.of_nat 1 ∧
    (size train + size test
     = length (filter (λ g, (λ _ : key, true) g = true)
                 (dict_keys (ground five_on_T1))))%nat.
Proof.
  eexists _, _, _. split; [reflexivity|].
  eapply (random_split_sizes (λ _, true) 1 1 five_on_T1 3%nat).
  - by apply (bool_decide_unpack _).
  - lia.
  - done.
  - done.
  - reflexivity.
Defined.

Lemma episode_split_extremes_witness :
  (∃ r', episode_split (Fin 1%Q) five_on_T1 0%nat
         = Some (dict_keys (ground five_on_T1), [], r')) ∧
  (∃ r', episode_split (Fin 0%Q) five_on_T1 0%nat
         = Some ([], dict_keys (ground five_on_T1), r')).
Proof.
  apply (episode_split_extremes five_on_T1 0%nat).
  apply has_sol_segment_check. by apply (bool_decide_unpack _).
Defined.

(** ** The episode number of a key *)

Lemma first_sol_cons c s :
  first_sol (String c s)
  = match sol_at (String c s) with Some d => Some d | None => first_sol s end.
Proof. done. Qed.

Lemma sol_at_not_underscore c s : c ≠ "_"%char → sol_at (String c s) = None.
Proof.
  intros Hc. unfold sol_at.
  destruct s as [|d1 [|d2 [|d3 [|d4 [|u2 s]]]]]; try done.
  by rewrite (proj2 (Ascii.eqb_neq c "_") Hc).
Qed.

Lemma first_sol_skip pre s :
  (∀ c, c ∈ list_ascii_of_string pre → c ≠ "_"%char) → first_sol (pre +:+ s) = first_sol s.
Proof.
  induction pre as [|c pre IH]; intros Hpre; [done|].
  change (String c pre +:+ s) with (String c (pre +:+ s)).
  rewrite first_sol_cons, sol_at_not_underscore.
  - apply IH. intros c' Hc'. apply Hpre. simpl. by right.
  - apply Hpre. simpl. left.
Qed.

Lemma digit_value_range c : is_digit c = true → 0 ≤ digit_value c ≤ 9.
Proof.
  unfold is_digit, digit_value. intros [H1%Nat.leb_le H2%Nat.leb_le]%andb_prop. lia.
Qed.

(** X22. The episode of a key is the number that its first [_dddd_] segment
    spells, leading zeros dropped: for a key with no underscore before
    the segment, the four digits read in base ten, a number from 0 to
    9999. *)
Theorem sol_num_value pre d1 d2 d3 d4 post :
  (∀ c, c ∈ list_ascii_of_string pre → c ≠ "_"%char) →
  is_digit d1 = true → is_digit d2 = true → is_digit d3 = true → is_digit d4 = true →
  ∃ n,
    sol_num (pre +:+ String "_" (String d1 (String d2 (String d3 (String d4
                        (String "_" post)))))) = Some n ∧
    n = 1000 * digit_value d1 + 100 * digit_value d2 + 10 * digit_value d3 + digit_value d4 ∧
    0 ≤ n ≤ 9999.
Proof.
  intros Hpre H1 H2 H3 H4. unfold sol_num. rewrite first_sol_skip by done.
  rewrite first_sol_cons.
  assert (sol_at (String "_" (String d1 (String d2 (String d3 (String d4 (String "_" post))))))
          = Some (String d1 (String d2 (String d3 (String d4 EmptyString))))) as ->.
  { unfold sol_at. by rewrite H1, H2, H3, H4. }
  eexists. split; [done|].
  apply digit_value_range in H1, H2, H3, H4.
  unfold int_of_digits. simpl. split; lia.
Qed.

Lemma sol_num_value_witness :
  ∃ n,
    sol_num ("a/G" +:+ String "_" (String "0" (String "0" (String "4" (String "2"
                        (String "_" "7.png")))))) = Some n ∧
    n = 1000 * digit_value "0" + 100 * digit_value "0" + 10 * digit_value "4"
        + digit_value "2" ∧
    0 ≤ n ≤ 9999.
Proof.
  apply (sol_num_value "a/G" "0" "0" "4" "2" "7.png"); try reflexivity.
  apply (proj1 (Forall_forall _ _)). by apply (bool_decide_unpack _).
Defined.

(** ** The edges the builder writes *)

Lemma classify_same gi gi' ai ai' :
  location gi' = location gi →
  positive_boundary ai' = positive_boundary ai →
  semi_positive_boundary ai' = semi_positive_boundary ai →
  classify gi' ai' = classify gi ai.
Proof.
  intros Hl Hp Hs. unfold classify, is_positive, is_semi_positive. by rewrite Hl, Hp, Hs.
Qed.

Lemma classify_linked_tile gi g c ai : classify gi (linked_tile g c ai) = classify gi ai.
Proof. apply classify_same; by destruct c. Qed.

Lemma relation_of_Some gi a ai c :
  c ≠ Unrelated → relation_of gi (a, ai) = c ↔ classify gi ai = Some c.
Proof.
  intros Hc. unfold relation_of. simpl. destruct (classify gi ai) as [c'|]; simpl.
  - split; [by intros -> | by intros [= ->]].
  - split; [by intros <- | done].
Qed.

Lemma link_fields g aerials : ∀ gi aerials' gi',
  link g gi aerials = Some (aerials', gi') →
  g_size gi' = g_size gi ∧ location gi' = location gi.
Proof.
  induction aerials as [|[k ai] rest IH]; intros gi aerials' gi' Hrun; simpl in Hrun.
  - by simplify_eq.
  - apply bind_Some in Hrun as (c & Hc & Hrun).
    apply bind_Some in Hrun as ([rest' gi1] & Hmore & Hrun). simpl in Hrun. simplify_eq.
    apply IH in Hmore as [-> ->]. by destruct c.
Qed.

Lemma add_ground_image_classified m f m' :
  wf m → rel_path f ∉ dict_keys (ground m) → edges_classified m →
  add_ground_image m f = Some m' → edges_classified m'.
Proof.
  intros Hwf Hfresh Hcl Hadd. unfold add_ground_image in Hadd.
  destruct (ground_label_match _) as [groups|]; [|by simplify_eq].
  set (g := rel_path f) in *.
  set (gi0 := mkGround _ _ [] []) in Hadd.
  apply bind_Some in Hadd as ([aerial' gi'] & Hlink & Hadd). simpl in Hadd. simplify_eq.
  pose proof (link_fields _ _ _ _ _ Hlink) as [_ Hloc].
  apply link_Some in Hlink as (-> & Hpos & Hsemi). simpl in Hpos, Hsemi.
  destruct Hwf as ([Hka _] & _).
  assert (∀ a c, a ∈ (filter (λ p, relation_of gi0 p = c) (aerial m)).*1 ↔
                 ∃ ai, dict_get a (aerial m) = Some ai ∧ relation_of gi0 (a, ai) = c) as Hrel.
  { intros a c. rewrite list_elem_of_fmap. split.
    - intros ([a0 ai] & -> & [Hr Hin]%list_elem_of_filter). exists ai.
      split; [by apply elem_dict_get | done].
    - intros (ai & Hin%dict_get_Some_elem & Hr). exists (a, ai). split; [done|].
      by apply list_elem_of_filter. }
  intros g1 gi1 a ai'. simpl.
  rewrite dict_get_set,
    (dict_get_fmap_item (λ p, linked_tile g (relation_of gi0 p) p.2) (aerial m) a).
  intros Hg1 (ai & Hai & ->)%fmap_Some. simpl. rewrite classify_linked_tile.
  case_decide as Hg.
  - subst g1. injection Hg1 as <-. rewrite Hpos, Hsemi, !Hrel.
    rewrite (classify_same gi0 gi' ai ai) by done.
    rewrite <- !(relation_of_Some gi0 a ai) by done. split.
    + split; [intros (ai2 & Hai2 & Hr); congruence | intros Hr; by exists ai].
    + split; [intros (ai2 & Hai2 & Hr); congruence | intros Hr; by exists ai].
  - by apply (Hcl g1 gi1 a ai).
Qed.

Lemma add_ground_images_classified fs : ∀ m m',
  wf m → NoDup (rel_path <$> fs) →
  (∀ k, k ∈ dict_keys (ground m) → k ∉ rel_path <$> fs) →
  edges_classified m →
  foldM add_ground_image m fs = Some m' → edges_classified m'.
Proof.
  induction fs as [|f fs IH]; intros m m' Hwf Hnd Hfresh Hcl Hrun; simpl in Hrun.
  - by simplify_eq.
  - apply bind_Some in Hrun as (m1 & Hadd & Hrun).
    rewrite fmap_cons in Hnd. apply NoDup_cons in Hnd as [Hf Hnd].
    assert (rel_path f ∉ dict_keys (ground m)) as Hnew.
    { intros Hin. apply (Hfresh _ Hin). rewrite fmap_cons. left. }
    apply (IH m1 m'); [by eapply add_ground_image_wf|done| |by eapply add_ground_image_classified|done].
    intros k Hk. unfold add_ground_image in Hadd.
    destruct (ground_label_match _).
    + apply bind_Some in Hadd as (linked & _ & [= <-]). simpl in Hk.
      rewrite dict_keys_set in Hk. case_decide; [done|].
      apply elem_of_app in Hk as [Hk|Hk%list_elem_of_singleton]; [|by subst k].
      intros Hin. apply (Hfresh _ Hk). rewrite fmap_cons. by right.
    + simplify_eq. intros Hin. apply (Hfresh _ Hk). rewrite fmap_cons. by right.
Qed.

Lemma aerial_images_no_ground fs : ∀ m0,
  ground m0 = [] → ground (foldl add_aerial_image m0 fs) = [].
Proof.
  induction fs as [|f fs IH]; intros m0 Hm0; simpl; [done|].
  apply IH. unfold add_aerial_image. by destruct (aerial_label_match _).
Qed.

Lemma build_edges aerial_images ground_images m g gi a ai :
  NoDup (rel_path <$> ground_images) →
  build aerial_images ground_images = Some m →
  dict_get g (ground m) = Some gi →
  dict_get a (aerial m) = Some ai →
  (a ∈ g_positive gi ↔ classify gi ai = Some Positive) ∧
  (g ∈ a_positive ai ↔ classify gi ai = Some Positive) ∧
  (a ∈ g_semi_positive gi ↔ classify gi ai = Some SemiPositive) ∧
  (g ∈ a_semi_positive ai ↔ classify gi ai = Some SemiPositive).
Proof.
  intros Hnd Hbuild Hg Ha.
  pose proof (build_wf _ _ _ Hnd Hbuild) as (_ & Hc & _).
  assert (edges_classified m) as Hcl.
  { unfold build in Hbuild. revert Hbuild. apply add_ground_images_classified; [|done| |].
    - apply add_aerial_images_wf; simpl; [done|constructor|]. by intros ?? ?%elem_of_nil.
    - intros k Hk. rewrite aerial_images_no_ground in Hk by done.
      by apply elem_of_nil in Hk.
    - intros g0 gi0 a0 ai0 Hg0. by rewrite aerial_images_no_ground in Hg0. }
  destruct (Hcl g gi a ai Hg Ha) as [Hp Hs]. destruct (Hc g gi a ai Hg Ha) as (Hcp & Hcs & _).
  split_and!; [done|by rewrite Hcp|done|by rewrite Hcs].
Qed.

(** ** The entries the builder writes *)

Lemma aerial_from_mono fs f a ai : aerial_from fs a ai → aerial_from (fs ++ [f]) a ai.
Proof.
  intros (f0 & groups & Hin & ?). exists f0, groups. split; [|done].
  apply elem_of_app. by left.
Qed.

Lemma ground_from_mono fs f g gi : ground_from fs g gi → ground_from (fs ++ [f]) g gi.
Proof.
  intros (f0 & groups & Hin & ?). exists f0, groups. split; [|done].
  apply elem_of_app. by left.
Qed.

Lemma add_aerial_images_from fs :
  (∀ a, a ∈ dict_keys (aerial (foldl add_aerial_image (mkManifest [] []) fs)) ↔
        ∃ f, f ∈ fs ∧ rel_path f = a ∧ is_Some (aerial_label_match (path_name a))) ∧
  (∀ a ai, dict_get a (aerial (foldl add_aerial_image (mkManifest [] []) fs)) = Some ai →
           aerial_from fs a ai).
Proof.
  induction fs as [|f fs [IHk IHi]] using rev_ind.
  - split; [|done]. intros a. simpl. split; [by intros ?%elem_of_nil|].
    by intros (f & ?%elem_of_nil & _).
  - rewrite foldl_app. simpl. set (m := foldl add_aerial_image _ fs) in *.
    unfold add_aerial_image.
    destruct (aerial_label_match (path_name (rel_path f))) as [groups|] eqn:Hm.
    + split.
      * intros a. simpl. rewrite dict_keys_set.
        assert (a ∈ dict_keys (aerial m) ∨ a = rel_path f ↔
                ∃ f0, f0 ∈ fs ++ [f] ∧ rel_path f0 = a ∧
                      is_Some (aerial_label_match (path_name a))) as Hiff.
        { rewrite IHk. split.
          - intros [(f0 & Hin & ? & ?)| ->].
            + exists f0. split; [apply elem_of_app; by left | done].
            + exists f. split; [apply elem_of_app; right; left|]. by rewrite Hm.
          - intros (f0 & [Hin| ->%list_elem_of_singleton]%elem_of_app & Hp & Hs).
            + left. by exists f0.
            + by right. }
        rewrite <- Hiff. case_decide as Hin.
        -- split; [by left | by intros [?| ->]].
        -- by rewrite elem_of_app, list_elem_of_singleton.
      * intros a ai. simpl. rewrite dict_get_set. case_decide as Ha.
        -- subst a. intros [= <-]. exists f, groups. split; [apply elem_of_app; right; left|].
           by repeat split.
        -- intros Hai. by apply aerial_from_mono, IHi.
    + split.
      * intros a. rewrite IHk. split.
        -- intros (f0 & Hin & ? & ?). exists f0. split; [apply elem_of_app; by left | done].
        -- intros (f0 & [Hin| ->%list_elem_of_singleton]%elem_of_app & Hp & Hs).
           ++ by exists f0.
           ++ subst a. rewrite Hm in Hs. by destruct Hs.
      * intros a ai Hai. by apply aerial_from_mono, IHi.
Qed.

Lemma add_ground_image_aerial m f m' :
  add_ground_image m f = Some m' →
  dict_keys (aerial m') = dict_keys (aerial m) ∧
  ∀ fs a ai', dict_get a (aerial m') = Some ai' →
    (∀ ai, dict_get a (aerial m) = Some ai → aerial_from fs a ai) → aerial_from fs a ai'.
Proof.
  unfold add_ground_image. destruct (ground_label_match _) as [groups|].
  2:{ intros [= <-]. split; [done|]. intros fs a ai' Hai' Hold. by apply Hold. }
  intros ([aerial' gi'] & Hlink & [= <-])%bind_Some. simpl.
  apply link_Some in Hlink as (-> & _ & _). split.
  - unfold dict_keys. rewrite <- list_fmap_compose. by apply list_fmap_ext.
  - intros fs a ai'.
    rewrite (dict_get_fmap_item (λ p, linked_tile (rel_path f) (relation_of _ p) p.2)).
    intros (ai & Hai & ->)%fmap_Some Hold. simpl.
    destruct (Hold ai Hai) as (f0 & groups0 & Hin & Hp & Hm & Hl).
    exists f0, groups0. split_and!; [done..|].
    unfold aerial_labelled in *. by destruct (relation_of _ _).
Qed.

Lemma add_ground_images_from fs : ∀ m0 m,
  ground m0 = [] →
  foldM add_ground_image m0 fs = Some m →
  dict_keys (aerial m) = dict_keys (aerial m0) ∧
  (∀ afs a ai', dict_get a (aerial m) = Some ai' →
     (∀ ai, dict_get a (aerial m0) = Some ai → aerial_from afs a ai) → aerial_from afs a ai') ∧
  (∀ g, g ∈ dict_keys (ground m) ↔
        ∃ f, f ∈ fs ∧ rel_path f = g ∧ is_Some (ground_label_match (path_name g))) ∧
  (∀ g gi, dict_get g (ground m) = Some gi → ground_from fs g gi).
Proof.
  induction fs as [|f fs IH] using rev_ind; intros m0 m Hm0 Hrun.
  - simpl in Hrun. simplify_eq. rewrite Hm0. split_and!; [done| | |done].
    + intros afs a ai' Hai' Hold. by apply Hold.
    + intros g. split; [by intros ?%elem_of_nil | by intros (f & ?%elem_of_nil & _)].
  - rewrite foldM_snoc in Hrun. apply bind_Some in Hrun as (m1 & Hrun & Hstep).
    destruct (IH m0 m1 Hm0 Hrun) as (Hka & Hia & Hkg & Hig).
    destruct (add_ground_image_aerial m1 f m Hstep) as [Hka' Hia'].
    split_and!.
    + by rewrite Hka'.
    + intros afs a ai' Hai' Hold. apply (Hia' afs a ai' Hai'). intros ai Hai.
      by apply (Hia afs a ai).
    + intros g. unfold add_ground_image in Hstep.
      destruct (ground_label_match (path_name (rel_path f))) as [groups|] eqn:Hm.
      * apply bind_Some in Hstep as (linked & _ & [= <-]). simpl.
        rewrite dict_keys_set.
        assert (g ∈ dict_keys (ground m1) ∨ g = rel_path f ↔
                ∃ f0, f0 ∈ fs ++ [f] ∧ rel_path f0 = g ∧
                      is_Some (ground_label_match (path_name g))) as Hiff.
        { rewrite Hkg. split.
          - intros [(f0 & Hin & ? & ?)| ->].
            + exists f0. split; [apply elem_of_app; by left | done].
            + exists f. split; [apply elem_of_app; right; left|]. by rewrite Hm.
          - intros (f0 & [Hin| ->%list_elem_of_singleton]%elem_of_app & Hp & Hs).
            + left. by exists f0.
            + by right. }
        rewrite <- Hiff. case_decide as Hin.
        -- split; [by left | by intros [?| ->]].
        -- by rewrite elem_of_app, list_elem_of_singleton.
      * simplify_eq. rewrite Hkg. split.
        -- intros (f0 & Hin & ? & ?). exists f0. split; [apply elem_of_app; by left | done].
        -- intros (f0 & [Hin| ->%list_elem_of_singleton]%elem_of_app & Hp & Hs).
           ++ by exists f0.
           ++ subst g. rewrite Hm in Hs. by destruct Hs.
    + intros g gi. unfold add_ground_image in Hstep.
      destruct (ground_label_match (path_name (rel_path f))) as [groups|] eqn:Hm.
      * apply bind_Some in Hstep as ([aerial' gi'] & Hlink & [= <-]). simpl.
        apply link_fields in Hlink as [Hsize Hloc]. simpl in Hsize, Hloc.
        rewrite dict_get_set. case_decide as Hg.
        -- subst g. intros [= <-]. exists f, groups.
           split; [apply elem_of_app; right; left|]. by repeat split.
        -- intros Hgi. by apply ground_from_mono, Hig.
      * simplify_eq. intros Hgi. by apply ground_from_mono, Hig.
Qed.

Lemma build_entries aerial_images ground_images m :
  build aerial_images ground_images = Some m →
  (∀ a, a ∈ dict_keys (aerial m) ↔
        ∃ f, f ∈ aerial_images ∧ rel_path f = a ∧
             is_Some (aerial_label_match (path_name a))) ∧
  (∀ g, g ∈ dict_keys (ground m) ↔
        ∃ f, f ∈ ground_images ∧ rel_path f = g ∧
             is_Some (ground_label_match (path_name g))) ∧
  (∀ a ai, dict_get a (aerial m) = Some ai → aerial_from aerial_images a ai) ∧
  (∀ g gi, dict_get g (ground m) = Some gi → ground_from ground_images g gi).
Proof.
  unfold build. intros Hrun.
  destruct (add_aerial_images_from aerial_images) as [Hka Hia].
  destruct (add_ground_images_from ground_images _ m
              (aerial_images_no_ground aerial_images (mkManifest [] []) eq_refl) Hrun)
    as (Hk & Hi & Hkg & Hig).
  split_and!; [|done| |done].
  - intros a. by rewrite Hk.
  - intros a ai Hai. apply (Hi aerial_images a ai Hai). apply Hia.
Qed.

(** ** The builder with its reports *)

Lemma add_aerial_images_str fs : ∀ m0,
  Forall (λ p, str_tile p.2) (aerial m0) →
  Forall (λ p, str_tile p.2) (aerial (foldl add_aerial_image m0 fs)).
Proof.
  induction fs as [|f fs IH]; intros m0 Hm0; simpl; [done|].
  by apply IH, add_aerial_image_str.
Qed.

Lemma build_total aerial_images ground_images :
  is_Some (build aerial_images ground_images).
Proof.
  unfold build.
  assert (Forall (λ p, str_tile p.2)
            (aerial (foldl add_aerial_image (mkManifest [] []) aerial_images))) as Hstr.
  { apply add_aerial_images_str. constructor. }
  revert Hstr. generalize (foldl add_aerial_image (mkManifest [] []) aerial_images).
  induction ground_images as [|f fs IH]; intros m0 Hm0; simpl; [by eexists|].
  destruct (add_ground_image_total m0 f Hm0) as (m1 & -> & Hm1). simpl. by apply IH.
Qed.

Lemma add_ground_image_reported_bound p m f :
  add_ground_image_reported (Some p) m f = add_ground_image m f.
Proof.
  unfold add_ground_image_reported, add_ground_image.
  by destruct (ground_label_match _).
Qed.

Lemma add_ground_image_reported_Some p m f m' :
  add_ground_image_reported p m f = Some m' → add_ground_image m f = Some m'.
Proof.
  unfold add_ground_image_reported, add_ground_image.
  destruct (ground_label_match _); [done|]. by destruct p.
Qed.

Lemma image_manifest_Some aerial_images ground_images m :
  image_manifest aerial_images ground_images = Some m →
  build aerial_images ground_images = Some m.
Proof.
  unfold image_manifest, build.
  generalize (foldl add_aerial_image (mkManifest [] []) aerial_images).
  induction ground_images as [|f fs IH]; intros m0 Hrun; simpl in *; [done|].
  apply bind_Some in Hrun as (m1 & Hstep & Hrun).
  apply add_ground_image_reported_Some in Hstep. rewrite Hstep. simpl. by apply IH.
Qed.

Lemma image_manifest_bound aerial_images ground_images :
  aerial_images ≠ [] →
  image_manifest aerial_images ground_images = build aerial_images ground_images.
Proof.
  intros Hne. unfold image_manifest, build.
  destruct (last aerial_images) as [p|] eqn:Hlast.
  - apply foldM_ext. intros s x _. apply add_ground_image_reported_bound.
  - by apply last_None in Hlast.
Qed.

Lemma unreported_total fs : ∀ m,
  Forall (λ p, str_tile p.2) (aerial m) →
  Forall (λ f, is_Some (ground_label_match (path_name (rel_path f)))) fs →
  is_Some (foldM (add_ground_image_reported None) m fs).
Proof.
  induction fs as [|f fs IH]; intros m Hm Hfs; simpl; [by eexists|].
  apply Forall_cons in Hfs as [[groups Hf] Hfs].
  destruct (add_ground_image_total m f Hm) as (m1 & Hadd & Hm1).
  assert (add_ground_image_reported None m f = Some m1) as ->.
  { unfold add_ground_image_reported. by rewrite Hf. }
  simpl. by apply IH.
Qed.

Lemma unreported_raises fs f : ∀ m,
  f ∈ fs → ground_label_match (path_name (rel_path f)) = None →
  foldM (add_ground_image_reported None) m fs = None.
Proof.
  induction fs as [|f0 fs IH]; intros m Hin Hf; [by apply elem_of_nil in Hin|].
  simpl. destruct (add_ground_image_reported None m f0) as [m1|] eqn:Hstep; [|done].
  simpl. apply elem_of_cons in Hin as [->|Hin]; [|by apply IH].
  unfold add_ground_image_reported in Hstep. by rewrite Hf in Hstep.
Qed.

(** X23. The builder raises in one case only: no image in the aerial
    directory, and a file of the ground tree whose name does not match
    the ground grammar. The report of that file reads a variable that
    the aerial loop never bound. With one aerial image, labelled or not,
    every unmatched name is skipped. *)
Theorem image_manifest_raises aerial_images ground_images :
  image_manifest aerial_images ground_images = None ↔
  aerial_images = [] ∧
  ∃ f, f ∈ ground_images ∧ ground_label_match (path_name (rel_path f)) = None.
Proof.
  split.
  - intros Hnone. destruct aerial_images as [|a0 rest].
    + split; [done|]. unfold image_manifest in Hnone. simpl in Hnone.
      destruct (decide (Forall (λ f, is_Some (ground_label_match (path_name (rel_path f))))
                          ground_images)) as [Hall|Hsome].
      * destruct (unreported_total ground_images (mkManifest [] [])) as [m Hm];
          [constructor | done | congruence].
      * apply not_Forall_Exists in Hsome; [|apply _].
        apply Exists_exists in Hsome as (f & Hin & Hf). exists f. split; [done|].
        simpl in Hf. destruct (ground_label_match _) as [groups|]; [|done].
        destruct Hf. by eexists.
    + rewrite image_manifest_bound in Hnone by done.
      destruct (build_total (a0 :: rest) ground_images) as [m Hm]. congruence.
  - intros [-> (f & Hin & Hf)]. unfold image_manifest. simpl.
    by eapply unreported_raises.
Qed.

(** X24. With an image in the aerial directory and distinct ground paths, as
    the files of a directory tree have, the builder writes a manifest,
    and the manifest is well-formed: no key twice, every edge recorded at
    both ends and once, positive and semi-positive lists apart, and no
    edge to a key that has no entry. *)
Theorem image_manifest_wf aerial_images ground_images :
  aerial_images ≠ [] →
  NoDup (rel_path <$> ground_images) →
  ∃ m, image_manifest aerial_images ground_images = Some m ∧ wf m.
Proof.
  intros Hne Hnd. rewrite image_manifest_bound by done. by apply build_total_wf.
Qed.

Lemma image_manifest_wf_witness :
  ∃ m, image_manifest [tile_10_11; unlabelled_file] [pano_10_50] = Some m ∧ wf m.
Proof.
  apply (image_manifest_wf [tile_10_11; unlabelled_file] [pano_10_50]).
  - done.
  - by apply (bool_decide_unpack _).
Defined.

(** X25. In the manifest of [image-manifest.py] a tile is in the positive list
    of a ground image, and the ground image in the positive list of the
    tile, exactly when [is_positive] holds for the pair; the
    semi-positive lists hold the pairs for which [is_positive] fails and
    [is_semi_positive] holds. *)
Theorem builder_links_what_the_test_accepts aerial_images ground_images m g gi a ai :
  NoDup (rel_path <$> ground_images) →
  image_manifest aerial_images ground_images = Some m →
  dict_get g (ground m) = Some gi →
  dict_get a (aerial m) = Some ai →
  (a ∈ g_positive gi ↔ classify gi ai = Some Positive) ∧
  (g ∈ a_positive ai ↔ classify gi ai = Some Positive) ∧
  (a ∈ g_semi_positive gi ↔ classify gi ai = Some SemiPositive) ∧
  (g ∈ a_semi_positive ai ↔ classify gi ai = Some SemiPositive).
Proof.
  intros Hnd Hrun%image_manifest_Some. by apply (build_edges aerial_images ground_images m).
Qed.

Lemma builder_links_what_the_test_accepts_witness :
  ∃ m gi ai,
    image_manifest [tile_10_11; unlabelled_file] [pano_10_50] = Some m ∧
    dict_get (rel_path pano_10_50) (ground m) = Some gi ∧
    dict_get (rel_path tile_10_11) (aerial m) = Some ai ∧
    (rel_path tile_10_11 ∈ g_positive gi ↔ classify gi ai = Some Positive) ∧
    (rel_path pano_10_50 ∈ a_positive ai ↔ classify gi ai = Some Positive) ∧
    (rel_path tile_10_11 ∈ g_semi_positive gi ↔ classify gi ai = Some SemiPositive) ∧
    (rel_path pano_10_50 ∈ a_semi_positive ai ↔ classify gi ai = Some SemiPositive).
Proof.
  eexists _, _, _. do 3 (split; [vm_compute; reflexivity|]).
  eapply (builder_links_what_the_test_accepts [tile_10_11; unlabelled_file] [pano_10_50] _
           (rel_path pano_10_50) _ (rel_path tile_10_11) _).
  - by apply (bool_decide_unpack _).
  - vm_compute; reflexivity.
  - vm_compute; reflexivity.
  - vm_compute; reflexivity.
Defined.

(** X26. The manifest of [image-manifest.py] has an aerial entry for every
    file of the aerial directory whose name matches the tile grammar, a
    ground entry for every file of the ground tree whose name matches the
    ground grammar, and no other entry; an entry holds the size of such a
    file and the fields of its label. *)
Theorem builder_keeps_labelled_files aerial_images ground_images m :
  image_manifest aerial_images ground_images = Some m →
  (∀ a, a ∈ dict_keys (aerial m) ↔
        ∃ f, f ∈ aerial_images ∧ rel_path f = a ∧
             is_Some (aerial_label_match (path_name a))) ∧
  (∀ g, g ∈ dict_keys (ground m) ↔
        ∃ f, f ∈ ground_images ∧ rel_path f = g ∧
             is_Some (ground_label_match (path_name g))) ∧
  (∀ a ai, dict_get a (aerial m) = Some ai → aerial_from aerial_images a ai) ∧
  (∀ g gi, dict_get g (ground m) = Some gi → ground_from ground_images g gi).
Proof. intros Hrun%image_manifest_Some. by apply build_entries. Qed.

Lemma builder_keeps_labelled_files_witness :
  ∃ m,
    image_manifest [tile_10_11; unlabelled_file] [pano_10_50] = Some m ∧
    (∀ a, a ∈ dict_keys (aerial m) ↔
          ∃ f, f ∈ [tile_10_11; unlabelled_file] ∧ rel_path f = a ∧
               is_Some (aerial_label_match (path_name a))) ∧
    (∀ g, g ∈ dict_keys (ground m) ↔
          ∃ f, f ∈ [pano_10_50] ∧ rel_path f = g ∧
               is_Some (ground_label_match (path_name g))) ∧
    (∀ a ai, dict_get a (aerial m) = Some ai →
             aerial_from [tile_10_11; unlabelled_file] a ai) ∧
    (∀ g gi, dict_get g (ground m) = Some gi → ground_from [pano_10_50] g gi).
Proof.
  eexists. split; [vm_compute; reflexivity|].
  apply (builder_keeps_labelled_files [tile_10_11; unlabelled_file] [pano_10_50]).
  vm_compute; reflexivity.
Defined.

(** ** Time stamps in file names *)

Lemma list_ascii_of_string_app s t :
  list_ascii_of_string (s +:+ t) = list_ascii_of_string s ++ list_ascii_of_string t.
Proof. induction s as [|c s IH]; simpl; [done | by rewrite IH]. Qed.

Lemma drop_last_app s t : drop_last (String.length t) (s +:+ t) = s.
Proof.
  unfold drop_last. rewrite list_ascii_of_string_app, length_app.
  assert (length (list_ascii_of_string t) = String.length t) as Ht.
  { induction t as [|c t IH]; simpl; [done | by rewrite IH]. }
  rewrite <- Ht, Nat.add_sub, take_app_length. apply string_of_list_ascii_of_string.
Qed.

Lemma take_last_app n s t :
  (n ≤ String.length t)%nat → take_last n (s +:+ t) = take_last n t.
Proof.
  intros Hn. unfold take_last. rewrite list_ascii_of_string_app, length_app.
  assert (length (list_ascii_of_string t) = String.length t) as Ht.
  { clear. induction t as [|c t IH]; simpl; [done | by rewrite IH]. }
  rewrite drop_app. f_equal.
  rewrite (drop_ge (list_ascii_of_string s)) by lia. simpl. f_equal. lia.
Qed.

Lemma take_last_length n s :
  String.length (take_last n s) = Nat.min n (String.length s).
Proof.
  unfold take_last.
  assert (∀ l, String.length (string_of_list_ascii l) = length l) as Hl.
  { induction l as [|c l IH]; simpl; [done | by rewrite IH]. }
  assert (length (list_ascii_of_string s) = String.length s) as Hs.
  { induction s as [|c s IH]; simpl; [done | by rewrite IH]. }
  rewrite Hl, length_drop, Hs. lia.
Qed.

Section RenameFacts.
Variable utc_of : string → option string.

Lemma rename_image_renamed filename name :
  (∀ sclk utc, utc_of sclk = Some utc → take_last 3 utc = "UTC") →
  rename_image utc_of filename = Some (Some name) →
  rename_image utc_of name = Some None.
Proof.
  intros Hutc. unfold rename_image at 1.
  case_decide as Hskip; [done|].
  destruct (first_digits 10 filename) as [sclk|]; [|done].
  intros (utc & Hu & [= <-])%bind_Some.
  pose proof (Hutc sclk utc Hu) as Hlast.
  assert (3 ≤ String.length utc)%nat as Hlen.
  { pose proof (take_last_length 3 utc) as Hl. rewrite Hlast in Hl.
    change (String.length "UTC") with 3%nat in Hl. lia. }
  unfold rename_image.
  assert (drop_last 4 (drop_last 4 filename +:+ "_" +:+ utc +:+ ".png")
          = drop_last 4 filename +:+ "_" +:+ utc) as ->.
  { rewrite <- !string_app_assoc. apply (drop_last_app _ ".png"). }
  rewrite <- string_app_assoc, take_last_app by done.
  by rewrite decide_True.
Qed.

(** X27. A second run of [rename_images.py] renames nothing, as long as the
    time the service returns ends in [UTC]: a renamed file has a name
    whose stem ends in [UTC], and the files the first run skipped are
    skipped again. *)
Theorem second_run_renames_nothing listing renames :
  (∀ sclk utc, utc_of sclk = Some utc → take_last 3 utc = "UTC") →
  rename_images utc_of listing = Some renames →
  rename_images utc_of (after_renames utc_of listing) = Some [].
Proof.
  intros Hutc Hrun.
  assert (Forall (λ f, is_Some (rename_image utc_of f)) listing) as Hall.
  { unfold rename_images in Hrun. revert Hrun. generalize (@nil (string * string)).
    revert renames. induction listing as [|f fs IH]; intros renames acc Hrun; [constructor|].
    rewrite foldM_cons in Hrun. apply bind_Some in Hrun as (acc1 & Hstep & Hrun).
    apply bind_Some in Hstep as (d & Hd & _).
    constructor; [by eexists | apply (IH renames acc1 Hrun)]. }
  unfold rename_images, after_renames. clear Hrun.
  induction Hall as [|f fs [d Hd] _ IH]; [done|].
  rewrite fmap_cons, foldM_cons.
  assert (rename_step utc_of [] (default f (mjoin (rename_image utc_of f))) = Some []) as ->.
  { unfold rename_step.
    assert (rename_image utc_of (default f (mjoin (rename_image utc_of f))) = Some None)
      as ->; [|done].
    rewrite Hd. destruct d as [name|]; simpl; [|done]. by apply (rename_image_renamed f). }
  apply IH.
Qed.

End RenameFacts.

Lemma second_run_renames_nothing_witness :
  rename_images fixed_utc (after_renames fixed_utc image_directory) = Some [].
Proof.
  eapply (second_run_renames_nothing fixed_utc image_directory).
  - intros sclk utc [= <-]. reflexivity.
  - vm_compute; reflexivity.
Defined.

(** ** Tiles around the waypoints *)

Lemma int64_small z : - 2 ^ 63 ≤ z < 2 ^ 63 → int64 z = z.
Proof. intros Hz. unfold int64. rewrite Z.mod_small; lia. Qed.

Lemma Qceiling_div n s :
  0 < s → Qceiling (inject_Z n / inject_Z s) = - ((- n) `div` s).
Proof.
  intros Hs. destruct s as [|p|p]; try lia.
  assert (inject_Z n / inject_Z (Z.pos p) == n # p)%Q as Heq by (by rewrite Qmake_Qdiv).
  rewrite Heq. reflexivity.
Qed.

(** The rounding, with the arithmetic of the integers: on pixel
    coordinates no operation leaves the 64-bit range. *)
Lemma round_and_center_pixels s a b :
  0 < s ≤ 2 ^ 40 → pixel a → pixel b →
  round_and_center s (a, b)
  = Some (a - (- ((a - b) `div` s) * s - (b - a)) `div` 2,
          a + - ((a - b) `div` s) * s - (- ((a - b) `div` s) * s - (b - a)) `div` 2).
Proof.
  intros Hs Ha Hb. unfold pixel in *. unfold round_and_center. simpl.
  rewrite (int64_small (b - a)) by lia.
  unfold np_true_divide. rewrite decide_False by lia. simpl.
  rewrite Qceiling_div by lia. replace (- (b - a)) with (a - b) by lia.
  set (c := - ((a - b) `div` s)).
  assert (b - a ≤ c * s < b - a + s) as Hc.
  { unfold c. pose proof (Z.div_mod (a - b) s ltac:(lia)) as Hdm.
    pose proof (Z.mod_pos_bound (a - b) s ltac:(lia)) as Hm. nia. }
  rewrite (int64_small (c * s - (b - a))) by lia.
  assert (0 ≤ (c * s - (b - a)) `div` 2 ≤ c * s - (b - a)) as Hd.
  { split; [apply Z.div_pos; lia|]. apply Z.div_le_upper_bound; lia. }
  rewrite (int64_small ((c * s - (b - a)) `div` 2)) by lia.
  rewrite (int64_small (a + c * s)) by lia.
  rewrite !int64_small by lia. done.
Qed.

(** X28. After [round_and_center] the range still holds the old one, its
    width is the next multiple of the spacing, and the margin added is
    split between the two ends, the larger half at the upper end. *)
Theorem round_and_center_covers s a b :
  0 < s ≤ 2 ^ 40 → pixel a → pixel b → a ≤ b →
  ∃ a' b',
    round_and_center s (a, b) = Some (a', b') ∧
    a' ≤ a ∧ b ≤ b' ∧
    (s | b' - a') ∧ b - a ≤ b' - a' < b - a + s ∧
    a - a' ≤ b' - b ≤ a - a' + 1.
Proof.
  intros Hs Ha Hb Hab. rewrite round_and_center_pixels by done.
  set (c := - ((a - b) `div` s)).
  assert (b - a ≤ c * s < b - a + s) as Hc.
  { unfold c. pose proof (Z.div_mod (a - b) s ltac:(lia)) as Hdm.
    pose proof (Z.mod_pos_bound (a - b) s ltac:(lia)) as Hm. nia. }
  set (d := c * s - (b - a)) in *.
  pose proof (Z.div_mod d 2 ltac:(lia)) as Hdm.
  pose proof (Z.mod_pos_bound d 2 ltac:(lia)) as Hm.
  eexists _, _. split; [done|]. split_and!; try lia.
  exists c. lia.
Qed.

Lemma round_and_center_covers_witness :
  ∃ a' b',
    round_and_center 320 (1000, 1900) = Some (a', b') ∧
    a' ≤ 1000 ∧ 1900 ≤ b' ∧
    (320 | b' - a') ∧ 1900 - 1000 ≤ b' - a' < 1900 - 1000 + 320 ∧
    1000 - a' ≤ b' - 1900 ≤ 1000 - a' + 1.
Proof. apply (round_and_center_covers 320 1000 1900); unfold pixel; lia. Defined.

Lemma np_arange_steps start c s :
  0 < s →
  np_arange start (start + c * s) s
  = Some ((λ i : nat, int64 (start + Z.of_nat i * s)) <$> seq 0 (Z.to_nat c)).
Proof.
  intros Hs. unfold np_arange. rewrite decide_False by lia. rewrite decide_True by done.
  do 3 f_equal. replace (start + c * s - start + s - 1) with (c * s + (s - 1)) by lia.
  rewrite Z.div_add_l by lia. rewrite Z.div_small by lia. lia.
Qed.

Lemma round_and_center_width s a b a' b' :
  0 < s ≤ 2 ^ 40 → pixel a → pixel b →
  round_and_center s (a, b) = Some (a', b') →
  b' = a' + - ((a - b) `div` s) * s ∧ - 2 ^ 42 ≤ a' ≤ 2 ^ 42 ∧
  (a ≤ b → a' ≤ a ∧ b ≤ b').
Proof.
  intros Hs Ha Hb. rewrite round_and_center_pixels by done. intros [= <- <-].
  unfold pixel in *. set (c := - ((a - b) `div` s)).
  assert (b - a ≤ c * s < b - a + s) as Hc.
  { unfold c. pose proof (Z.div_mod (a - b) s ltac:(lia)) as Hdm.
    pose proof (Z.mod_pos_bound (a - b) s ltac:(lia)) as Hm. nia. }
  set (d := c * s - (b - a)) in *.
  pose proof (Z.div_mod d 2 ltac:(lia)) as Hdm.
  pose proof (Z.mod_pos_bound d 2 ltac:(lia)) as Hm.
  split_and!; lia.
Qed.





(** X30. When the column range of the waypoints is empty or reversed, as it
    is for a single waypoint, the grid has no column and the script
    saves nothing. *)
Theorem single_column_saves_nothing tile_size col_range row_range waypoints_px :
  2 ≤ tile_size ≤ 2 ^ 40 →
  pixel col_range.1 → pixel col_range.2 → pixel row_range.1 → pixel row_range.2 →
  col_range.2 ≤ col_range.1 →
  saved_tiles tile_size col_range row_range waypoints_px = Some [].
Proof.
  destruct col_range as [a b], row_range as [c d]. simpl.
  intros Ht Ha Hb Hc Hd Hab.
  assert (0 < tile_size `div` 2 ≤ 2 ^ 40) as Hs.
  { pose proof (Z.div_mod tile_size 2 ltac:(lia)).
    pose proof (Z.mod_pos_bound tile_size 2 ltac:(lia)). lia. }
  set (s := tile_size `div` 2) in *.
  destruct (round_and_center s (a, b)) as [[a' b']|] eqn:Hrx.
  2:{ by rewrite round_and_center_pixels in Hrx. }
  destruct (round_and_center s (c, d)) as [[c' d']|] eqn:Hry.
  2:{ by rewrite round_and_center_pixels in Hry. }
  destruct (round_and_center_width s a b a' b' Hs Ha Hb Hrx) as (Hb' & _ & _).
  destruct (round_and_center_width s c d c' d' Hs Hc Hd Hry) as (Hd' & _ & _).
  unfold saved_tiles. fold s. rewrite Hrx. simpl. rewrite Hry. simpl.
  rewrite Hb', Hd', !np_arange_steps by lia. simpl.
  assert (Z.to_nat (- ((a - b) `div` s)) = 0%nat) as ->.
  { pose proof (Z.div_pos (a - b) s ltac:(lia) ltac:(lia)). lia. }
  simpl. f_equal.
  induction (seq 0 _) as [|j l IH]; [done|]. rewrite fmap_cons. simpl. apply IH.
Qed.

Lemma single_column_saves_nothing_witness :
  saved_tiles 640 (1000, 1000) (500, 700) [(1000, 700)] = Some [].
Proof.
  apply (single_column_saves_nothing 640 (1000, 1000) (500, 700) [(1000, 700)]);
    unfold pixel; simpl; lia.
Defined.
